(** * Gem Garden: the board engine and the level evaluator of [game.js]

    A shallow embedding of the level-system version of the game logic
    (the script that declares [CONFIG.STORAGE_KEY], [movesLeft],
    [gemsCollected] and [levelProgress]) and of the level table of
    [levels.js], together with the properties their specification states
    about them.

    Conventions of the embedding
    - the board [grid] is a JavaScript array of [CONFIG.ROWS] arrays of
      [CONFIG.COLS] numbers: a [list (list Z)]; a gem kind is a number in
      [0, NUM_GEM_TYPES) and the engine writes [-1] into an emptied cell;
    - row and column indices are [nat]; on a board of the right shape
      ([wf_grid]) every read and write of the engine is in range, and the
      results that depend on it carry [wf_grid] as a hypothesis (out of
      range JavaScript would read [undefined], grow a row or throw; the
      model reads [0] and writes nothing there);
    - [Math.random()] is an oracle [rnd : nat -> nat] read through the
      cursor [seed]: the [k]-th drawing of [Math.floor(Math.random() * n)]
      is [rnd k mod n], so every value below [n] can be drawn;
    - the module-level variables of the script are the fields of [State];
      of the page only the status line is kept ([status]), and a call of
      [setTimeout] is recorded in [timers];
    - an [async] function is run to completion: the [await delay(..)]
      calls only pace the animation, and the interleaving of other event
      handlers with them is not modelled;
    - loops that the source does not bound (the cascade loop, the
      reshuffle recursion) take fuel; a function returns [None] when the
      fuel runs out, or when the source would throw because the current
      level is not in the level table. *)

From stdpp Require Import base option list gmap.
From Stdlib Require Import ZArith Lia.

Local Open Scope Z_scope.

(** ** Configuration *)

Module CONFIG.
Definition ROWS : nat := 8.
Definition COLS : nat := 8.
Definition NUM_GEM_TYPES : nat := 6.
Definition POINTS_PER_GEM : Z := 10.
End CONFIG.
Import CONFIG.

(** The value [removeMatches] writes into an emptied cell. *)
Definition EMPTY : Z := -1.

(** ** Grid model *)

Abbreviation Grid := (list (list Z)).
Abbreviation Pos := (nat * nat)%type.

(** [grid[row][col]]. *)
Definition cell (g : Grid) (row col : nat) : Z :=
  default 0 (g !! row ≫= λ r, r !! col).

(** [grid[row][col] = v]. *)
Definition set_cell (g : Grid) (row col : nat) (v : Z) : Grid :=
  alter (λ r, <[col := v]> r) row g.

(** The shape [createGrid] builds and every later write keeps. *)
Definition wf_grid (g : Grid) : Prop :=
  length g = ROWS ∧ Forall (λ r, length r = COLS) g.

Definition wf_gridb (g : Grid) : bool :=
  (length g =? ROWS)%nat && forallb (λ r, (length r =? COLS)%nat) g.

(** [swap(row1, col1, row2, col2)]. *)
Definition swap (g : Grid) (row1 col1 row2 col2 : nat) : Grid :=
  let temp := cell g row1 col1 in
  let g1 := set_cell g row1 col1 (cell g row2 col2) in
  set_cell g1 row2 col2 temp.

(** ** Match detection *)

(** [matches.add(`${row},${col}`)] on the insertion-ordered [Set] of keys:
    the key of a position is its pair of indices. *)
Definition set_add (p : Pos) (matches : list Pos) : list Pos :=
  if bool_decide (p ∈ matches) then matches else matches ++ [p].

(** [while (matchEnd + 1 < CONFIG.COLS && grid[row][matchEnd + 1] === gemType)
      matchEnd++;] *)
Fixpoint extend_h (fuel : nat) (g : Grid) (row : nat) (gemType : Z)
    (matchEnd : nat) : nat :=
  match fuel with
  | O => matchEnd
  | S fuel' =>
      if (matchEnd + 1 <? COLS)%nat && (cell g row (matchEnd + 1) =? gemType)
      then extend_h fuel' g row gemType (matchEnd + 1)
      else matchEnd
  end.

(** [for (let c = col; c <= matchEnd; c++) matches.add(`${row},${c}`);]
    run for [n] iterations from [c]. *)
Fixpoint add_h (n : nat) (row c : nat) (matches : list Pos) : list Pos :=
  match n with
  | O => matches
  | S n' => add_h n' row (c + 1) (set_add (row, c) matches)
  end.

(** The inner [for (let col = 0; col < CONFIG.COLS - 2; col++)] of the
    horizontal pass; the body may move [col] forward to [matchEnd]. *)
Fixpoint scan_h (fuel : nat) (g : Grid) (row col : nat)
    (matches : list Pos) : list Pos :=
  match fuel with
  | O => matches
  | S fuel' =>
      if (col <? COLS - 2)%nat then
        let gemType := cell g row col in
        if (cell g row (col + 1) =? gemType) && (cell g row (col + 2) =? gemType)
        then
          let matchEnd := extend_h COLS g row gemType (col + 2) in
          scan_h fuel' g row (matchEnd + 1)
                 (add_h (matchEnd + 1 - col) row col matches)
        else scan_h fuel' g row (col + 1) matches
      else matches
  end.

(** [for (let row = 0; row < CONFIG.ROWS; row++)] of the horizontal pass,
    with [n] rows left to visit. *)
Fixpoint rows_h (n : nat) (g : Grid) (row : nat) (matches : list Pos)
    : list Pos :=
  match n with
  | O => matches
  | S n' => rows_h n' g (row + 1) (scan_h COLS g row 0 matches)
  end.

(** The vertical pass, the same with rows and columns exchanged. *)
Fixpoint extend_v (fuel : nat) (g : Grid) (col : nat) (gemType : Z)
    (matchEnd : nat) : nat :=
  match fuel with
  | O => matchEnd
  | S fuel' =>
      if (matchEnd + 1 <? ROWS)%nat && (cell g (matchEnd + 1) col =? gemType)
      then extend_v fuel' g col gemType (matchEnd + 1)
      else matchEnd
  end.

Fixpoint add_v (n : nat) (r col : nat) (matches : list Pos) : list Pos :=
  match n with
  | O => matches
  | S n' => add_v n' (r + 1) col (set_add (r, col) matches)
  end.

Fixpoint scan_v (fuel : nat) (g : Grid) (col row : nat)
    (matches : list Pos) : list Pos :=
  match fuel with
  | O => matches
  | S fuel' =>
      if (row <? ROWS - 2)%nat then
        let gemType := cell g row col in
        if (cell g (row + 1) col =? gemType) && (cell g (row + 2) col =? gemType)
        then
          let matchEnd := extend_v ROWS g col gemType (row + 2) in
          scan_v fuel' g col (matchEnd + 1)
                 (add_v (matchEnd + 1 - row) row col matches)
        else scan_v fuel' g col (row + 1) matches
      else matches
  end.

Fixpoint cols_v (n : nat) (g : Grid) (col : nat) (matches : list Pos)
    : list Pos :=
  match n with
  | O => matches
  | S n' => cols_v n' g (col + 1) (scan_v ROWS g col 0 matches)
  end.

(** [findAllMatches()]: the positions in insertion order. *)
Definition findAllMatches (g : Grid) : list Pos :=
  cols_v COLS g 0 (rows_h ROWS g 0 []).

(** ** Removal, gravity and refill *)

(** [removeMatches(matches)]. *)
Fixpoint removeMatches (matches : list Pos) (g : Grid) : Grid :=
  match matches with
  | [] => g
  | (row, col) :: rest => removeMatches rest (set_cell g row col EMPTY)
  end.

(** The inner [for (let row = CONFIG.ROWS - 1; row >= 0; row--)] of
    [applyGravity], with rows [n-1 .. 0] left to visit. *)
Fixpoint gravity_rows (n : nat) (col : nat) (emptyRow : Z) (g : Grid) : Grid :=
  match n with
  | O => g
  | S row =>
      if negb (cell g row col =? EMPTY) then
        if negb (Z.of_nat row =? emptyRow) then
          let g1 := set_cell g (Z.to_nat emptyRow) col (cell g row col) in
          let g2 := set_cell g1 row col EMPTY in
          gravity_rows row col (emptyRow - 1) g2
        else gravity_rows row col (emptyRow - 1) g
      else gravity_rows row col emptyRow g
  end.

(** One column of [applyGravity]. *)
Definition gravity_col (col : nat) (g : Grid) : Grid :=
  gravity_rows ROWS col (Z.of_nat ROWS - 1) g.

Fixpoint gravity_cols (n : nat) (col : nat) (g : Grid) : Grid :=
  match n with
  | O => g
  | S n' => gravity_cols n' (col + 1) (gravity_col col g)
  end.

(** [applyGravity()]; the flag [gemsFell] only decides whether the board is
    drawn again. *)
Definition applyGravity (g : Grid) : Grid := gravity_cols COLS 0 g.

(** [Math.floor(Math.random() * n)] at the [k]-th drawing. *)
Definition random_int (rnd : nat → nat) (k : nat) (n : nat) : nat :=
  (rnd k mod n)%nat.

Fixpoint fill_rows (n : nat) (rnd : nat → nat) (col row : nat)
    (g : Grid) (seed : nat) : Grid * nat :=
  match n with
  | O => (g, seed)
  | S n' =>
      if cell g row col =? EMPTY then
        fill_rows n' rnd col (row + 1)
          (set_cell g row col (Z.of_nat (random_int rnd seed NUM_GEM_TYPES)))
          (S seed)
      else fill_rows n' rnd col (row + 1) g seed
  end.

Fixpoint fill_cols (n : nat) (rnd : nat → nat) (col : nat)
    (g : Grid) (seed : nat) : Grid * nat :=
  match n with
  | O => (g, seed)
  | S n' =>
      let '(g', seed') := fill_rows ROWS rnd col 0 g seed in
      fill_cols n' rnd (col + 1) g' seed'
  end.

(** [fillEmptySpaces()]: the board and the number of drawings made. *)
Definition fillEmptySpaces (rnd : nat → nat) (g : Grid) (seed : nat)
    : Grid * nat :=
  fill_cols COLS rnd 0 g seed.

(** ** Move oracle *)

(** One tentative swap: [swap(..); hasMatch = findAllMatches().length > 0;
    swap(..)]. *)
Definition tentative (g : Grid) (row1 col1 row2 col2 : nat) : bool * Grid :=
  let g1 := swap g row1 col1 row2 col2 in
  let hasMatch := (0 <? length (findAllMatches g1))%nat in
  (hasMatch, swap g1 row1 col1 row2 col2).

Fixpoint hasValidMoves_cols (n : nat) (row col : nat) (g : Grid)
    : bool * Grid :=
  match n with
  | O => (false, g)
  | S n' =>
      let '(m1, g1) :=
        if (col <? COLS - 1)%nat then tentative g row col row (col + 1)
        else (false, g) in
      if m1 then (true, g1) else
      let '(m2, g2) :=
        if (row <? ROWS - 1)%nat then tentative g1 row col (row + 1) col
        else (false, g1) in
      if m2 then (true, g2) else hasValidMoves_cols n' row (col + 1) g2
  end.

Fixpoint hasValidMoves_rows (n : nat) (row : nat) (g : Grid) : bool * Grid :=
  match n with
  | O => (false, g)
  | S n' =>
      let '(m, g1) := hasValidMoves_cols COLS row 0 g in
      if m then (true, g1) else hasValidMoves_rows n' (row + 1) g1
  end.

(** [hasValidMoves()]: the answer and the board it leaves. *)
Definition hasValidMoves (g : Grid) : bool * Grid :=
  hasValidMoves_rows ROWS 0 g.

(** [{ row1, col1, row2, col2 }]. *)
Record Move := mkMove { row1 : nat; col1 : nat; row2 : nat; col2 : nat }.

Fixpoint findValidMove_cols (n : nat) (row col : nat) (g : Grid)
    : option Move * Grid :=
  match n with
  | O => (None, g)
  | S n' =>
      let '(m1, g1) :=
        if (col <? COLS - 1)%nat then tentative g row col row (col + 1)
        else (false, g) in
      if m1 then (Some (mkMove row col row (col + 1)), g1) else
      let '(m2, g2) :=
        if (row <? ROWS - 1)%nat then tentative g1 row col (row + 1) col
        else (false, g1) in
      if m2 then (Some (mkMove row col (row + 1) col), g2)
      else findValidMove_cols n' row (col + 1) g2
  end.

Fixpoint findValidMove_rows (n : nat) (row : nat) (g : Grid)
    : option Move * Grid :=
  match n with
  | O => (None, g)
  | S n' =>
      match findValidMove_cols COLS row 0 g with
      | (Some m, g1) => (Some m, g1)
      | (None, g1) => findValidMove_rows n' (row + 1) g1
      end
  end.

(** [findValidMove()]: the move, or [None] for [null], and the board it
    leaves. *)
Definition findValidMove (g : Grid) : option Move * Grid :=
  findValidMove_rows ROWS 0 g.

(** [gems.push(grid[row][col])] in row-major order. *)
Fixpoint flatten_cols (n : nat) (g : Grid) (row col : nat) (gems : list Z)
    : list Z :=
  match n with
  | O => gems
  | S n' => flatten_cols n' g row (col + 1) (gems ++ [cell g row col])
  end.

Fixpoint flatten_rows (n : nat) (g : Grid) (row : nat) (gems : list Z)
    : list Z :=
  match n with
  | O => gems
  | S n' => flatten_rows n' g (row + 1) (flatten_cols COLS g row 0 gems)
  end.

(** [for (let i = gems.length - 1; i > 0; i--)] of the Fisher-Yates pass,
    with [i] running from the first argument down to 1. *)
Fixpoint fisherYates (i : nat) (rnd : nat → nat) (gems : list Z) (seed : nat)
    : list Z * nat :=
  match i with
  | O => (gems, seed)
  | S i' =>
      let j := random_int rnd seed (i + 1) in
      let gi := default 0 (gems !! i) in
      let gj := default 0 (gems !! j) in
      fisherYates i' rnd (<[j := gi]> (<[i := gj]> gems)) (S seed)
  end.

(** [grid[row][col] = gems[index++]]. *)
Fixpoint writeBack_cols (n : nat) (gems : list Z) (row col : nat)
    (g : Grid) (index : nat) : Grid * nat :=
  match n with
  | O => (g, index)
  | S n' =>
      writeBack_cols n' gems row (col + 1)
        (set_cell g row col (default 0 (gems !! index))) (index + 1)
  end.

Fixpoint writeBack_rows (n : nat) (gems : list Z) (row : nat)
    (g : Grid) (index : nat) : Grid * nat :=
  match n with
  | O => (g, index)
  | S n' =>
      let '(g', index') := writeBack_cols COLS gems row 0 g index in
      writeBack_rows n' gems (row + 1) g' index'
  end.

(** [shuffleBoard()]: it calls itself again while the shuffled board has
    no valid move. *)
Fixpoint shuffleBoard (fuel : nat) (rnd : nat → nat) (g : Grid) (seed : nat)
    : option (Grid * nat) :=
  match fuel with
  | O => None
  | S fuel' =>
      let gems := flatten_rows ROWS g 0 [] in
      let '(gems', seed') := fisherYates (length gems - 1) rnd gems seed in
      let '(g1, _) := writeBack_rows ROWS gems' 0 g 0 in
      let '(valid, g2) := hasValidMoves g1 in
      if valid then Some (g2, seed') else shuffleBoard fuel' rnd g2 seed'
  end.

(** ** Level definitions ([levels.js]) *)

(** [{ type, count }]. *)
Record GemGoal := mkGemGoal { type : Z; count : Z }.

(** The [goals] object; an absent key is [None]. *)
Module Goals.
Record t := mk {
  score : option Z;
  collectGem : option GemGoal;
  collectGem2 : option GemGoal;
  collectGem3 : option GemGoal;
  collectAny : option Z
}.
End Goals.

(** A level record; [name] and [description] are only displayed. *)
Module Level.
Record t := mk {
  id : Z;
  moves : Z;
  goals : Goals.t;
  starThresholds : list Z
}.
End Level.

Definition score_goal (n : Z) : Goals.t := Goals.mk (Some n) None None None None.
Definition gem_goal (ty n : Z) : option GemGoal := Some (mkGemGoal ty n).

Definition LEVELS : list Level.t := [
  Level.mk 1 20 (score_goal 500) [500; 800; 1200];
  Level.mk 2 20 (score_goal 1000) [1000; 1500; 2000];
  Level.mk 3 15 (Goals.mk (Some 500) (gem_goal 0 10) None None None) [500; 1000; 1500];
  Level.mk 4 15 (Goals.mk (Some 600) (gem_goal 1 12) None None None) [600; 1200; 1800];
  Level.mk 5 18 (score_goal 1500) [1500; 2500; 3500];
  Level.mk 6 18 (Goals.mk (Some 800) (gem_goal 2 15) None None None) [800; 1500; 2200];
  Level.mk 7 16 (Goals.mk (Some 1000) (gem_goal 3 15) None None None) [1000; 1800; 2600];
  Level.mk 8 20 (Goals.mk None (gem_goal 4 20) None None None) [1000; 2000; 3000];
  Level.mk 9 15 (Goals.mk (Some 1200) (gem_goal 5 12) None None None) [1200; 2000; 2800];
  Level.mk 10 25 (score_goal 3000) [3000; 4500; 6000];
  Level.mk 11 20 (Goals.mk None (gem_goal 0 10) (gem_goal 1 10) None None) [1500; 2500; 3500];
  Level.mk 12 22 (Goals.mk (Some 2500) None None None (Some 50)) [2500; 4000; 5500];
  Level.mk 13 12 (score_goal 1500) [1500; 2200; 3000];
  Level.mk 14 25 (Goals.mk None (gem_goal 0 8) (gem_goal 2 8) (gem_goal 4 8) None) [2000; 3500; 5000];
  Level.mk 15 18 (score_goal 4000) [4000; 5500; 7000];
  Level.mk 16 15 (Goals.mk (Some 3500) (gem_goal 3 15) None None None) [3500; 5000; 6500];
  Level.mk 17 20 (score_goal 5000) [5000; 7000; 9000];
  Level.mk 18 22 (Goals.mk None (gem_goal 1 12) (gem_goal 3 12) (gem_goal 5 12) None) [3000; 5000; 7000];
  Level.mk 19 10 (score_goal 2000) [2000; 3000; 4000];
  Level.mk 20 25 (Goals.mk (Some 8000) None None None (Some 80)) [8000; 10000; 12000]
].

(** ** Game state *)

(** A stored progress record [{ completed, stars, bestScore }]; a record
    read back from storage may lack a key. *)
Record Progress := mkProgress {
  completed : bool;
  stars : option Z;
  bestScore : option Z
}.

(** The text [setStatus] puts into the status line. *)
Inductive Status :=
  | MsgDescription (levelId : Z)      (* level.description *)
  | MsgNiceMatch                      (* 'Nice match!' *)
  | MsgNoMatch                        (* 'No match! Try again.' *)
  | MsgCascade (cascadeLevel points : Z)
                                      (* `Cascade x${cascadeLevel}! +${points} points!` *)
  | MsgMatch3                         (* 'Match 3 or more gems!' *)
  | MsgShuffling                      (* 'No moves left! Shuffling...' *)
  | MsgShuffled.                      (* 'Board shuffled!' *)

(** A callback handed to [setTimeout(.., 500)] by [checkLevelEnd]. *)
Inductive Timer :=
  | ShowLevelComplete (level : Level.t)
  | ShowLevelFailed (level : Level.t).

Record State := mkState {
  grid : Grid;
  score : Z;
  selectedGem : option Pos;
  isProcessing : bool;
  currentLevel : Z;
  movesLeft : Z;
  totalMoves : Z;
  gemsCollected : gmap Z Z;
  totalGemsCollected : Z;
  levelProgress : gmap Z Progress;
  status : Status;
  timers : list Timer;
  seed : nat
}.

Definition set_grid (g : Grid) (st : State) : State :=
  mkState g (score st) (selectedGem st) (isProcessing st) (currentLevel st)
    (movesLeft st) (totalMoves st) (gemsCollected st) (totalGemsCollected st)
    (levelProgress st) (status st) (timers st) (seed st).

Definition set_score (v : Z) (st : State) : State :=
  mkState (grid st) v (selectedGem st) (isProcessing st) (currentLevel st)
    (movesLeft st) (totalMoves st) (gemsCollected st) (totalGemsCollected st)
    (levelProgress st) (status st) (timers st) (seed st).

Definition set_selectedGem (v : option Pos) (st : State) : State :=
  mkState (grid st) (score st) v (isProcessing st) (currentLevel st)
    (movesLeft st) (totalMoves st) (gemsCollected st) (totalGemsCollected st)
    (levelProgress st) (status st) (timers st) (seed st).

Definition set_isProcessing (v : bool) (st : State) : State :=
  mkState (grid st) (score st) (selectedGem st) v (currentLevel st)
    (movesLeft st) (totalMoves st) (gemsCollected st) (totalGemsCollected st)
    (levelProgress st) (status st) (timers st) (seed st).

Definition set_movesLeft (v : Z) (st : State) : State :=
  mkState (grid st) (score st) (selectedGem st) (isProcessing st)
    (currentLevel st) v (totalMoves st) (gemsCollected st)
    (totalGemsCollected st) (levelProgress st) (status st) (timers st)
    (seed st).

Definition set_collected (gc : gmap Z Z) (total : Z) (st : State) : State :=
  mkState (grid st) (score st) (selectedGem st) (isProcessing st)
    (currentLevel st) (movesLeft st) (totalMoves st) gc total
    (levelProgress st) (status st) (timers st) (seed st).

Definition set_levelProgress (v : gmap Z Progress) (st : State) : State :=
  mkState (grid st) (score st) (selectedGem st) (isProcessing st)
    (currentLevel st) (movesLeft st) (totalMoves st) (gemsCollected st)
    (totalGemsCollected st) v (status st) (timers st) (seed st).

(** [setStatus(message)]. *)
Definition setStatus (v : Status) (st : State) : State :=
  mkState (grid st) (score st) (selectedGem st) (isProcessing st)
    (currentLevel st) (movesLeft st) (totalMoves st) (gemsCollected st)
    (totalGemsCollected st) (levelProgress st) v (timers st) (seed st).

(** [setTimeout(callback, 500)]. *)
Definition setTimeout (t : Timer) (st : State) : State :=
  mkState (grid st) (score st) (selectedGem st) (isProcessing st)
    (currentLevel st) (movesLeft st) (totalMoves st) (gemsCollected st)
    (totalGemsCollected st) (levelProgress st) (status st) (timers st ++ [t])
    (seed st).

Definition set_seed (v : nat) (st : State) : State :=
  mkState (grid st) (score st) (selectedGem st) (isProcessing st)
    (currentLevel st) (movesLeft st) (totalMoves st) (gemsCollected st)
    (totalGemsCollected st) (levelProgress st) (status st) (timers st) v.

(** [updateScore(points)]. *)
Definition updateScore (points : Z) (st : State) : State :=
  set_score (score st + points) st.

(** [selectGem(row, col)] and [deselectGem()]. *)
Definition selectGem (row col : nat) (st : State) : State :=
  set_selectedGem (Some (row, col)) st.

Definition deselectGem (st : State) : State :=
  match selectedGem st with
  | Some _ => set_selectedGem None st
  | None => st
  end.

(** ** Level evaluation *)

(** [gemsCollected[type] || 0]. *)
Definition collected (gc : gmap Z Z) (ty : Z) : Z := default 0 (gc !! ty).

(** [goal && value < goal] for a numeric goal: [undefined] and [0] are
    falsy. *)
Definition number_goal_fails (goal : option Z) (value : Z) : bool :=
  match goal with
  | Some target => negb (target =? 0) && (value <? target)
  | None => false
  end.

(** [if (goal) { if ((gemsCollected[goal.type] || 0) < goal.count) .. }]:
    an object is truthy. *)
Definition gem_goal_fails (goal : option GemGoal) (gc : gmap Z Z) : bool :=
  match goal with
  | Some gg => collected gc (type gg) <? count gg
  | None => false
  end.

(** [checkAllGoalsComplete(goals)]. *)
Definition checkAllGoalsComplete (goals : Goals.t) (st : State) : bool :=
  if number_goal_fails (Goals.score goals) (score st) then false
  else if gem_goal_fails (Goals.collectGem goals) (gemsCollected st) then false
  else if gem_goal_fails (Goals.collectGem2 goals) (gemsCollected st) then false
  else if gem_goal_fails (Goals.collectGem3 goals) (gemsCollected st) then false
  else if number_goal_fails (Goals.collectAny goals) (totalGemsCollected st)
       then false
  else true.

(** [LEVELS.find(l => l.id === levelId)]. *)
Definition find_level (levels : list Level.t) (levelId : Z) : option Level.t :=
  List.find (λ l, Level.id l =? levelId) levels.

(** The body of [checkLevelEnd()] once the level record is found. *)
Definition checkLevelEnd_level (level : Level.t) (st : State) : State :=
  let goals := Level.goals level in
  let goalsComplete := checkAllGoalsComplete goals st in
  if goalsComplete then setTimeout (ShowLevelComplete level) st
  else if movesLeft st <=? 0 then
    if checkAllGoalsComplete goals st
    then setTimeout (ShowLevelComplete level) st
    else setTimeout (ShowLevelFailed level) st
  else st.

(** [checkLevelEnd()]; [None] is the [TypeError] of reading [goals] from
    an unknown level. *)
Definition checkLevelEnd (st : State) : option State :=
  level ← find_level LEVELS (currentLevel st);
  Some (checkLevelEnd_level level st).

(** [score >= thresholds[i]]; a missing threshold compares false. *)
Definition reaches (v : Z) (threshold : option Z) : bool :=
  match threshold with
  | Some t => t <=? v
  | None => false
  end.

(** [calculateStars(level)]. *)
Definition calculateStars (level : Level.t) (st : State) : Z :=
  let thresholds := Level.starThresholds level in
  let stars0 := 0 in
  let stars1 := if reaches (score st) (thresholds !! 0%nat) then 1 else stars0 in
  let stars2 := if reaches (score st) (thresholds !! 1%nat) then 2 else stars1 in
  let stars3 := if reaches (score st) (thresholds !! 2%nat) then 3 else stars2 in
  stars3.

(** The progress update of [showLevelComplete(level)]; the rest of the
    function fills the modal. *)
Definition showLevelComplete (level : Level.t) (st : State) : State :=
  let stars' := calculateStars level st in
  let existing := levelProgress st !! Level.id level in
  let existingStars := default 0 (existing ≫= stars) in
  let existingBest := default 0 (existing ≫= bestScore) in
  set_levelProgress
    (<[Level.id level :=
         mkProgress true (Some (Z.max existingStars stars'))
                    (Some (Z.max existingBest (score st)))]>
       (levelProgress st))
    st.

(** ** Resolution engine *)

(** The gem-tracking loop of [processMatches]:
    [gemsCollected[gemType] = (gemsCollected[gemType] || 0) + 1;
     totalGemsCollected++]. *)
Fixpoint collectGems (matches : list Pos) (g : Grid) (gc : gmap Z Z)
    (total : Z) : gmap Z Z * Z :=
  match matches with
  | [] => (gc, total)
  | (row, col) :: rest =>
      let gemType := cell g row col in
      collectGems rest g (<[gemType := collected gc gemType + 1]> gc)
        (total + 1)
  end.

(** One pass through the body of the [while] loop of [processMatches];
    [cascadeLevel] is the value after [cascadeLevel++]. The call of
    [updateGoalsProgress()] only writes to the page and is left out; it
    reads [level.goals] of the current level, so that with a current
    level outside the table the source throws here already, and not only
    in [checkLevelEnd] after the loop. *)
Definition cascadeStep (rnd : nat → nat) (cascadeLevel : Z)
    (matches : list Pos) (st : State) : State :=
  let '(gc, total) :=
    collectGems matches (grid st) (gemsCollected st) (totalGemsCollected st) in
  let st1 := set_collected gc total st in
  let points := Z.of_nat (length matches) * POINTS_PER_GEM * cascadeLevel in
  let st2 := updateScore points st1 in
  let st3 := if 1 <? cascadeLevel
             then setStatus (MsgCascade cascadeLevel points) st2 else st2 in
  let g1 := removeMatches matches (grid st3) in
  let g2 := applyGravity g1 in
  let '(g3, seed') := fillEmptySpaces rnd g2 (seed st3) in
  set_seed seed' (set_grid g3 st3).

(** The [while (matches.length > 0)] loop, entered with the current value
    of [cascadeLevel]. *)
Fixpoint cascadeLoop (fuel : nat) (rnd : nat → nat) (cascadeLevel : Z)
    (matches : list Pos) (st : State) : option State :=
  if (0 <? length matches)%nat then
    match fuel with
    | O => None
    | S fuel' =>
        let cascadeLevel' := cascadeLevel + 1 in
        let st' := cascadeStep rnd cascadeLevel' matches st in
        cascadeLoop fuel' rnd cascadeLevel' (findAllMatches (grid st')) st'
    end
  else Some (setStatus MsgMatch3 st).

(** [processMatches(matches)]. *)
Definition processMatches (fuel : nat) (rnd : nat → nat)
    (matches : list Pos) (st : State) : option State :=
  cascadeLoop fuel rnd 0 matches st.

(** The final [if (!hasValidMoves()) { .. shuffleBoard(); .. }] of
    [trySwap]. *)
Definition reshuffleIfStuck (fuel : nat) (rnd : nat → nat) (st : State)
    : option State :=
  let '(valid, g) := hasValidMoves (grid st) in
  let st1 := set_grid g st in
  if valid then Some st1
  else
    let st2 := setStatus MsgShuffling st1 in
    '(g', seed') ← shuffleBoard fuel rnd (grid st2) (seed st2);
    Some (setStatus MsgShuffled (set_seed seed' (set_grid g' st2))).

(** [trySwap(row1, col1, row2, col2)]. *)
Definition trySwap (fuel : nat) (rnd : nat → nat)
    (row1 col1 row2 col2 : nat) (st : State) : option State :=
  let st1 := deselectGem (set_isProcessing true st) in
  let st2 := set_grid (swap (grid st1) row1 col1 row2 col2) st1 in
  let matches := findAllMatches (grid st2) in
  st5 ← (if (0 <? length matches)%nat then
           let st3 := setStatus MsgNiceMatch
                        (set_movesLeft (movesLeft st2 - 1) st2) in
           st4 ← processMatches fuel rnd matches st3;
           checkLevelEnd st4
         else
           let st3 := setStatus MsgNoMatch st2 in
           Some (set_grid (swap (grid st3) row1 col1 row2 col2) st3));
  st6 ← reshuffleIfStuck fuel rnd st5;
  Some (set_isProcessing false st6).

(** ** User interaction *)

(** [isAdjacent(pos1, pos2)]. *)
Definition isAdjacent (pos1 pos2 : Pos) : bool :=
  let rowDiff := Z.abs (Z.of_nat (fst pos1) - Z.of_nat (fst pos2)) in
  let colDiff := Z.abs (Z.of_nat (snd pos1) - Z.of_nat (snd pos2)) in
  ((rowDiff =? 1) && (colDiff =? 0)) || ((rowDiff =? 0) && (colDiff =? 1)).

(** [handleGemClick(row, col)]. *)
Definition handleGemClick (fuel : nat) (rnd : nat → nat) (row col : nat)
    (st : State) : option State :=
  if isProcessing st then Some st
  else
    match selectedGem st with
    | None => Some (selectGem row col st)
    | Some sel =>
        if (fst sel =? row)%nat && (snd sel =? col)%nat
        then Some (deselectGem st)
        else if isAdjacent sel (row, col)
        then trySwap fuel rnd (fst sel) (snd sel) row col st
        else Some (selectGem row col (deselectGem st))
    end.

(** ** Grid creation *)

(** [a[i] = v] on a JavaScript array with [i <= a.length]: an element in
    range is replaced, and an assignment at [a.length] appends (beyond
    that JavaScript would leave holes; the engine never does so). *)
Definition js_assign {A} (a : list A) (i : nat) (v : A) : list A :=
  if (i <? length a)%nat then <[i := v]> a else a ++ [v].

(** [wouldCreateMatch(row, col, gemType)]. *)
Definition wouldCreateMatch (g : Grid) (row col : nat) (gemType : Z) : bool :=
  if (2 <=? col)%nat && (cell g row (col - 1) =? gemType)
     && (cell g row (col - 2) =? gemType)
  then true
  else if (2 <=? row)%nat && (cell g (row - 1) col =? gemType)
          && (cell g (row - 2) col =? gemType)
  then true
  else false.

(** The [do .. while] loop of [getRandomGemWithoutMatch] with [more]
    attempts left after the one it makes: [attempts] is [100 - more] after
    [attempts++], so [more = 0] is the [break] of [attempts >= 100]. *)
Fixpoint getRandomGem_loop (more : nat) (rnd : nat → nat) (g : Grid)
    (row col : nat) (seed : nat) : Z * nat :=
  let gemType := Z.of_nat (random_int rnd seed NUM_GEM_TYPES) in
  match more with
  | O => (gemType, S seed)
  | S more' =>
      if wouldCreateMatch g row col gemType
      then getRandomGem_loop more' rnd g row col (S seed)
      else (gemType, S seed)
  end.

(** [getRandomGemWithoutMatch(row, col)]: the kind and the drawings
    made. *)
Definition getRandomGemWithoutMatch (rnd : nat → nat) (g : Grid)
    (row col : nat) (seed : nat) : Z * nat :=
  getRandomGem_loop 99 rnd g row col seed.

(** The inner loop of [createGrid]:
    [grid[row][col] = getRandomGemWithoutMatch(row, col)]. *)
Fixpoint createGrid_cols (n : nat) (rnd : nat → nat) (g : Grid)
    (row col : nat) (seed : nat) : Grid * nat :=
  match n with
  | O => (g, seed)
  | S n' =>
      let '(gemType, seed') := getRandomGemWithoutMatch rnd g row col seed in
      createGrid_cols n' rnd (alter (λ r, js_assign r col gemType) row g)
        row (col + 1) seed'
  end.

(** The outer loop of [createGrid], which starts each row with
    [grid[row] = []]. *)
Fixpoint createGrid_rows (n : nat) (rnd : nat → nat) (g : Grid)
    (row : nat) (seed : nat) : Grid * nat :=
  match n with
  | O => (g, seed)
  | S n' =>
      let '(g', seed') :=
        createGrid_cols COLS rnd (js_assign g row []) row 0 seed in
      createGrid_rows n' rnd g' (row + 1) seed'
  end.

(** [createGrid()]: the board built from [grid = []] and the drawings
    made. *)
Definition createGrid (rnd : nat → nat) (seed : nat) : Grid * nat :=
  createGrid_rows ROWS rnd [] 0 seed.

(** ** Levels *)

(** [{ 0: 0, 1: 0, 2: 0, 3: 0, 4: 0, 5: 0 }]. *)
Definition no_gems : gmap Z Z :=
  <[0 := 0]> (<[1 := 0]> (<[2 := 0]> (<[3 := 0]> (<[4 := 0]> (<[5 := 0]> ∅))))).

(** [loadLevel(levelId)]; an unknown level is reported on the console and
    nothing changes. Timers already set are not cleared. *)
Definition loadLevel (fuel : nat) (rnd : nat → nat) (levelId : Z)
    (st : State) : option State :=
  match find_level LEVELS levelId with
  | None => Some st
  | Some level =>
      let '(g, seed1) := createGrid rnd (seed st) in
      let st1 :=
        mkState g 0 None false levelId (Level.moves level) (Level.moves level)
          no_gems 0 (levelProgress st) (MsgDescription (Level.id level))
          (timers st) seed1 in
      let '(valid, g1) := hasValidMoves (grid st1) in
      let st2 := set_grid g1 st1 in
      if valid then Some st2
      else
        '(g2, seed2) ← shuffleBoard fuel rnd (grid st2) (seed st2);
        Some (set_seed seed2 (set_grid g2 st2))
  end.

(** [isLevelUnlocked(levelId)]. *)
Definition isLevelUnlocked (levelId : Z) (st : State) : bool :=
  if levelId =? 1 then true
  else
    match levelProgress st !! (levelId - 1) with
    | Some p => completed p
    | None => false
    end.

(** The click handler of the button [next-level-btn]:
    [if (currentLevel < LEVELS.length) loadLevel(currentLevel + 1)]. *)
Definition nextLevel_click (fuel : nat) (rnd : nat → nat) (st : State)
    : option State :=
  if currentLevel st <? Z.of_nat (length LEVELS)
  then loadLevel fuel rnd (currentLevel st + 1) st
  else Some st.

(** The click handler of the buttons [restart-btn] and [retry-btn]:
    [loadLevel(currentLevel)]. *)
Definition restart_click (fuel : nat) (rnd : nat → nat) (st : State)
    : option State :=
  loadLevel fuel rnd (currentLevel st) st.

(** ** Runs of equal cells *)

(** Three equal cells side by side in row [r], starting at column [i];
    and in column [c], starting at row [i]. *)
Definition hwin (g : Grid) (r i : nat) : Prop :=
  (i + 2 < COLS)%nat ∧ cell g r (i + 1) = cell g r i
  ∧ cell g r (i + 2) = cell g r i.

Definition vwin (g : Grid) (i c : nat) : Prop :=
  (i + 2 < ROWS)%nat ∧ cell g (i + 1) c = cell g i c
  ∧ cell g (i + 2) c = cell g i c.

(** The cell [(r, c)] lies in a run of three or more equal cells along its
    row or along its column. *)
Definition in_run (g : Grid) (r c : nat) : Prop :=
  ((r < ROWS)%nat ∧ ∃ i, (i ≤ c ≤ i + 2)%nat ∧ hwin g r i)
  ∨ ((c < COLS)%nat ∧ ∃ i, (i ≤ r ≤ i + 2)%nat ∧ vwin g i c).

(** No cell of the board is empty. *)
Definition no_empty (g : Grid) : Prop :=
  ∀ r c, (r < ROWS)%nat → (c < COLS)%nat → cell g r c ≠ EMPTY.

(** The scan of one line of cells, of which the horizontal and the vertical
    pass of [findAllMatches] are the two instances ([scan_h_line],
    [scan_v_line]). *)
Section Line.
Variables (len : nat) (get : nat → Z) (mk : nat → Pos).

Fixpoint extend_l (fuel : nat) (gemType : Z) (matchEnd : nat) : nat :=
  match fuel with
  | O => matchEnd
  | S fuel' =>
      if (matchEnd + 1 <? len)%nat && (get (matchEnd + 1) =? gemType)
      then extend_l fuel' gemType (matchEnd + 1)
      else matchEnd
  end.

Fixpoint add_l (n : nat) (c : nat) (matches : list Pos) : list Pos :=
  match n with
  | O => matches
  | S n' => add_l n' (c + 1) (set_add (mk c) matches)
  end.

Fixpoint scan_l (fuel : nat) (col : nat) (matches : list Pos) : list Pos :=
  match fuel with
  | O => matches
  | S fuel' =>
      if (col <? len - 2)%nat then
        let gemType := get col in
        if (get (col + 1) =? gemType) && (get (col + 2) =? gemType)
        then
          let matchEnd := extend_l len gemType (col + 2) in
          scan_l fuel' (matchEnd + 1) (add_l (matchEnd + 1 - col) col matches)
        else scan_l fuel' (col + 1) matches
      else matches
  end.

Definition win (i : nat) : Prop :=
  (i + 2 < len)%nat ∧ get (i + 1) = get i ∧ get (i + 2) = get i.

Definition cov (j : nat) : Prop := ∃ i, (i ≤ j ≤ i + 2)%nat ∧ win i.
End Line.

(** ** Columns *)

(** Column [c] of the board, from the top row to the bottom row. *)
Definition column (g : Grid) (c : nat) : list Z :=
  (λ row, default 0 (row !! c)) <$> g.

(** A column after gravity, in the words of the specification: the empty
    cells on top, the gems below them in their former order. *)
Definition compact (l : list Z) : list Z :=
  replicate (length (filter (λ v, v = EMPTY) l)) EMPTY
  ++ filter (λ v, v ≠ EMPTY) l.

(** The loop [gravity_rows] read on the column alone. *)
Fixpoint gravity_list (n : nat) (emptyRow : Z) (l : list Z) : list Z :=
  match n with
  | O => l
  | S row =>
      let v := default 0 (l !! row) in
      if negb (v =? EMPTY) then
        if negb (Z.of_nat row =? emptyRow) then
          gravity_list row (emptyRow - 1)
            (<[row := EMPTY]> (<[Z.to_nat emptyRow := v]> l))
        else gravity_list row (emptyRow - 1) l
      else gravity_list row emptyRow l
  end.

(** ** Candidate moves *)

(** The tentative swap of a move produces a match. *)
Definition gives_match (g : Grid) (m : Move) : bool :=
  (0 <? length (findAllMatches (swap g (row1 m) (col1 m) (row2 m) (col2 m))))%nat.

(** The swaps tried at one cell: with the right neighbour first, then with
    the bottom neighbour, each if it is on the board. *)
Definition cell_candidates (row col : nat) : list Move :=
  (if (col <? COLS - 1)%nat then [mkMove row col row (col + 1)] else [])
  ++ (if (row <? ROWS - 1)%nat then [mkMove row col (row + 1) col] else []).

(** All swaps in the order of the scan: row by row, and within a row
    column by column. *)
Definition candidates : list Move :=
  flat_map (λ row, flat_map (cell_candidates row) (seq 0 COLS)) (seq 0 ROWS).

(** ** Empty runs *)


(** ** Goal satisfaction in the words of the specification *)




(** The stored star count and best score of a level, [0] when there is
    none: [existingProgress.stars || 0], [existingProgress.bestScore || 0]. *)
Definition storedStars (st : State) (levelId : Z) : Z :=
  default 0 (levelProgress st !! levelId ≫= stars).

Definition storedBest (st : State) (levelId : Z) : Z :=
  default 0 (levelProgress st !! levelId ≫= bestScore).

(** ** The passes of the cascade loop *)

(** The values of [cascadeLevel] and [matches] and the state after [k]
    passes through the body of the loop of [processMatches], when the
    loop is entered with the given values. *)
Fixpoint passes (k : nat) (rnd : nat → nat) (cascadeLevel : Z)
    (matches : list Pos) (st : State) : Z * list Pos * State :=
  match k with
  | O => (cascadeLevel, matches, st)
  | S k' =>
      let st' := cascadeStep rnd (cascadeLevel + 1) matches st in
      passes k' rnd (cascadeLevel + 1) (findAllMatches (grid st')) st'
  end.

(** ** Boards and states used as concrete inputs *)

(** A board without a match and without a valid move. *)
Definition board_stuck : Grid :=
  [ [0; 1; 2; 3; 4; 5; 0; 1];
    [3; 4; 5; 0; 1; 2; 3; 4];
    [0; 1; 2; 3; 4; 5; 0; 1];
    [3; 4; 5; 0; 1; 2; 3; 4];
    [0; 1; 2; 3; 4; 5; 0; 1];
    [3; 4; 5; 0; 1; 2; 3; 4];
    [0; 1; 2; 3; 4; 5; 0; 1];
    [3; 4; 5; 0; 1; 2; 3; 4] ].

(** A board without a match on which swapping [(1, 0)] and [(1, 1)] lines
    up three gems of kind 1 in column 1. *)
Definition board_play : Grid :=
  [ [0; 1; 2; 3; 4; 5; 0; 1];
    [1; 4; 5; 0; 1; 2; 3; 4];
    [0; 1; 2; 3; 4; 5; 0; 1];
    [3; 4; 5; 0; 1; 2; 3; 4];
    [0; 1; 2; 3; 4; 5; 0; 1];
    [3; 4; 5; 0; 1; 2; 3; 4];
    [0; 1; 2; 3; 4; 5; 0; 1];
    [3; 4; 5; 0; 1; 2; 3; 4] ].


(** A board with holes below gems, as [removeMatches] leaves it after a
    horizontal match in row 2 and a vertical one in column 0. *)
Definition board_holes : Grid :=
  [ [0; 1; 2; 3; 4; 5; 0; 1];
    [3; 4; 5; 0; 1; 2; 3; 4];
    [0; 1; 2; -1; -1; -1; 0; 1];
    [3; 4; 5; 0; 1; 2; 3; 4];
    [-1; 1; 2; 3; 4; 5; 0; 1];
    [-1; 4; 5; 0; 1; 2; 3; 4];
    [-1; 1; 2; 3; 4; 5; 0; 1];
    [3; 4; 5; 0; 1; 2; 3; 4] ].

(** A random source that yields the listed numbers, then zeros. *)
Definition draws (l : list nat) : nat → nat := λ k, nth k l 0%nat.

(** Level 1 under way on the given board: no score yet, nothing selected,
    nothing collected, no stored progress. *)
Definition level1_state (g : Grid) (moves : Z) : State :=
  mkState g 0 None false 1 moves 20 ∅ 0 ∅ (MsgDescription 1) [] 0.

(** The second level of [LEVELS], with thresholds [1000, 1500, 2000]. *)
Definition level2 : Level.t :=
  Level.mk 2 20 (score_goal 1000) [1000; 1500; 2000].

(** The first level of [LEVELS]: reach a score of 500. *)
Definition level1 : Level.t :=
  Level.mk 1 20 (score_goal 500) [500; 800; 1200].


(** Drawings that make the Fisher-Yates pass over 64 gems exchange the
    gems number 8 and 7 and leave every other gem in place: the pass
    draws [j] for [i = 63, 62, .., 1], and [j = i] changes nothing. *)
Definition transposing_draws : nat → nat :=
  draws (rev (seq 9 55) ++ [7%nat] ++ rev (seq 1 7)).

(** [board_stuck] with the gems of [(1, 0)] and [(0, 7)] exchanged. *)
Definition board_reshuffled : Grid :=
  [ [0; 1; 2; 3; 4; 5; 0; 3];
    [1; 4; 5; 0; 1; 2; 3; 4];
    [0; 1; 2; 3; 4; 5; 0; 1];
    [3; 4; 5; 0; 1; 2; 3; 4];
    [0; 1; 2; 3; 4; 5; 0; 1];
    [3; 4; 5; 0; 1; 2; 3; 4];
    [0; 1; 2; 3; 4; 5; 0; 1];
    [3; 4; 5; 0; 1; 2; 3; 4] ].

(** ** Further notions used by the properties below *)

(** All cells of the board, row by row. *)
Definition cells (g : Grid) : list Z :=
  flat_map (λ r, (λ c, cell g r c) <$> seq 0 COLS) (seq 0 ROWS).

(** Every cell of the board holds a gem kind. *)
Definition gems_only (g : Grid) : Prop :=
  ∀ r c, (r < ROWS)%nat → (c < COLS)%nat →
    0 ≤ cell g r c < Z.of_nat NUM_GEM_TYPES.

(** A gem kind. *)
Definition is_kind (v : Z) : Prop := 0 ≤ v < Z.of_nat NUM_GEM_TYPES.

(** The sum of the per-kind counters. *)
Definition sum_collected (gc : gmap Z Z) : Z :=
  map_fold (λ _ v acc, v + acc) 0 gc.

(** The positions of [matches] whose cell holds the kind [k]. *)
Definition matched_of_kind (g : Grid) (k : Z) (matches : list Pos) : list Pos :=
  filter (λ p, cell g p.1 p.2 = k) matches.

(** The number of empty cells of a column, and of the board. *)
Definition empties_in (l : list Z) : nat :=
  length (filter (λ v, v = EMPTY) l).

Definition empties (g : Grid) : nat :=
  sum_list ((λ c, empties_in (column g c)) <$> seq 0 COLS).

(** Every cell of the board holds a gem kind or is empty. *)
Definition gems_or_empty (g : Grid) : Prop :=
  ∀ r c, (r < ROWS)%nat → (c < COLS)%nat →
    cell g r c = EMPTY ∨ is_kind (cell g r c).

(** The engine waits for a click: the board has the right shape, holds
    gem kinds only and has a valid move, no cycle is in progress, and a
    selected cell is a cell of the board. *)
Definition ready (st : State) : Prop :=
  wf_grid (grid st) ∧ gems_only (grid st)
  ∧ (hasValidMoves (grid st)).1 = true
  ∧ isProcessing st = false
  ∧ ∀ p, selectedGem st = Some p → (p.1 < ROWS)%nat ∧ (p.2 < COLS)%nat.

(** ** The board while [createGrid] builds it *)

(** The rows above [row] are complete and row [row] has its first [col]
    cells. *)
Definition partial (g : Grid) (row col : nat) : Prop :=
  length g = S row
  ∧ ∀ r l, g !! r = Some l →
      length l = if decide (r = row) then col else COLS.

(** The cell [(r, c)] has been written when the loops stand at
    [(row, col)]. *)
Definition placed (row col r c : nat) : Prop :=
  ((r < row)%nat ∧ (c < COLS)%nat) ∨ (r = row ∧ (c < col)%nat).

(** The gem of [(r, c)] does not complete a run with the two cells to its
    left or the two cells above it. *)
Definition fits (g : Grid) (r c : nat) : Prop :=
  wouldCreateMatch g r c (cell g r c) = false.

(** ** An accepted swap, step by step *)

(** The state in which [trySwap] calls [processMatches] after a swap that
    produces a match: the cycle is in progress, the selection is cleared,
    the two cells are exchanged and one move is taken off. *)
Definition accepted_start (r1 c1 r2 c2 : nat) (st : State) : State :=
  setStatus MsgNiceMatch
    (set_movesLeft (movesLeft st - 1)
       (set_grid (swap (grid st) r1 c1 r2 c2)
          (set_selectedGem None (set_isProcessing true st)))).

(** The cascade entered with the match set [ms] in the state [st] ends
    after exactly [k] passes: the match set found after the pass number
    [k] is the first empty one. *)
Definition cascade_ends_after (k : nat) (rnd : nat → nat) (ms : list Pos)
    (st : State) : Prop :=
  (passes k rnd 0 ms st).1.2 = []
  ∧ ∀ j, (j < k)%nat → (passes j rnd 0 ms st).1.2 ≠ [].

(** The state [processMatches] then returns. *)
Definition after_cascade (k : nat) (rnd : nat → nat) (ms : list Pos)
    (st : State) : State :=
  setStatus MsgMatch3 (passes k rnd 0 ms st).2.

(** Level 2 with its move budget spent: 600 points from 60 gems, the goal
    of 1000 points not reached, and the failure modal of the last move
    still pending. *)
Definition state_spent : State :=
  mkState board_play 600 None false 2 0 20
    (<[0 := 10]> (<[1 := 10]> (<[2 := 10]> (<[3 := 10]> (<[4 := 10]>
       (<[5 := 10]> ∅))))))
    60 ∅ MsgMatch3 [ShowLevelFailed level2] 0.

(** ** The refill, drawing by drawing *)

(** The number of cells of column [c] that are among the positions
    [ms], and the number of those in the columns to the left of [c]. *)
Definition matched_in (ms : list Pos) (c : nat) : nat :=
  length (filter (λ r, (r, c) ∈ ms) (seq 0 ROWS)).

Definition matched_before (ms : list Pos) (c : nat) : nat :=
  sum_list (matched_in ms <$> seq 0 c).

(** The gem kind of the drawing number [k]. *)
Definition drawn (rnd : nat → nat) (k : nat) : Z :=
  Z.of_nat (random_int rnd k NUM_GEM_TYPES).

(** ** The attempts of [createGrid] *)

(** The board and the number of drawings made when [createGrid] started
    at [seed] reaches the cell [(row, col)]: [row] rows are complete and
    row [row] has its first [col] cells. *)
Definition createGrid_upto (rnd : nat → nat) (seed : nat) (row col : nat)
    : Grid * nat :=
  let above := createGrid_rows row rnd [] 0 seed in
  createGrid_cols col rnd (js_assign above.1 row []) row 0 above.2.

(** The number of drawings [getRandomGemWithoutMatch] makes for the cell
    [(row, col)] in that run of [createGrid]. *)
Definition attempts (rnd : nat → nat) (seed : nat) (row col : nat) : nat :=
  let here := createGrid_upto rnd seed row col in
  ((getRandomGemWithoutMatch rnd here.1 row col here.2).2 - here.2)%nat.

(** * Properties *)

(** The proofs below treat the board dimensions as symbols. *)
#[local] Opaque ROWS COLS NUM_GEM_TYPES.

(** Reduction of the projections and setters of [State] only. *)
Ltac state_simpl :=
  cbn [grid score selectedGem isProcessing currentLevel movesLeft totalMoves
       gemsCollected totalGemsCollected levelProgress status timers seed
       set_grid set_score set_selectedGem set_isProcessing set_movesLeft
       set_collected set_levelProgress setStatus setTimeout set_seed
       updateScore selectGem].

Tactic Notation "state_simpl" "in" hyp(H) :=
  cbn [grid score selectedGem isProcessing currentLevel movesLeft totalMoves
       gemsCollected totalGemsCollected levelProgress status timers seed
       set_grid set_score set_selectedGem set_isProcessing set_movesLeft
       set_collected set_levelProgress setStatus setTimeout set_seed
       updateScore selectGem] in H.


(** ** The grid primitives *)

Lemma wf_gridb_spec (g : Grid) : wf_gridb g = true ↔ wf_grid g.
Proof.
  unfold wf_gridb, wf_grid.
  rewrite andb_true_iff, Nat.eqb_eq, forallb_forall, Forall_forall.
  split; intros [H1 H2]; split; auto; intros r Hr.
  - apply Nat.eqb_eq, H2. by apply list_elem_of_In.
  - apply Nat.eqb_eq, H2. by apply list_elem_of_In.
Qed.

Lemma wf_lookup (g : Grid) (r : nat) :
  wf_grid g → (r < ROWS)%nat → ∃ l, g !! r = Some l ∧ length l = COLS.
Proof.
  intros [Hlen Hall] Hr.
  destruct (lookup_lt_is_Some_2 g r) as [l Hl]; [lia|].
  exists l. split; [done|].
  rewrite Forall_forall in Hall. apply Hall.
  by eapply list_elem_of_lookup_2.
Qed.

Lemma wf_set_cell (g : Grid) (r c : nat) (v : Z) :
  wf_grid g → wf_grid (set_cell g r c v).
Proof.
  intros [Hlen Hall]. unfold set_cell. split.
  - by rewrite length_alter.
  - rewrite Forall_forall in *. intros l Hl.
    apply list_elem_of_lookup in Hl as [i Hi].
    destruct (decide (r = i)) as [->|Hne].
    + rewrite list_lookup_alter_eq in Hi.
      destruct (g !! i) as [l0|] eqn:E; simplify_eq/=.
      rewrite length_insert. apply Hall. by eapply list_elem_of_lookup_2.
    + rewrite list_lookup_alter_ne in Hi by done.
      apply Hall. by eapply list_elem_of_lookup_2.
Qed.

Lemma cell_set_cell_eq (g : Grid) (r c : nat) (v : Z) :
  wf_grid g → (r < ROWS)%nat → (c < COLS)%nat →
  cell (set_cell g r c v) r c = v.
Proof.
  intros Hwf Hr Hc. destruct (wf_lookup g r Hwf Hr) as (l & Hl & Hlen).
  unfold cell, set_cell. rewrite list_lookup_alter_eq, Hl. simpl.
  rewrite list_lookup_insert_eq by lia. done.
Qed.

Lemma cell_set_cell_ne (g : Grid) (r c r' c' : nat) (v : Z) :
  (r, c) ≠ (r', c') → cell (set_cell g r c v) r' c' = cell g r' c'.
Proof.
  intros Hne. unfold cell, set_cell.
  destruct (decide (r = r')) as [->|Hr].
  - rewrite list_lookup_alter_eq. destruct (g !! r') as [l|]; simpl; [|done].
    rewrite list_lookup_insert_ne; [done|congruence].
  - by rewrite list_lookup_alter_ne.
Qed.

Lemma grid_ext (g g' : Grid) :
  wf_grid g → wf_grid g' →
  (∀ r c, (r < ROWS)%nat → (c < COLS)%nat → cell g r c = cell g' r c) →
  g = g'.
Proof.
  intros Hwf Hwf' Hcell. apply list_eq. intros r.
  destruct (decide (r < ROWS)%nat) as [Hr|Hr].
  - destruct (wf_lookup g r Hwf Hr) as (l & Hl & Hlen).
    destruct (wf_lookup g' r Hwf' Hr) as (l' & Hl' & Hlen').
    rewrite Hl, Hl'. f_equal. apply list_eq. intros c.
    destruct (decide (c < COLS)%nat) as [Hc|Hc].
    + specialize (Hcell r c Hr Hc). unfold cell in Hcell.
      rewrite Hl, Hl' in Hcell. simpl in Hcell.
      destruct (lookup_lt_is_Some_2 l c) as [x Hx]; [lia|].
      destruct (lookup_lt_is_Some_2 l' c) as [x' Hx']; [lia|].
      rewrite Hx, Hx' in *. simpl in Hcell. congruence.
    + rewrite !lookup_ge_None_2 by lia. done.
  - destruct Hwf as [Hlen _], Hwf' as [Hlen' _].
    rewrite !lookup_ge_None_2 by lia. done.
Qed.

Lemma wf_swap (g : Grid) (r1 c1 r2 c2 : nat) :
  wf_grid g → wf_grid (swap g r1 c1 r2 c2).
Proof. intros. unfold swap. by do 2 apply wf_set_cell. Qed.

(** What [swap] leaves in each cell; when both positions coincide the
    second write restores the value. *)
Lemma cell_swap (g : Grid) (r1 c1 r2 c2 r c : nat) :
  wf_grid g → (r1 < ROWS)%nat → (c1 < COLS)%nat →
  (r2 < ROWS)%nat → (c2 < COLS)%nat →
  cell (swap g r1 c1 r2 c2) r c =
    if decide ((r, c) = (r2, c2)) then cell g r1 c1
    else if decide ((r, c) = (r1, c1)) then cell g r2 c2
    else cell g r c.
Proof.
  intros Hwf H1 H2 H3 H4. unfold swap.
  destruct (decide ((r, c) = (r2, c2))) as [E|E].
  - simplify_eq. rewrite cell_set_cell_eq; auto using wf_set_cell.
  - rewrite cell_set_cell_ne by congruence.
    destruct (decide ((r, c) = (r1, c1))) as [E1|E1].
    + simplify_eq. by rewrite cell_set_cell_eq.
    + by rewrite cell_set_cell_ne by congruence.
Qed.

(** Swapping the same two cells twice restores the board. *)
Lemma swap_swap (g : Grid) (r1 c1 r2 c2 : nat) :
  wf_grid g → (r1 < ROWS)%nat → (c1 < COLS)%nat →
  (r2 < ROWS)%nat → (c2 < COLS)%nat →
  swap (swap g r1 c1 r2 c2) r1 c1 r2 c2 = g.
Proof.
  intros Hwf H1 H2 H3 H4.
  apply grid_ext; auto using wf_swap.
  intros r c Hr Hc.
  rewrite !cell_swap by auto using wf_swap.
  repeat case_decide; simplify_eq; done.
Qed.

(** ** Match detection *)

Lemma elem_of_set_add (p q : Pos) (l : list Pos) :
  q ∈ set_add p l ↔ q ∈ l ∨ q = p.
Proof.
  unfold set_add. case_bool_decide as H.
  - split; [auto|]. intros [?| ->]; done.
  - rewrite elem_of_app, list_elem_of_singleton. done.
Qed.

Lemma NoDup_set_add (p : Pos) (l : list Pos) : NoDup l → NoDup (set_add p l).
Proof.
  intros Hnd. unfold set_add. case_bool_decide as H; [done|].
  apply NoDup_app. split_and!; [done| |apply NoDup_singleton].
  intros x Hx Hx'. apply list_elem_of_singleton in Hx'. by subst.
Qed.

Section LineLemmas.
Variables (len : nat) (get : nat → Z) (mk : nat → Pos).

Lemma elem_of_add_l (n c : nat) (acc : list Pos) (q : Pos) :
  q ∈ add_l mk n c acc ↔ q ∈ acc ∨ ∃ j, (c ≤ j < c + n)%nat ∧ q = mk j.
Proof.
  revert c acc. induction n as [|n IH]; intros c acc; simpl.
  - split; [auto|]. intros [?|(j & ? & _)]; [done|lia].
  - rewrite IH, elem_of_set_add. split.
    + intros [[?| ->]|(j & ? & ->)]; [by left|right..].
      * exists c. split; [lia|done].
      * exists j. split; [lia|done].
    + intros [?|(j & ? & ->)]; [by left; left|].
      destruct (decide (j = c)) as [->|?]; [by left; right|].
      right. exists j. split; [lia|done].
Qed.

Lemma NoDup_add_l (n c : nat) (acc : list Pos) :
  NoDup acc → NoDup (add_l mk n c acc).
Proof.
  revert c acc. induction n as [|n IH]; intros c acc Hnd; simpl; [done|].
  by apply IH, NoDup_set_add.
Qed.

(** The [while] loop stops at the end of the run: [len] steps are
    enough for it to stop by its own test. *)
Lemma extend_l_spec (fuel : nat) (t : Z) (e : nat) :
  (len ≤ fuel + e)%nat → (e < len)%nat →
  let e' := extend_l len get fuel t e in
  (e ≤ e' < len)%nat
  ∧ (∀ j, (e < j ≤ e')%nat → get j = t)
  ∧ ((e' + 1 < len)%nat → get (e' + 1) ≠ t).
Proof.
  revert e. induction fuel as [|fuel IH]; intros e Hfuel He; simpl.
  - lia.
  - destruct (Nat.ltb_spec (e + 1) len) as [Hlt|Hge]; simpl.
    + destruct (Z.eqb_spec (get (e + 1)) t) as [Heq|Hne].
      * destruct (IH (e + 1)%nat) as (H1 & H2 & H3); [lia..|].
        split_and!; [lia|lia| |done].
        intros j Hj. destruct (decide (j = e + 1)%nat) as [->|?]; [done|].
        apply H2. lia.
      * split_and!; [lia|lia|intros; lia|done].
    + split_and!; [lia|lia|intros; lia|intros; lia].
Qed.

Lemma NoDup_scan_l (fuel col : nat) (acc : list Pos) :
  NoDup acc → NoDup (scan_l len get mk fuel col acc).
Proof.
  revert col acc. induction fuel as [|fuel IH]; intros col acc Hnd; simpl;
    [done|].
  repeat case_match; auto using NoDup_add_l.
Qed.

(** The scan adds exactly the cells from [col] on that lie in a window
    of three equal cells, provided no such window straddles [col]. *)
Lemma elem_of_scan_l (fuel col : nat) (acc : list Pos) (q : Pos) :
  (len ≤ fuel + col)%nat →
  (∀ i, (i < col)%nat → win len get i → (i + 2 < col)%nat) →
  q ∈ scan_l len get mk fuel col acc
  ↔ q ∈ acc ∨ ∃ j, (col ≤ j)%nat ∧ q = mk j ∧ cov len get j.
Proof.
  revert col acc. induction fuel as [|fuel IH]; intros col acc Hfuel Hinv;
    simpl.
  - split; [auto|]. intros [?|(j & Hj & _ & i & Hi & Hw)]; [done|].
    exfalso. destruct (decide (i < col)%nat) as [Hlt|Hge].
    + specialize (Hinv i Hlt Hw). lia.
    + destruct Hw as [? _]. lia.
  - destruct (Nat.ltb_spec col (len - 2)) as [Hlt|Hge].
    + destruct (Z.eqb_spec (get (col + 1)) (get col)) as [E1|E1]; simpl;
        [destruct (Z.eqb_spec (get (col + 2)) (get col)) as [E2|E2]|].
      * (* a run starts at [col] *)
        destruct (extend_l_spec len (get col) (col + 2))
          as (Hrange & Hrun & Hstop); [lia..|].
        set (e := extend_l len get len (get col) (col + 2)) in *.
        assert (Hall : ∀ j, (col ≤ j ≤ e)%nat → get j = get col).
        { intros j Hj.
          destruct (decide (j = col)) as [->|?]; [done|].
          destruct (decide (j = col + 1)%nat) as [->|?]; [done|].
          destruct (decide (j = col + 2)%nat) as [->|?]; [done|].
          apply Hrun. lia. }
        rewrite IH; [rewrite elem_of_add_l|lia|].
        -- split.
           ++ intros [[?|(j & Hj & ->)]|(j & Hj & -> & Hc)]; [by left|right..].
              ** exists j. split_and!; [lia|done|].
                 exists (if decide (j ≤ e - 2)%nat then j else (e - 2)%nat).
                 case_decide; (split; [lia|]); unfold win.
                 --- rewrite (Hall (j + 1)%nat), (Hall (j + 2)%nat), (Hall j)
                       by lia. split_and!; [lia|done..].
                 --- rewrite (Hall (e - 2 + 1)%nat), (Hall (e - 2 + 2)%nat),
                       (Hall (e - 2)%nat) by lia. split_and!; [lia|done..].
              ** exists j. split_and!; [lia|done..].
           ++ intros [?|(j & Hj & -> & Hc)]; [by left; left|].
              destruct (decide (j ≤ e)%nat).
              ** left; right. exists j. split; [lia|done].
              ** right. exists j. split_and!; [lia|done..].
        -- intros i Hi Hw.
           destruct (decide (i < col)%nat) as [Hic|Hic].
           { specialize (Hinv i Hic Hw). lia. }
           destruct (decide (i + 2 < e + 1)%nat) as [|Hover]; [done|].
           exfalso. destruct Hw as (Hw1 & Hw2 & Hw3).
           rewrite (Hall i) in Hw2, Hw3 by lia.
           apply Hstop; [lia|].
           destruct (decide (e + 1 = i + 1)%nat) as [->|?]; [done|].
           replace (e + 1)%nat with (i + 2)%nat by lia. done.
      * (* no run at [col]: third cell differs *)
        rewrite IH; [|lia|].
        -- split; (intros [?|(j & Hj & -> & Hc)]; [by left|right]).
           ++ exists j. split_and!; [lia|done..].
           ++ exists j. split_and!; [|done..].
              destruct (decide (j = col)) as [->|?]; [|lia].
              exfalso. destruct Hc as (i & Hi & Hw).
              destruct (decide (i < col)%nat) as [Hic|Hic].
              { specialize (Hinv i Hic Hw). lia. }
              assert (i = col) as -> by lia. destruct Hw as (_ & _ & ?). done.
        -- intros i Hi Hw. destruct (decide (i < col)%nat) as [Hic|Hic].
           { specialize (Hinv i Hic Hw). lia. }
           assert (i = col) as -> by lia. destruct Hw as (_ & _ & ?). done.
      * (* no run at [col]: second cell differs *)
        rewrite IH; [|lia|].
        -- split; (intros [?|(j & Hj & -> & Hc)]; [by left|right]).
           ++ exists j. split_and!; [lia|done..].
           ++ exists j. split_and!; [|done..].
              destruct (decide (j = col)) as [->|?]; [|lia].
              exfalso. destruct Hc as (i & Hi & Hw).
              destruct (decide (i < col)%nat) as [Hic|Hic].
              { specialize (Hinv i Hic Hw). lia. }
              assert (i = col) as -> by lia. destruct Hw as (_ & ? & _). done.
        -- intros i Hi Hw. destruct (decide (i < col)%nat) as [Hic|Hic].
           { specialize (Hinv i Hic Hw). lia. }
           assert (i = col) as -> by lia. destruct Hw as (_ & ? & _). done.
    + split; [auto|]. intros [?|(j & Hj & _ & i & Hi & Hw)]; [done|].
      exfalso. destruct (decide (i < col)%nat) as [Hic|Hic].
      * specialize (Hinv i Hic Hw). lia.
      * destruct Hw as [? _]. lia.
Qed.
(** Fuel: the bounds [len] given to the two loops are never what stops
    them, more fuel gives the same result. *)
Lemma extend_l_ge (fuel : nat) (t : Z) (e : nat) :
(e ≤ extend_l len get fuel t e)%nat.
Proof.
revert e. induction fuel as [|fuel IH]; intros e; simpl; [lia|].
destruct (_ && _); [|lia]. specialize (IH (e + 1)%nat). lia.
Qed.

Lemma extend_l_fuel (fuel : nat) (t : Z) (e : nat) :
(len ≤ fuel + e)%nat →
extend_l len get (S fuel) t e = extend_l len get fuel t e.
Proof.
revert e. induction fuel as [|fuel IH]; intros e Hfuel.
- simpl. destruct (Nat.ltb_spec (e + 1) len); [lia|done].
- change (extend_l len get (S (S fuel)) t e)
    with (if (e + 1 <? len)%nat && (get (e + 1) =? t)
          then extend_l len get (S fuel) t (e + 1) else e).
  change (extend_l len get (S fuel) t e)
    with (if (e + 1 <? len)%nat && (get (e + 1) =? t)
          then extend_l len get fuel t (e + 1) else e).
  destruct (_ && _); [|done]. apply IH. lia.
Qed.

Lemma scan_l_fuel (fuel col : nat) (acc : list Pos) :
(len ≤ fuel + col)%nat →
scan_l len get mk (S fuel) col acc = scan_l len get mk fuel col acc.
Proof.
revert col acc. induction fuel as [|fuel IH]; intros col acc Hfuel.
- simpl. destruct (Nat.ltb_spec col (len - 2)); [lia|done].
- change (scan_l len get mk (S (S fuel)) col acc)
    with (if (col <? len - 2)%nat then
            if (get (col + 1) =? get col) && (get (col + 2) =? get col)
            then scan_l len get mk (S fuel)
                   (extend_l len get len (get col) (col + 2) + 1)
                   (add_l mk (extend_l len get len (get col) (col + 2) + 1 - col)
                      col acc)
            else scan_l len get mk (S fuel) (col + 1) acc
          else acc).
  change (scan_l len get mk (S fuel) col acc)
    with (if (col <? len - 2)%nat then
            if (get (col + 1) =? get col) && (get (col + 2) =? get col)
            then scan_l len get mk fuel
                   (extend_l len get len (get col) (col + 2) + 1)
                   (add_l mk (extend_l len get len (get col) (col + 2) + 1 - col)
                      col acc)
            else scan_l len get mk fuel (col + 1) acc
          else acc).
  destruct (col <? len - 2)%nat; [|done].
  destruct (_ && _).
  + apply IH. pose proof (extend_l_ge len (get col) (col + 2)). lia.
  + apply IH. lia.
Qed.
End LineLemmas.

(** The two passes of [findAllMatches] are instances of the line scan. *)
Lemma extend_h_line (fuel : nat) (g : Grid) (row : nat) (t : Z) (e : nat) :
  extend_h fuel g row t e = extend_l COLS (cell g row) fuel t e.
Proof. revert e. induction fuel as [|fuel IH]; intros e; simpl; [done|].
  by rewrite IH. Qed.

Lemma add_h_line (n row c : nat) (acc : list Pos) :
  add_h n row c acc = add_l (λ c, (row, c)) n c acc.
Proof. revert c acc. induction n as [|n IH]; intros c acc; simpl; [done|].
  by rewrite IH. Qed.

Lemma scan_h_line (fuel : nat) (g : Grid) (row col : nat) (acc : list Pos) :
  scan_h fuel g row col acc
  = scan_l COLS (cell g row) (λ c, (row, c)) fuel col acc.
Proof.
  revert col acc. induction fuel as [|fuel IH]; intros col acc; simpl; [done|].
  by rewrite !IH, extend_h_line, add_h_line.
Qed.

Lemma extend_v_line (fuel : nat) (g : Grid) (col : nat) (t : Z) (e : nat) :
  extend_v fuel g col t e = extend_l ROWS (λ r, cell g r col) fuel t e.
Proof. revert e. induction fuel as [|fuel IH]; intros e; simpl; [done|].
  by rewrite IH. Qed.

Lemma add_v_line (n r col : nat) (acc : list Pos) :
  add_v n r col acc = add_l (λ r, (r, col)) n r acc.
Proof. revert r acc. induction n as [|n IH]; intros r acc; simpl; [done|].
  by rewrite IH. Qed.

Lemma scan_v_line (fuel : nat) (g : Grid) (col row : nat) (acc : list Pos) :
  scan_v fuel g col row acc
  = scan_l ROWS (λ r, cell g r col) (λ r, (r, col)) fuel row acc.
Proof.
  revert row acc. induction fuel as [|fuel IH]; intros row acc; simpl; [done|].
  by rewrite !IH, extend_v_line, add_v_line.
Qed.

(** No row or column scan of [findAllMatches] runs out of fuel. *)
Lemma scan_h_fuel (k : nat) (g : Grid) (row : nat) (acc : list Pos) :
  scan_h (COLS + k) g row 0 acc = scan_h COLS g row 0 acc.
Proof.
  induction k as [|k IH]; [by rewrite Nat.add_0_r|].
  rewrite <- IH, Nat.add_succ_r, !scan_h_line. apply scan_l_fuel. lia.
Qed.

Lemma scan_v_fuel (k : nat) (g : Grid) (col : nat) (acc : list Pos) :
  scan_v (ROWS + k) g col 0 acc = scan_v ROWS g col 0 acc.
Proof.
  induction k as [|k IH]; [by rewrite Nat.add_0_r|].
  rewrite <- IH, Nat.add_succ_r, !scan_v_line. apply scan_l_fuel. lia.
Qed.

Lemma extend_h_fuel (k : nat) (g : Grid) (row : nat) (t : Z) (e : nat) :
  extend_h (COLS + k) g row t e = extend_h COLS g row t e.
Proof.
  induction k as [|k IH]; [by rewrite Nat.add_0_r|].
  rewrite <- IH, Nat.add_succ_r, !extend_h_line. apply extend_l_fuel. lia.
Qed.

Lemma extend_v_fuel (k : nat) (g : Grid) (col : nat) (t : Z) (e : nat) :
  extend_v (ROWS + k) g col t e = extend_v ROWS g col t e.
Proof.
  induction k as [|k IH]; [by rewrite Nat.add_0_r|].
  rewrite <- IH, Nat.add_succ_r, !extend_v_line. apply extend_l_fuel. lia.
Qed.

Lemma elem_of_rows_h (n : nat) (g : Grid) (row : nat) (acc : list Pos)
    (q : Pos) :
  q ∈ rows_h n g row acc
  ↔ q ∈ acc ∨ ∃ r c, (row ≤ r < row + n)%nat ∧ q = (r, c)
                     ∧ ∃ i, (i ≤ c ≤ i + 2)%nat ∧ hwin g r i.
Proof.
  revert row acc. induction n as [|n IH]; intros row acc; simpl.
  - split; [auto|]. intros [?|(r & c & ? & _)]; [done|lia].
  - rewrite IH, scan_h_line, elem_of_scan_l; [|lia|intros; lia].
    split.
    + intros [[?|(j & _ & -> & Hc)]|(r & c & Hr & -> & Hc)]; [by left|right..].
      * exists row, j. (split; [lia|]; split; [done|]; exact Hc).
      * exists r, c. (split; [lia|]; split; [done|]; exact Hc).
    + intros [?|(r & c & Hr & -> & Hc)]; [by left; left|].
      destruct (decide (r = row)) as [->|?].
      * left; right. exists c. (split; [lia|]; split; [done|]; exact Hc).
      * right. exists r, c. (split; [lia|]; split; [done|]; exact Hc).
Qed.

Lemma elem_of_cols_v (n : nat) (g : Grid) (col : nat) (acc : list Pos)
    (q : Pos) :
  q ∈ cols_v n g col acc
  ↔ q ∈ acc ∨ ∃ r c, (col ≤ c < col + n)%nat ∧ q = (r, c)
                     ∧ ∃ i, (i ≤ r ≤ i + 2)%nat ∧ vwin g i c.
Proof.
  revert col acc. induction n as [|n IH]; intros col acc; simpl.
  - split; [auto|]. intros [?|(r & c & ? & _)]; [done|lia].
  - rewrite IH, scan_v_line, elem_of_scan_l; [|lia|intros; lia].
    split.
    + intros [[?|(j & _ & -> & Hc)]|(r & c & Hr & -> & Hc)]; [by left|right..].
      * exists j, col. (split; [lia|]; split; [done|]; exact Hc).
      * exists r, c. (split; [lia|]; split; [done|]; exact Hc).
    + intros [?|(r & c & Hr & -> & Hc)]; [by left; left|].
      destruct (decide (c = col)) as [->|?].
      * left; right. exists r. (split; [lia|]; split; [done|]; exact Hc).
      * right. exists r, c. (split; [lia|]; split; [done|]; exact Hc).
Qed.

(** The match set is exactly the set of cells that lie in a run of three
    or more equal cells, whatever the common value is. *)
Lemma elem_of_findAllMatches (g : Grid) (r c : nat) :
  (r, c) ∈ findAllMatches g ↔ in_run g r c.
Proof.
  unfold findAllMatches, in_run.
  rewrite elem_of_cols_v, elem_of_rows_h. split.
  - intros [[Hnil|(r' & c' & Hr & Heq & Hc)]|(r' & c' & Hr & Heq & Hc)].
    + by apply elem_of_nil in Hnil.
    + simplify_eq. left. split; [lia|done].
    + simplify_eq. right. split; [lia|done].
  - intros [[Hr Hc]|[Hr Hc]].
    + left; right. exists r, c. (split; [lia|]; split; [done|]; exact Hc).
    + right. exists r, c. (split; [lia|]; split; [done|]; exact Hc).
Qed.

Lemma NoDup_findAllMatches (g : Grid) : NoDup (findAllMatches g).
Proof.
  unfold findAllMatches.
  assert (Hrows : ∀ n row acc, NoDup acc → NoDup (rows_h n g row acc)).
  { induction n as [|n IH]; intros row acc Hnd; simpl; [done|].
    apply IH. rewrite scan_h_line. by apply NoDup_scan_l. }
  assert (Hcols : ∀ n col acc, NoDup acc → NoDup (cols_v n g col acc)).
  { induction n as [|n IH]; intros col acc Hnd; simpl; [done|].
    apply IH. rewrite scan_v_line. by apply NoDup_scan_l. }
  apply Hcols, Hrows, NoDup_nil_2.
Qed.

Lemma findAllMatches_in_range (g : Grid) (r c : nat) :
  (r, c) ∈ findAllMatches g → (r < ROWS)%nat ∧ (c < COLS)%nat.
Proof.
  rewrite elem_of_findAllMatches.
  intros [[Hr (i & Hi & Hw & _)]|[Hc (i & Hi & Hw & _)]]; lia.
Qed.

(** An empty match set means that no three equal cells stand side by
    side in any row or column. *)
Lemma findAllMatches_nil (g : Grid) :
  findAllMatches g = [] ↔
  (∀ r i, (r < ROWS)%nat → ¬ hwin g r i) ∧ (∀ i c, (c < COLS)%nat → ¬ vwin g i c).
Proof.
  split.
  - intros Hnil. split.
    + intros r i Hr Hw.
      assert (H : (r, i) ∈ findAllMatches g).
      { apply elem_of_findAllMatches. left. split; [done|].
        exists i. split; [lia|done]. }
      rewrite Hnil in H. by apply elem_of_nil in H.
    + intros i c Hc Hw.
      assert (H : (i, c) ∈ findAllMatches g).
      { apply elem_of_findAllMatches. right. split; [done|].
        exists i. split; [lia|done]. }
      rewrite Hnil in H. by apply elem_of_nil in H.
  - intros [Hh Hv]. destruct (findAllMatches g) as [|[r c] l] eqn:E; [done|].
    exfalso.
    assert (H : (r, c) ∈ findAllMatches g) by (rewrite E; left).
    apply elem_of_findAllMatches in H as [[Hr (i & _ & Hw)]|[Hc (i & _ & Hw)]].
    + by apply (Hh r i).
    + by apply (Hv i c).
Qed.

(** ** Gravity *)

Lemma lookup_column (g : Grid) (c r : nat) :
  column g c !! r = (λ row, default 0 (row !! c)) <$> g !! r.
Proof. unfold column. by rewrite list_lookup_fmap. Qed.

Lemma cell_column (g : Grid) (r c : nat) :
  cell g r c = default 0 (column g c !! r).
Proof.
  unfold cell. rewrite lookup_column. by destruct (g !! r).
Qed.

Lemma length_column (g : Grid) (c : nat) : length (column g c) = length g.
Proof. unfold column. by rewrite length_fmap. Qed.

Lemma column_set_cell_eq (g : Grid) (r c : nat) (v : Z) :
  wf_grid g → (c < COLS)%nat →
  column (set_cell g r c v) c = <[r := v]> (column g c).
Proof.
  intros Hwf Hc. apply list_eq. intros i.
  rewrite lookup_column. unfold set_cell.
  destruct (decide (r = i)) as [->|Hne].
  - rewrite list_lookup_alter_eq.
    destruct (decide (i < ROWS)%nat) as [Hi|Hi].
    + destruct (wf_lookup g i Hwf Hi) as (l & Hl & Hlen).
      rewrite Hl. simpl. rewrite list_lookup_insert_eq by lia.
      rewrite list_lookup_insert_eq; [done|].
      rewrite length_column. destruct Hwf. lia.
    + destruct Hwf as [Hlen _].
      rewrite (lookup_ge_None_2 g) by lia. simpl.
      rewrite lookup_ge_None_2; [done|].
      rewrite length_insert, length_column. lia.
  - rewrite list_lookup_alter_ne, list_lookup_insert_ne by done.
    by rewrite lookup_column.
Qed.

Lemma column_set_cell_ne (g : Grid) (r c c' : nat) (v : Z) :
  c ≠ c' → column (set_cell g r c v) c' = column g c'.
Proof.
  intros Hne. apply list_eq. intros i.
  rewrite !lookup_column. unfold set_cell.
  destruct (decide (r = i)) as [->|Hr].
  - rewrite list_lookup_alter_eq. destruct (g !! i) as [l|]; simpl; [|done].
    by rewrite list_lookup_insert_ne.
  - by rewrite list_lookup_alter_ne.
Qed.

(** On the column it works on, [gravity_rows] is [gravity_list]; it keeps
    the shape of the board and every other column. *)
Lemma gravity_rows_column (n col : nat) (e : Z) (g : Grid) :
  wf_grid g → (col < COLS)%nat →
  wf_grid (gravity_rows n col e g)
  ∧ column (gravity_rows n col e g) col = gravity_list n e (column g col)
  ∧ ∀ c', c' ≠ col → column (gravity_rows n col e g) c' = column g c'.
Proof.
  revert e g. induction n as [|row IH]; intros e g Hwf Hc; simpl; [done|].
  rewrite <- cell_column.
  destruct (cell g row col =? EMPTY); simpl; [by apply IH|].
  destruct (Z.of_nat row =? e); simpl; [by apply IH|].
  set (g2 := set_cell (set_cell g (Z.to_nat e) col (cell g row col)) row col
                      EMPTY).
  assert (Hwf2 : wf_grid g2) by (by do 2 apply wf_set_cell).
  destruct (IH (e - 1) g2 Hwf2 Hc) as (H1 & H2 & H3).
  split_and!; [done| |].
  - rewrite H2. unfold g2.
    rewrite !column_set_cell_eq by auto using wf_set_cell. done.
  - intros c' Hc'. rewrite H3 by done. unfold g2.
    by rewrite !column_set_cell_ne by done.
Qed.

Lemma length_filter_split (l : list Z) :
  (length (filter (λ v, v = EMPTY) l) + length (filter (λ v, v ≠ EMPTY) l)
   = length l)%nat.
Proof.
  induction l as [|x l IH]; [done|].
  rewrite !filter_cons. destruct (decide (x = EMPTY)); simpl.
  - rewrite decide_False by auto. lia.
  - rewrite decide_True by auto. simpl. lia.
Qed.

(** A gem at the head of a block of [m] empty cells falls to its end. *)
Lemma fall_step (A F : list Z) (x : Z) (m : nat) :
  (0 < m)%nat →
  <[length A := EMPTY]>
    (<[(length A + m)%nat := x]> (A ++ x :: replicate m EMPTY ++ F))
  = A ++ replicate m EMPTY ++ x :: F.
Proof.
  intros Hm. destruct m as [|m]; [lia|].
  rewrite (insert_app_r_alt A) by lia.
  replace (length A + S m - length A)%nat with (S m) by lia.
  change (<[S m := x]> (x :: replicate (S m) EMPTY ++ F))
    with (x :: <[m := x]> (replicate (S m) EMPTY ++ F)).
  rewrite replicate_S_end, <- app_assoc.
  rewrite (insert_app_r_alt (replicate m EMPTY)) by (rewrite length_replicate; lia).
  rewrite length_replicate, Nat.sub_diag. simpl.
  rewrite (insert_app_r_alt A) by lia.
  rewrite Nat.sub_diag. simpl.
  by rewrite <- replicate_S_end.
Qed.

(** The loop invariant of one column: the rows not yet visited are as
    they were, the rows visited hold the empty cells first and then the
    gems in their former order, and [emptyRow] is the last empty row. *)
Lemma gravity_list_inv (n : nat) (l0 : list Z) :
  (n ≤ length l0)%nat →
  let F := filter (λ v, v ≠ EMPTY) (drop n l0) in
  gravity_list n (Z.of_nat (length l0) - 1 - Z.of_nat (length F))
    (take n l0 ++ replicate (length l0 - n - length F) EMPTY ++ F)
  = compact l0.
Proof.
  induction n as [|row IH]; intros Hn; simpl.
  - rewrite drop_0. unfold compact. f_equal. f_equal.
    pose proof (length_filter_split l0). lia.
  - destruct (lookup_lt_is_Some_2 l0 row) as [x Hx]; [lia|].
    pose proof (length_filter_split (drop (S row) l0)) as Hsplit.
    rewrite length_drop in Hsplit.
    set (F := filter (λ v, v ≠ EMPTY) (drop (S row) l0)) in *.
    set (m := (length l0 - S row - length F)%nat).
    rewrite (take_S_r _ _ _ Hx), <- app_assoc. simpl.
    assert (Hlen : length (take row l0) = row) by (rewrite length_take; lia).
    rewrite lookup_app_r by lia. rewrite Hlen, Nat.sub_diag. simpl.
    specialize (IH ltac:(lia)). simpl in IH.
    rewrite (drop_S _ _ _ Hx), filter_cons in IH.
    fold F in IH.
    destruct (Z.eqb_spec x EMPTY) as [->|Hne]; simpl.
    + rewrite decide_False in IH by auto.
      rewrite <- IH. f_equal. f_equal.
      change (EMPTY :: replicate m EMPTY ++ F)
        with (replicate (S m) EMPTY ++ F).
      f_equal. f_equal. unfold m. lia.
    + rewrite decide_True in IH by auto. simpl in IH.
      destruct (Z.eqb_spec (Z.of_nat row)
                  (Z.of_nat (length l0) - 1 - Z.of_nat (length F))) as [E|E];
        simpl.
      * rewrite <- IH. f_equal; [lia|]. f_equal.
        assert (m = 0)%nat as -> by (unfold m; lia). simpl.
        replace (length l0 - row - S (length F))%nat with 0%nat by lia. done.
      * rewrite <- IH. f_equal; [lia|].
        replace (Z.to_nat (Z.of_nat (length l0) - 1 - Z.of_nat (length F)))
          with (length (take row l0) + m)%nat by (unfold m; lia).
        rewrite <- Hlen at 1.
        rewrite fall_step by (unfold m; lia).
        do 3 f_equal. unfold m. lia.
Qed.

Lemma gravity_list_compact (l : list Z) :
  gravity_list (length l) (Z.of_nat (length l) - 1) l = compact l.
Proof.
  pose proof (gravity_list_inv (length l) l (le_n _)) as H. simpl in H.
  rewrite drop_all, firstn_all in H. simpl in H.
  rewrite Nat.sub_diag, Z.sub_0_r in H. simpl in H.
  rewrite filter_nil, app_nil_r in H. exact H.
Qed.

Lemma gravity_col_column (g : Grid) (c : nat) :
  wf_grid g → (c < COLS)%nat →
  wf_grid (gravity_col c g)
  ∧ column (gravity_col c g) c = compact (column g c)
  ∧ ∀ c', c' ≠ c → column (gravity_col c g) c' = column g c'.
Proof.
  intros Hwf Hc. unfold gravity_col.
  destruct (gravity_rows_column ROWS c (Z.of_nat ROWS - 1) g Hwf Hc)
    as (H1 & H2 & H3).
  split_and!; [done| |done].
  rewrite H2, <- gravity_list_compact, length_column.
  destruct Hwf as [-> _]. done.
Qed.

Lemma gravity_cols_column (n c0 : nat) (g : Grid) (c : nat) :
  wf_grid g → (c0 + n ≤ COLS)%nat →
  wf_grid (gravity_cols n c0 g)
  ∧ column (gravity_cols n c0 g) c
    = if decide (c0 ≤ c < c0 + n)%nat then compact (column g c)
      else column g c.
Proof.
  revert c0 g. induction n as [|n IH]; intros c0 g Hwf Hn; simpl.
  - split; [done|]. by rewrite decide_False by lia.
  - destruct (gravity_col_column g c0 Hwf) as (H1 & H2 & H3); [lia|].
    destruct (IH (c0 + 1)%nat (gravity_col c0 g) H1) as [H4 H5]; [lia|].
    split; [done|]. rewrite H5.
    destruct (decide (c = c0)) as [->|Hne].
    + rewrite decide_False, decide_True by lia. done.
    + rewrite H3 by done. repeat case_decide; try done; lia.
Qed.

Lemma wf_applyGravity (g : Grid) : wf_grid g → wf_grid (applyGravity g).
Proof.
  intros Hwf. unfold applyGravity.
  by destruct (gravity_cols_column COLS 0 g 0 Hwf).
Qed.

Lemma column_applyGravity (g : Grid) (c : nat) :
  wf_grid g → (c < COLS)%nat →
  column (applyGravity g) c = compact (column g c).
Proof.
  intros Hwf Hc. unfold applyGravity.
  destruct (gravity_cols_column COLS 0 g c Hwf) as [_ ->]; [lia|].
  by rewrite decide_True by lia.
Qed.

Lemma filter_empty_replicate (l : list Z) :
  filter (λ v, v = EMPTY) l
  = replicate (length (filter (λ v, v = EMPTY) l)) EMPTY.
Proof.
  induction l as [|x l IH]; [done|].
  rewrite filter_cons. destruct (decide (x = EMPTY)) as [->|]; [|done].
  simpl. by rewrite <- IH.
Qed.

Lemma compact_Permutation (l : list Z) : compact l ≡ₚ l.
Proof.
  unfold compact. rewrite <- filter_empty_replicate.
  apply (filter_app_complement (λ v, v = EMPTY)).
Qed.

Lemma filter_gems_compact (l : list Z) :
  filter (λ v, v ≠ EMPTY) (compact l) = filter (λ v, v ≠ EMPTY) l.
Proof.
  unfold compact. rewrite filter_app.
  assert (H : ∀ n, filter (λ v, v ≠ EMPTY) (replicate n EMPTY) = []).
  { induction n as [|n IH]; [done|]. simpl.
    rewrite filter_cons, decide_False by auto. done. }
  rewrite H. simpl.
  rewrite list_filter_filter. apply list_filter_iff. tauto.
Qed.

(** The cells of a compacted column: empty above row [k], gems from row
    [k] on, where [k] is the number of empty cells of the column. *)
Lemma lookup_compact (l : list Z) (r : nat) :
  (r < length l)%nat →
  let k := length (filter (λ v, v = EMPTY) l) in
  ((r < k)%nat → compact l !! r = Some EMPTY)
  ∧ ((k ≤ r)%nat → ∃ v, compact l !! r = Some v ∧ v ≠ EMPTY).
Proof.
  intros Hr k. unfold compact. fold k. split; intros Hk.
  - rewrite lookup_app_l by (rewrite length_replicate; lia).
    apply lookup_replicate_2. lia.
  - rewrite lookup_app_r by (rewrite length_replicate; lia).
    rewrite length_replicate.
    pose proof (length_filter_split l) as Hsplit. fold k in Hsplit.
    destruct (lookup_lt_is_Some_2 (filter (λ v, v ≠ EMPTY) l) (r - k))
      as [v Hv]; [lia|].
    exists v. split; [done|].
    apply list_elem_of_lookup_2, list_elem_of_filter in Hv. tauto.
Qed.

(** ** Removal and refill *)

Lemma wf_removeMatches (ms : list Pos) (g : Grid) :
  wf_grid g → wf_grid (removeMatches ms g).
Proof.
  revert g. induction ms as [|[r c] ms IH]; intros g Hwf; simpl; [done|].
  by apply IH, wf_set_cell.
Qed.

Lemma random_int_not_empty (rnd : nat → nat) (k n : nat) :
  Z.of_nat (random_int rnd k n) ≠ EMPTY.
Proof. unfold EMPTY. lia. Qed.

(** One column of the refill: the rows visited end up with a gem, and a
    cell that held a gem keeps it. *)
Lemma fill_rows_spec (n : nat) (rnd : nat → nat) (col row : nat) (g : Grid)
    (seed : nat) :
  wf_grid g → (col < COLS)%nat → (row + n ≤ ROWS)%nat →
  let g' := (fill_rows n rnd col row g seed).1 in
  wf_grid g'
  ∧ (∀ r, (row ≤ r < row + n)%nat → cell g' r col ≠ EMPTY)
  ∧ (∀ r c, cell g r c ≠ EMPTY → cell g' r c = cell g r c).
Proof.
  revert row g seed. induction n as [|n IH]; intros row g seed Hwf Hc Hn; simpl.
  - split_and!; [done|intros; lia|done].
  - destruct (Z.eqb_spec (cell g row col) EMPTY) as [E|E].
    + set (v := Z.of_nat (random_int rnd seed NUM_GEM_TYPES)).
      assert (Hv : cell (set_cell g row col v) row col = v)
        by (apply cell_set_cell_eq; [done|lia..]).
      destruct (IH (row + 1)%nat (set_cell g row col v) (S seed))
        as (H1 & H2 & H3); [by apply wf_set_cell|done|lia|].
      split_and!; [done| |].
      * intros r Hr. destruct (decide (r = row)) as [->|?].
        -- rewrite H3; rewrite Hv; apply random_int_not_empty.
        -- apply H2. lia.
      * intros r c Hrc. rewrite H3.
        -- apply cell_set_cell_ne. congruence.
        -- rewrite cell_set_cell_ne; [done|congruence].
    + destruct (IH (row + 1)%nat g seed) as (H1 & H2 & H3); [done|done|lia|].
      split_and!; [done| |done].
      intros r Hr. destruct (decide (r = row)) as [->|?].
      * by rewrite H3.
      * apply H2. lia.
Qed.

Lemma fill_cols_spec (n : nat) (rnd : nat → nat) (col : nat) (g : Grid)
    (seed : nat) :
  wf_grid g → (col + n ≤ COLS)%nat →
  let g' := (fill_cols n rnd col g seed).1 in
  wf_grid g'
  ∧ (∀ r c, (r < ROWS)%nat → (col ≤ c < col + n)%nat → cell g' r c ≠ EMPTY)
  ∧ (∀ r c, cell g r c ≠ EMPTY → cell g' r c = cell g r c).
Proof.
  revert col g seed. induction n as [|n IH]; intros col g seed Hwf Hn; simpl.
  - split_and!; [done|intros; lia|done].
  - destruct (fill_rows_spec ROWS rnd col 0 g seed) as (H1 & H2 & H3);
      [done|lia|lia|].
    destruct (fill_rows ROWS rnd col 0 g seed) as [g1 seed1]. simpl in *.
    destruct (IH (col + 1)%nat g1 seed1) as (H4 & H5 & H6); [done|lia|].
    split_and!; [done| |].
    + intros r c Hr Hc. destruct (decide (c = col)) as [->|?].
      * rewrite H6; apply H2; lia.
      * apply H5; lia.
    + intros r c Hrc. rewrite H6; [by apply H3|]. by rewrite H3.
Qed.

(** After the refill no cell is empty, and the gems already on the board
    have not moved. *)
Lemma fillEmptySpaces_spec (rnd : nat → nat) (g : Grid) (seed : nat) :
  wf_grid g →
  let g' := (fillEmptySpaces rnd g seed).1 in
  wf_grid g' ∧ no_empty g'
  ∧ (∀ r c, cell g r c ≠ EMPTY → cell g' r c = cell g r c).
Proof.
  intros Hwf. unfold fillEmptySpaces.
  destruct (fill_cols_spec COLS rnd 0 g seed) as (H1 & H2 & H3); [done|lia|].
  split_and!; [done| |done].
  intros r c Hr Hc. apply H2; lia.
Qed.

(** ** Move oracle *)

(** A tentative swap of two cells of the board leaves the board as it
    was. *)
Lemma tentative_restores (g : Grid) (r1 c1 r2 c2 : nat) :
  wf_grid g → (r1 < ROWS)%nat → (c1 < COLS)%nat →
  (r2 < ROWS)%nat → (c2 < COLS)%nat →
  tentative g r1 c1 r2 c2 = (gives_match g (mkMove r1 c1 r2 c2), g).
Proof.
  intros. unfold tentative, gives_match. simpl. by rewrite swap_swap.
Qed.

#[local] Arguments tentative : simpl never.

Lemma find_app {A} (f : A → bool) (l1 l2 : list A) :
  List.find f (l1 ++ l2)
  = match List.find f l1 with Some x => Some x | None => List.find f l2 end.
Proof.
  induction l1 as [|x l1 IH]; simpl; [done|]. by destruct (f x).
Qed.

Lemma findValidMove_cols_spec (n row col : nat) (g : Grid) :
  wf_grid g → (row < ROWS)%nat → (col + n ≤ COLS)%nat →
  findValidMove_cols n row col g
  = (List.find (gives_match g) (flat_map (cell_candidates row) (seq col n)), g).
Proof.
  revert col. induction n as [|n IH]; intros col Hwf Hr Hn; simpl; [done|].
  rewrite find_app. unfold cell_candidates at 1. rewrite find_app.
  destruct (Nat.ltb_spec col (COLS - 1)) as [Hc|Hc]; cbn [find].
  - rewrite tentative_restores by (done || lia). cbn [find].
    destruct (gives_match g (mkMove row col row (col + 1))); [done|].
    destruct (Nat.ltb_spec row (ROWS - 1)) as [Hr'|Hr']; cbn [find].
    + rewrite tentative_restores by (done || lia). cbn [find].
      destruct (gives_match g (mkMove row col (row + 1) col)); [done|].
      rewrite IH by (done || lia). by rewrite Nat.add_1_r.
    + rewrite IH by (done || lia). by rewrite Nat.add_1_r.
  - destruct (Nat.ltb_spec row (ROWS - 1)) as [Hr'|Hr']; cbn [find].
    + rewrite tentative_restores by (done || lia). cbn [find].
      destruct (gives_match g (mkMove row col (row + 1) col)); [done|].
      rewrite IH by (done || lia). by rewrite Nat.add_1_r.
    + rewrite IH by (done || lia). by rewrite Nat.add_1_r.
Qed.

Lemma findValidMove_rows_spec (n row : nat) (g : Grid) :
  wf_grid g → (row + n ≤ ROWS)%nat →
  findValidMove_rows n row g
  = (List.find (gives_match g)
       (flat_map (λ row, flat_map (cell_candidates row) (seq 0 COLS))
                 (seq row n)), g).
Proof.
  revert row. induction n as [|n IH]; intros row Hwf Hn; simpl; [done|].
  rewrite find_app, findValidMove_cols_spec by (done || lia).
  destruct (List.find _ (flat_map (cell_candidates row) _)); [done|].
  rewrite IH by (done || lia). by rewrite Nat.add_1_r.
Qed.

(** [hasValidMoves] takes the same steps as [findValidMove] and answers
    whether a move was found. *)
Lemma hasValidMoves_cols_find (n row col : nat) (g : Grid) :
  hasValidMoves_cols n row col g
  = (match (findValidMove_cols n row col g).1 with
     | Some _ => true | None => false end,
     (findValidMove_cols n row col g).2).
Proof.
  revert col g. induction n as [|n IH]; intros col g; simpl; [done|].
  destruct (if (col <? COLS - 1)%nat then _ else _) as [[] g1]; [done|].
  destruct (if (row <? ROWS - 1)%nat then _ else _) as [[] g2]; [done|].
  apply IH.
Qed.

Lemma hasValidMoves_rows_find (n row : nat) (g : Grid) :
  hasValidMoves_rows n row g
  = (match (findValidMove_rows n row g).1 with
     | Some _ => true | None => false end,
     (findValidMove_rows n row g).2).
Proof.
  revert row g. induction n as [|n IH]; intros row g; simpl; [done|].
  rewrite hasValidMoves_cols_find.
  destruct (findValidMove_cols COLS row 0 g) as [[m|] g1]; simpl; [done|].
  apply IH.
Qed.

Lemma findValidMove_spec (g : Grid) :
  wf_grid g → findValidMove g = (List.find (gives_match g) candidates, g).
Proof. intros Hwf. by apply findValidMove_rows_spec. Qed.

Lemma hasValidMoves_spec (g : Grid) :
  wf_grid g →
  hasValidMoves g = (existsb (gives_match g) candidates, g).
Proof.
  intros Hwf. unfold hasValidMoves.
  rewrite hasValidMoves_rows_find.
  change (findValidMove_rows ROWS 0 g) with (findValidMove g).
  rewrite findValidMove_spec by done. simpl. f_equal.
  induction candidates as [|m l IH]; simpl; [done|].
  by destruct (gives_match g m).
Qed.

(** The result of [find] is the first element that passes the test. *)
Lemma find_first {A} (f : A → bool) (l : list A) (x : A) :
  List.find f l = Some x →
  ∃ before after, l = before ++ x :: after ∧ f x = true
                  ∧ Forall (λ y, f y = false) before.
Proof.
  induction l as [|y l IH]; simpl; [done|].
  destruct (f y) eqn:E.
  - intros [= ->]. exists [], l. by split_and!.
  - intros H. destruct (IH H) as (b & a & -> & Hx & Hb).
    exists (y :: b), a. split_and!; [done..|]. by constructor.
Qed.

(** ** The cascade loop *)

Lemma collectGems_total (ms : list Pos) (g : Grid) (gc : gmap Z Z) (total : Z) :
  (collectGems ms g gc total).2 = total + Z.of_nat (length ms).
Proof.
  revert gc total. induction ms as [|[r c] ms IH]; intros gc total; simpl.
  - lia.
  - rewrite IH. lia.
Qed.

(** What one pass through the loop body does to each variable other than
    the board and the per-kind counters. *)
Lemma cascadeStep_fields (rnd : nat → nat) (n : Z) (ms : list Pos) (st : State) :
  let st' := cascadeStep rnd n ms st in
  score st' = score st + Z.of_nat (length ms) * POINTS_PER_GEM * n
  ∧ totalGemsCollected st' = totalGemsCollected st + Z.of_nat (length ms)
  ∧ movesLeft st' = movesLeft st
  ∧ timers st' = timers st
  ∧ currentLevel st' = currentLevel st
  ∧ selectedGem st' = selectedGem st
  ∧ isProcessing st' = isProcessing st.
Proof.
  unfold cascadeStep.
  pose proof (collectGems_total ms (grid st) (gemsCollected st)
                (totalGemsCollected st)) as Htotal.
  destruct (collectGems _ _ _ _) as [gc total]. simpl in Htotal.
  destruct (1 <? n); simpl;
    destruct (fillEmptySpaces _ _ _) as [g3 seed']; simpl; by split_and!.
Qed.

(** One pass leaves a board of the right shape without empty cells. *)
Lemma cascadeStep_grid (rnd : nat → nat) (n : Z) (ms : list Pos) (st : State) :
  wf_grid (grid st) →
  wf_grid (grid (cascadeStep rnd n ms st))
  ∧ no_empty (grid (cascadeStep rnd n ms st)).
Proof.
  intros Hwf. unfold cascadeStep.
  destruct (collectGems _ _ _ _) as [gc total].
  set (g2 := applyGravity (removeMatches ms (grid _))).
  assert (Hwf2 : wf_grid g2).
  { apply wf_applyGravity, wf_removeMatches. by destruct (1 <? n). }
  match goal with |- context [fillEmptySpaces rnd g2 ?s] =>
    destruct (fillEmptySpaces_spec rnd g2 s Hwf2) as (H1 & H2 & _);
    destruct (fillEmptySpaces rnd g2 s) as [g3 seed'] end.
  simpl in *. done.
Qed.

(** The move budget is not read by the loop body: changing it before the
    pass or after it gives the same state. *)
Lemma cascadeStep_set_movesLeft (rnd : nat → nat) (n : Z) (ms : list Pos)
    (m : Z) (st : State) :
  cascadeStep rnd n ms (set_movesLeft m st)
  = set_movesLeft m (cascadeStep rnd n ms st).
Proof.
  unfold cascadeStep. simpl.
  destruct (collectGems _ _ _ _) as [gc total].
  destruct (1 <? n); simpl;
    destruct (fillEmptySpaces _ _ _) as [g3 seed']; done.
Qed.

Lemma cascadeLoop_set_movesLeft (fuel : nat) (rnd : nat → nat) (n : Z)
    (ms : list Pos) (m : Z) (st : State) :
  cascadeLoop fuel rnd n ms (set_movesLeft m st)
  = set_movesLeft m <$> cascadeLoop fuel rnd n ms st.
Proof.
  revert n ms st. induction fuel as [|fuel IH]; intros n ms st; simpl.
  - by destruct (0 <? length ms)%nat.
  - destruct (0 <? length ms)%nat; [|done].
    rewrite cascadeStep_set_movesLeft. apply IH.
Qed.

(** The loop changes neither the move budget nor the pending timers,
    and never lowers the score or the total of collected gems. *)
Lemma cascadeLoop_frame (fuel : nat) (rnd : nat → nat) (n : Z)
    (ms : list Pos) (st st' : State) :
  0 ≤ n →
  cascadeLoop fuel rnd n ms st = Some st' →
  movesLeft st' = movesLeft st ∧ timers st' = timers st
  ∧ currentLevel st' = currentLevel st
  ∧ selectedGem st' = selectedGem st
  ∧ isProcessing st' = isProcessing st
  ∧ score st + Z.of_nat (length ms) * POINTS_PER_GEM * (n + 1) ≤ score st'
  ∧ totalGemsCollected st + Z.of_nat (length ms) ≤ totalGemsCollected st'.
Proof.
  revert n ms st. induction fuel as [|fuel IH]; intros n ms st Hn; simpl.
  - destruct ms; simpl; [|done]. intros [= <-]. simpl.
    split_and!; try done; lia.
  - destruct ms as [|p ms]; simpl.
    { intros [= <-]. simpl. split_and!; try done; lia. }
    intros Hloop. apply IH in Hloop; [|lia].
    destruct (cascadeStep_fields rnd (n + 1) (p :: ms) st)
      as (E1 & E2 & E3 & E4 & E5 & E6 & E7).
    destruct Hloop as (F1 & F2 & F3 & F4 & F5 & F6 & F7).
    rewrite E1 in F6. rewrite E2 in F7.
    split_and!; try congruence.
    + unfold POINTS_PER_GEM in *.
      change (length (p :: ms)) with (S (length ms)) in F6.
      assert (0 ≤ Z.of_nat (length (findAllMatches
                (grid (cascadeStep rnd (n + 1) (p :: ms) st)))) * 10 *
                (n + 1 + 1)) by (apply Z.mul_nonneg_nonneg; lia).
      lia.
    + change (length (p :: ms)) with (S (length ms)) in F7. lia.
Qed.

(** A loop that returns leaves a board without empty cells and without
    matches, provided it went through its body at least once. *)
Lemma cascadeLoop_stable (fuel : nat) (rnd : nat → nat) (n : Z)
    (ms : list Pos) (st st' : State) :
  wf_grid (grid st) →
  ms ≠ [] ∨ (no_empty (grid st) ∧ findAllMatches (grid st) = []) →
  cascadeLoop fuel rnd n ms st = Some st' →
  wf_grid (grid st') ∧ no_empty (grid st') ∧ findAllMatches (grid st') = [].
Proof.
  revert n ms st. induction fuel as [|fuel IH]; intros n ms st Hwf Hpre; simpl.
  - destruct ms; simpl; [|done]. intros [= <-]. simpl.
    destruct Hpre as [?|[? ?]]; [done|by split_and!].
  - destruct ms as [|p ms]; simpl.
    { intros [= <-]. simpl. destruct Hpre as [?|[? ?]]; [done|by split_and!]. }
    intros Hloop.
    destruct (cascadeStep_grid rnd (n + 1) (p :: ms) st Hwf) as [Hwf' Hne].
    apply IH in Hloop; [done..|].
    destruct (findAllMatches (grid (cascadeStep rnd (n + 1) (p :: ms) st)))
      as [|q l]; [right; split; [exact Hne|reflexivity]|left; discriminate].
Qed.

(** ** Level end and reshuffle *)

Lemma checkLevelEnd_level_fields (level : Level.t) (st : State) :
  let st' := checkLevelEnd_level level st in
  grid st' = grid st ∧ score st' = score st ∧ movesLeft st' = movesLeft st
  ∧ gemsCollected st' = gemsCollected st
  ∧ totalGemsCollected st' = totalGemsCollected st
  ∧ seed st' = seed st ∧ status st' = status st
  ∧ selectedGem st' = selectedGem st.
Proof.
  unfold checkLevelEnd_level.
  destruct (checkAllGoalsComplete _ _); [done|].
  destruct (movesLeft st <=? 0); done.
Qed.

Lemma reshuffleIfStuck_fields (fuel : nat) (rnd : nat → nat) (st st' : State) :
  reshuffleIfStuck fuel rnd st = Some st' →
  score st' = score st ∧ movesLeft st' = movesLeft st
  ∧ gemsCollected st' = gemsCollected st
  ∧ totalGemsCollected st' = totalGemsCollected st
  ∧ timers st' = timers st
  ∧ selectedGem st' = selectedGem st.
Proof.
  unfold reshuffleIfStuck.
  destruct (hasValidMoves (grid st)) as [[] g]; simpl.
  - intros [= <-]. done.
  - destruct (shuffleBoard _ _ _ _) as [[g' seed']|]; simpl; [|done].
    intros [= <-]. done.
Qed.

(** A board with a valid move is left alone. *)
Lemma reshuffleIfStuck_valid (fuel : nat) (rnd : nat → nat) (st : State) :
  wf_grid (grid st) → (hasValidMoves (grid st)).1 = true →
  reshuffleIfStuck fuel rnd st = Some st.
Proof.
  intros Hwf Hvalid. unfold reshuffleIfStuck.
  rewrite hasValidMoves_spec in * by done. simpl in Hvalid.
  rewrite Hvalid. by destruct st.
Qed.

(** * The claims *)

(** ** Level evaluation *)




Lemma app_singleton_ne {A} (l : list A) (x : A) : l ≠ l ++ [x].
Proof.
  intros H. apply (f_equal length) in H. rewrite length_app in H.
  simpl in H. lia.
Qed.




Lemma calculateStars_spec (level : Level.t) (t1 t2 t3 : Z) (st : State) :
  Level.starThresholds level = [t1; t2; t3] →
  calculateStars level st
  = if t3 <=? score st then 3
    else if t2 <=? score st then 2
    else if t1 <=? score st then 1 else 0.
Proof.
  intros Ht. unfold calculateStars. rewrite Ht. simpl.
  by destruct (t3 <=? score st), (t2 <=? score st), (t1 <=? score st).
Qed.

Lemma showLevelComplete_stored (level : Level.t) (st : State) :
  levelProgress (showLevelComplete level st) !! Level.id level
  = Some (mkProgress true
            (Some (Z.max (storedStars st (Level.id level))
                         (calculateStars level st)))
            (Some (Z.max (storedBest st (Level.id level)) (score st)))).
Proof. unfold showLevelComplete. simpl. by rewrite lookup_insert_eq. Qed.

(** C5. With thresholds [[t1, t2, t3]] the star count is 3 from [t3] on,
    else 2 from [t2] on, else 1 from [t1] on, else 0; completing a level
    stores the greater of the stored and the new star count and of the
    stored and the new score, so neither stored value ever decreases and
    each changes only to a strictly greater one; with thresholds
    [[1000, 1500, 2000]], completing with 1500 and then with 1200 keeps
    the stars of the first run, which are 2 unless more were stored. *)
Theorem stars_and_ratchet (level : Level.t) (t1 t2 t3 : Z) (st : State) :
  Level.starThresholds level = [t1; t2; t3] →
  let lid := Level.id level in
  let st' := showLevelComplete level st in
  calculateStars level st
    = (if t3 <=? score st then 3
       else if t2 <=? score st then 2
       else if t1 <=? score st then 1 else 0)
  ∧ levelProgress st' !! lid
    = Some (mkProgress true
              (Some (Z.max (storedStars st lid) (calculateStars level st)))
              (Some (Z.max (storedBest st lid) (score st))))
  ∧ storedStars st lid ≤ storedStars st' lid
  ∧ storedBest st lid ≤ storedBest st' lid
  ∧ (storedStars st' lid ≠ storedStars st lid
     → storedStars st lid < storedStars st' lid)
  ∧ (storedBest st' lid ≠ storedBest st lid
     → storedBest st lid < storedBest st' lid)
  ∧ (t1 = 1000 → t2 = 1500 → t3 = 2000 →
     let first := showLevelComplete level (set_score 1500 st) in
     let second := showLevelComplete level (set_score 1200 first) in
     storedStars second lid = storedStars first lid
     ∧ storedBest second lid = storedBest first lid
     ∧ (storedStars st lid ≤ 2 → storedStars second lid = 2)).
Proof.
  intros Ht lid st'.
  assert (Hstars : ∀ s, storedStars (showLevelComplete level s) lid
                        = Z.max (storedStars s lid) (calculateStars level s)).
  { intros s. unfold storedStars at 1. fold lid.
    unfold lid. by rewrite showLevelComplete_stored. }
  assert (Hbest : ∀ s, storedBest (showLevelComplete level s) lid
                       = Z.max (storedBest s lid) (score s)).
  { intros s. unfold storedBest at 1.
    unfold lid. by rewrite showLevelComplete_stored. }
  split; [by apply calculateStars_spec|].
  split; [apply showLevelComplete_stored|].
  unfold st'. rewrite Hstars, Hbest.
  split_and!; try lia.
  intros -> -> ->. simpl.
  assert (Hs : ∀ v s, storedStars (set_score v s) lid = storedStars s lid)
    by done.
  assert (Hb : ∀ v s, storedBest (set_score v s) lid = storedBest s lid)
    by done.
  rewrite !Hstars, !Hbest, !Hs, !Hb, !Hstars, !Hbest, !Hs, !Hb.
  rewrite !(calculateStars_spec level 1000 1500 2000) by done. simpl.
  lia.
Qed.

(** An instance: level 2 completed with 1500 and then with 1200 points. *)
Lemma stars_and_ratchet_witness :
  Level.starThresholds level2 = [1000; 1500; 2000]
  ∧ storedStars
      (showLevelComplete level2
         (set_score 1200
            (showLevelComplete level2
               (set_score 1500 (level1_state board_play 5))))) 2 = 2.
Proof.
  assert (H : Level.starThresholds level2 = [1000; 1500; 2000]) by reflexivity.
  split; [exact H|].
  destruct (stars_and_ratchet level2 1000 1500 2000
              (level1_state board_play 5) H)
    as (_ & _ & _ & _ & _ & _ & Hscenario).
  destruct (Hscenario eq_refl eq_refl eq_refl) as (_ & _ & Hkeep).
  apply Hkeep. vm_compute. discriminate.
Defined.

(** ** Match detection and empty cells *)




(** ** Gravity *)

(** C7. [applyGravity] works column by column: afterwards each column
    holds its empty cells on top and its gems below them in their former
    top-to-bottom order, it is a rearrangement of the column before, and
    the pass over one column leaves every other column as it was. *)
Theorem applyGravity_compacts_columns (g : Grid) (c : nat) :
  wf_grid g → (c < COLS)%nat →
  let before := column g c in
  let after := column (applyGravity g) c in
  wf_grid (applyGravity g)
  ∧ after = compact before
  ∧ (∃ k, k = length (filter (λ v, v = EMPTY) before)
       ∧ ∀ r, (r < ROWS)%nat →
           ((r < k)%nat → cell (applyGravity g) r c = EMPTY)
           ∧ ((k ≤ r)%nat → cell (applyGravity g) r c ≠ EMPTY))
  ∧ filter (λ v, v ≠ EMPTY) after = filter (λ v, v ≠ EMPTY) before
  ∧ after ≡ₚ before
  ∧ column (gravity_col c g) c = compact before
  ∧ (∀ c', c' ≠ c → column (gravity_col c g) c' = column g c').
Proof.
  intros Hwf Hc before after.
  assert (Hafter : after = compact before) by by apply column_applyGravity.
  destruct (gravity_col_column g c Hwf Hc) as (_ & Hcol & Hothers).
  split_and!; [by apply wf_applyGravity|done| | | |done|done].
  - eexists. split; [reflexivity|]. intros r Hr.
    rewrite cell_column. fold after. rewrite Hafter.
    assert (Hlen : (r < length before)%nat).
    { unfold before. rewrite length_column. destruct Hwf as [-> _]. done. }
    destruct (lookup_compact before r Hlen) as [Htop Hbottom].
    split; intros Hk.
    + by rewrite Htop.
    + destruct (Hbottom Hk) as (v & -> & Hv). done.
  - rewrite Hafter. apply filter_gems_compact.
  - rewrite Hafter. apply compact_Permutation.
Qed.

(** An instance: the hole of column 3 rises to the top. *)
Lemma applyGravity_compacts_columns_witness :
  wf_grid board_holes ∧ (3 < COLS)%nat
  ∧ column (applyGravity board_holes) 3 = compact (column board_holes 3)
  ∧ column (applyGravity board_holes) 3 = [-1; 3; 0; 0; 3; 0; 3; 0]
  ∧ column board_holes 3 = [3; 0; -1; 0; 3; 0; 3; 0].
Proof.
  assert (H1 : wf_grid board_holes) by (by apply wf_gridb_spec; vm_compute).
  assert (H2 : (3 < COLS)%nat) by (vm_compute; lia).
  split_and!; [exact H1|exact H2| |by vm_compute..].
  destruct (applyGravity_compacts_columns board_holes 3 H1 H2)
    as (_ & Hcompact & _).
  exact Hcompact.
Defined.

(** ** Move oracle *)

(** C8. On every board [hasValidMoves] answers [true] exactly when
    [findValidMove] returns a move; the move returned is the first of the
    candidates, taken row by row, column by column and at each cell with
    the right neighbour before the bottom neighbour, whose swap produces
    a match, and there is none when no candidate does; and both functions
    leave the board as they found it. *)
Theorem move_oracle_agreement (g : Grid) :
  wf_grid g →
  ((hasValidMoves g).1 = true ↔ (findValidMove g).1 ≠ None)
  ∧ (findValidMove g).1 = List.find (gives_match g) candidates
  ∧ (∀ m, (findValidMove g).1 = Some m →
       ∃ before after, candidates = before ++ m :: after
         ∧ gives_match g m = true
         ∧ Forall (λ m', gives_match g m' = false) before)
  ∧ ((findValidMove g).1 = None →
       Forall (λ m, gives_match g m = false) candidates)
  ∧ (hasValidMoves g).2 = g
  ∧ (findValidMove g).2 = g.
Proof.
  intros Hwf.
  assert (Hhas : hasValidMoves g
                 = (match (findValidMove g).1 with
                    | Some _ => true | None => false end,
                    (findValidMove g).2))
    by apply hasValidMoves_rows_find.
  rewrite Hhas, findValidMove_spec by done. simpl.
  split_and!; try done.
  - destruct (List.find _ _); split; done.
  - apply find_first.
  - intros Hnone. apply Forall_forall. intros m Hm.
    apply list_elem_of_In in Hm.
    by apply (find_none _ _ Hnone) in Hm.
Qed.

(** An instance: the first valid move of [board_play]. *)
Lemma move_oracle_agreement_witness :
  wf_grid board_play
  ∧ (findValidMove board_play).1 = Some (mkMove 1 0 1 1)
  ∧ (findValidMove board_play).1 = List.find (gives_match board_play) candidates
  ∧ (hasValidMoves board_play).1 = true
  ∧ (hasValidMoves board_play).2 = board_play.
Proof.
  assert (H : wf_grid board_play) by (by apply wf_gridb_spec; vm_compute).
  destruct (move_oracle_agreement board_play H)
    as (Hiff & Hfind & _ & _ & Hsame & _).
  split_and!; [exact H|by vm_compute|exact Hfind|by vm_compute|exact Hsame].
Defined.

(** ** Swap attempts *)

Lemma bind_Some {A B} (x : A) (f : A → option B) : Some x ≫= f = f x.
Proof. reflexivity. Qed.

Lemma bind_None {A B} (f : A → option B) : None ≫= f = None.
Proof. reflexivity. Qed.

Lemma option_fmap_Some {A B} (f : A → B) (x : A) : f <$> Some x = Some (f x).
Proof. reflexivity. Qed.

Lemma option_fmap_None {A B} (f : A → B) : f <$> (None : option A) = None.
Proof. reflexivity. Qed.

Lemma deselectGem_eq (st : State) : deselectGem st = set_selectedGem None st.
Proof. destruct st as [? ? [?|]]; reflexivity. Qed.

Lemma trySwap_unfold (fuel : nat) (rnd : nat → nat) (r1 c1 r2 c2 : nat)
    (st : State) :
  trySwap fuel rnd r1 c1 r2 c2 st
  = (let st1 := deselectGem (set_isProcessing true st) in
     let st2 := set_grid (swap (grid st1) r1 c1 r2 c2) st1 in
     let matches := findAllMatches (grid st2) in
     st5 ← (if (0 <? length matches)%nat then
              let st3 := setStatus MsgNiceMatch
                           (set_movesLeft (movesLeft st2 - 1) st2) in
              st4 ← processMatches fuel rnd matches st3;
              checkLevelEnd st4
            else
              let st3 := setStatus MsgNoMatch st2 in
              Some (set_grid (swap (grid st3) r1 c1 r2 c2) st3));
     st6 ← reshuffleIfStuck fuel rnd st5;
     Some (set_isProcessing false st6)).
Proof. reflexivity. Qed.

(** The two branches of [trySwap]. *)
Lemma trySwap_rejected (fuel : nat) (rnd : nat → nat) (r1 c1 r2 c2 : nat)
    (st : State) :
  findAllMatches (swap (grid st) r1 c1 r2 c2) = [] →
  trySwap fuel rnd r1 c1 r2 c2 st
  = (st6 ← reshuffleIfStuck fuel rnd
             (set_grid (swap (swap (grid st) r1 c1 r2 c2) r1 c1 r2 c2)
                (setStatus MsgNoMatch
                   (set_selectedGem None (set_isProcessing true st))));
     Some (set_isProcessing false st6)).
Proof.
  intros Hnil. rewrite trySwap_unfold, deselectGem_eq. cbv zeta. state_simpl.
  rewrite Hnil. change (0 <? length (@nil Pos))%nat with false. cbv iota.
  rewrite bind_Some. reflexivity.
Qed.

Lemma trySwap_accepted (fuel : nat) (rnd : nat → nat) (r1 c1 r2 c2 : nat)
    (st : State) :
  findAllMatches (swap (grid st) r1 c1 r2 c2) ≠ [] →
  trySwap fuel rnd r1 c1 r2 c2 st
  = (st4 ← processMatches fuel rnd
             (findAllMatches (swap (grid st) r1 c1 r2 c2))
             (setStatus MsgNiceMatch
                (set_movesLeft (movesLeft st - 1)
                   (set_grid (swap (grid st) r1 c1 r2 c2)
                      (set_selectedGem None (set_isProcessing true st)))));
     st5 ← checkLevelEnd st4;
     st6 ← reshuffleIfStuck fuel rnd st5;
     Some (set_isProcessing false st6)).
Proof.
  intros Hne. rewrite trySwap_unfold, deselectGem_eq. cbv zeta. state_simpl.
  destruct (findAllMatches (swap (grid st) r1 c1 r2 c2)) as [|p l];
    [by destruct Hne|].
  change (0 <? length (p :: l))%nat with true. cbv iota.
  destruct (processMatches _ _ _ _) as [st4|];
    rewrite ?bind_Some, ?bind_None; reflexivity.
Qed.

Lemma checkLevelEnd_fields (st st' : State) :
  checkLevelEnd st = Some st' →
  grid st' = grid st ∧ score st' = score st ∧ movesLeft st' = movesLeft st
  ∧ gemsCollected st' = gemsCollected st
  ∧ totalGemsCollected st' = totalGemsCollected st
  ∧ seed st' = seed st ∧ status st' = status st
  ∧ selectedGem st' = selectedGem st.
Proof.
  unfold checkLevelEnd.
  destruct (find_level LEVELS (currentLevel st)) as [level|]; simpl; [|done].
  intros [= <-]. apply checkLevelEnd_level_fields.
Qed.

(** An accepted swap, in terms of the state it leaves: one move less, and
    at least the points and the gems of the first match. *)
Lemma trySwap_accepted_fields (fuel : nat) (rnd : nat → nat)
    (r1 c1 r2 c2 : nat) (st st' : State) :
  findAllMatches (swap (grid st) r1 c1 r2 c2) ≠ [] →
  trySwap fuel rnd r1 c1 r2 c2 st = Some st' →
  let ms := findAllMatches (swap (grid st) r1 c1 r2 c2) in
  movesLeft st' = movesLeft st - 1
  ∧ score st + Z.of_nat (length ms) * POINTS_PER_GEM ≤ score st'
  ∧ totalGemsCollected st + Z.of_nat (length ms) ≤ totalGemsCollected st'.
Proof.
  intros Hne Htry ms. rewrite trySwap_accepted in Htry by exact Hne.
  destruct (processMatches _ _ _ _) as [st4|] eqn:E4;
    rewrite ?bind_Some, ?bind_None in Htry; [|discriminate].
  destruct (checkLevelEnd st4) as [st5|] eqn:E5;
    rewrite ?bind_Some, ?bind_None in Htry; [|discriminate].
  destruct (reshuffleIfStuck fuel rnd st5) as [st6|] eqn:E6;
    rewrite ?bind_Some, ?bind_None in Htry; [|discriminate].
  injection Htry as <-. state_simpl.
  apply cascadeLoop_frame in E4 as (F1 & _ & _ & _ & _ & F6 & F7); [|lia].
  apply checkLevelEnd_fields in E5 as (_ & G2 & G3 & _ & G5 & _).
  apply reshuffleIfStuck_fields in E6 as (R1 & R2 & _ & R4 & _).
  state_simpl in F1. state_simpl in F6. state_simpl in F7. fold ms in F6, F7.
  rewrite R1, R2, R4, G2, G3, G5, F1. split_and!; lia.
Qed.

Lemma trySwap_rejected_fields (fuel : nat) (rnd : nat → nat)
    (r1 c1 r2 c2 : nat) (st st' : State) :
  findAllMatches (swap (grid st) r1 c1 r2 c2) = [] →
  trySwap fuel rnd r1 c1 r2 c2 st = Some st' →
  score st' = score st ∧ movesLeft st' = movesLeft st
  ∧ gemsCollected st' = gemsCollected st
  ∧ totalGemsCollected st' = totalGemsCollected st.
Proof.
  intros Hnil Htry. rewrite trySwap_rejected in Htry by exact Hnil.
  destruct (reshuffleIfStuck _ _ _) as [st6|] eqn:E6;
    rewrite ?bind_Some, ?bind_None in Htry; [|discriminate].
  injection Htry as <-. state_simpl.
  apply reshuffleIfStuck_fields in E6 as (R1 & R2 & R3 & R4 & _).
  rewrite R1, R2, R3, R4. state_simpl. split_and!; reflexivity.
Qed.

(** ** The cascade cycle *)

(** C2. When [processMatches] is called as [trySwap] calls it, with the
    non-empty match set of the board, and returns, no cell of the board
    is empty, the match set of the board is empty, and no three equal
    cells stand side by side in any row or column. *)
Theorem processMatches_leaves_stable_board (fuel : nat) (rnd : nat → nat)
    (st st' : State) :
  wf_grid (grid st) →
  findAllMatches (grid st) ≠ [] →
  processMatches fuel rnd (findAllMatches (grid st)) st = Some st' →
  no_empty (grid st')
  ∧ findAllMatches (grid st') = []
  ∧ (∀ r i, (r < ROWS)%nat → ¬ hwin (grid st') r i)
  ∧ (∀ i c, (c < COLS)%nat → ¬ vwin (grid st') i c).
Proof.
  intros Hwf Hne Hrun.
  apply cascadeLoop_stable in Hrun as (_ & Hfull & Hnil); [|done|by left].
  split; [done|]. split; [done|]. by apply findAllMatches_nil.
Qed.

(** An instance: a cycle of two cascade steps on [board_play]. *)
Lemma processMatches_leaves_stable_board_witness :
  wf_grid (grid (level1_state (swap board_play 1 0 1 1) 19))
  ∧ findAllMatches (grid (level1_state (swap board_play 1 0 1 1) 19)) ≠ []
  ∧ ∃ st',
      processMatches 3 (draws [1; 1; 1; 5; 0; 5]%nat)
        (findAllMatches (grid (level1_state (swap board_play 1 0 1 1) 19)))
        (level1_state (swap board_play 1 0 1 1) 19) = Some st'
      ∧ no_empty (grid st') ∧ findAllMatches (grid st') = [].
Proof.
  assert (Hwf : wf_grid (grid (level1_state (swap board_play 1 0 1 1) 19)))
    by (by apply wf_gridb_spec; vm_compute).
  assert (Hne : findAllMatches
                  (grid (level1_state (swap board_play 1 0 1 1) 19)) ≠ [])
    by (vm_compute; discriminate).
  split; [exact Hwf|]. split; [exact Hne|].
  eexists. split; [by vm_compute|].
  assert (Hrun : processMatches 3 (draws [1; 1; 1; 5; 0; 5]%nat)
            (findAllMatches (grid (level1_state (swap board_play 1 0 1 1) 19)))
            (level1_state (swap board_play 1 0 1 1) 19)
          = Some ltac:(
              let v := eval vm_compute in
                (processMatches 3 (draws [1; 1; 1; 5; 0; 5]%nat)
                   (findAllMatches
                      (grid (level1_state (swap board_play 1 0 1 1) 19)))
                   (level1_state (swap board_play 1 0 1 1) 19)) in
              match v with Some ?s => exact s end))
    by (by vm_compute).
  destruct (processMatches_leaves_stable_board _ _ _ _ Hwf Hne Hrun)
    as (Hfull & Hnil & _).
  split; [exact Hfull|exact Hnil].
Defined.

Lemma passes_S (k : nat) (rnd : nat → nat) (n : Z) (ms : list Pos)
    (st : State) :
  passes (S k) rnd n ms st
  = let '(nk, msk, stk) := passes k rnd n ms st in
    let st' := cascadeStep rnd (nk + 1) msk stk in
    (nk + 1, findAllMatches (grid st'), st').
Proof.
  revert n ms st. induction k as [|k IH]; intros n ms st; [done|].
  change (passes (S (S k)) rnd n ms st)
    with (passes (S k) rnd (n + 1)
            (findAllMatches (grid (cascadeStep rnd (n + 1) ms st)))
            (cascadeStep rnd (n + 1) ms st)).
  by rewrite IH.
Qed.

Lemma passes_level (k : nat) (rnd : nat → nat) (n : Z) (ms : list Pos)
    (st : State) :
  (passes k rnd n ms st).1.1 = n + Z.of_nat k.
Proof.
  revert n ms st. induction k as [|k IH]; intros n ms st.
  - simpl. lia.
  - change (passes (S k) rnd n ms st)
      with (passes k rnd (n + 1)
              (findAllMatches (grid (cascadeStep rnd (n + 1) ms st)))
              (cascadeStep rnd (n + 1) ms st)).
    rewrite IH. lia.
Qed.

(** A loop that returns has gone through its body some number [k] of
    times, [k] being the first time the match set is empty. *)
Lemma cascadeLoop_passes (fuel : nat) (rnd : nat → nat) (n : Z)
    (ms : list Pos) (st st' : State) :
  cascadeLoop fuel rnd n ms st = Some st' →
  ∃ k, (k ≤ fuel)%nat
    ∧ (passes k rnd n ms st).1.2 = []
    ∧ st' = setStatus MsgMatch3 (passes k rnd n ms st).2
    ∧ ∀ j, (j < k)%nat → (passes j rnd n ms st).1.2 ≠ [].
Proof.
  revert n ms st. induction fuel as [|fuel IH]; intros n ms st; simpl.
  - destruct ms; simpl; [|done]. intros [= <-].
    exists 0%nat. split_and!; [lia|done|done|intros; lia].
  - destruct ms as [|p ms]; simpl.
    { intros [= <-]. exists 0%nat. split_and!; [lia|done|done|intros; lia]. }
    intros Hloop. apply IH in Hloop as (k & Hk & Hnil & -> & Hbefore).
    exists (S k). split_and!; [lia|done|done|].
    intros [|j] Hj; [done|]. apply Hbefore. lia.
Qed.

Lemma reshuffle_score (fuel : nat) (rnd : nat → nat) (st st' : State) :
  reshuffleIfStuck fuel rnd st = Some st' → score st' = score st.
Proof. intros H. by apply reshuffleIfStuck_fields in H as (? & _). Qed.

Lemma trySwap_score (fuel : nat) (rnd : nat → nat) (r1 c1 r2 c2 : nat)
    (st st' : State) :
  trySwap fuel rnd r1 c1 r2 c2 st = Some st' → score st ≤ score st'.
Proof.
  intros Htry.
  destruct (findAllMatches (swap (grid st) r1 c1 r2 c2)) as [|p l] eqn:E.
  - apply trySwap_rejected_fields in Htry as (-> & _); [lia|done].
  - apply trySwap_accepted_fields in Htry as (_ & Hs & _); [|by rewrite E].
    unfold POINTS_PER_GEM in Hs. lia.
Qed.

Lemma handleGemClick_score (fuel : nat) (rnd : nat → nat) (row col : nat)
    (st st' : State) :
  handleGemClick fuel rnd row col st = Some st' → score st ≤ score st'.
Proof.
  unfold handleGemClick.
  destruct (isProcessing st); [by intros [= <-]|].
  destruct (selectedGem st) as [sel|] eqn:Esel; [|by intros [= <-]].
  destruct (_ && _).
  { intros [= <-]. rewrite deselectGem_eq. done. }
  destruct (isAdjacent sel (row, col)).
  - apply trySwap_score.
  - intros [= <-]. rewrite deselectGem_eq. done.
Qed.

(** Score and total of collected gems stay non-negative from click to
    click; [loadLevel] starts a level with both at 0. *)
Lemma handleGemClick_nonneg (fuel : nat) (rnd : nat → nat) (row col : nat)
    (st st' : State) :
  handleGemClick fuel rnd row col st = Some st' →
  0 ≤ score st → 0 ≤ totalGemsCollected st →
  0 ≤ score st' ∧ 0 ≤ totalGemsCollected st'.
Proof.
  intros Hclick Hs Ht.
  pose proof (handleGemClick_score _ _ _ _ _ _ Hclick) as Hscore.
  split; [lia|]. revert Hclick. unfold handleGemClick.
  destruct (isProcessing st); [by intros [= <-]|].
  destruct (selectedGem st) as [sel|] eqn:Esel; [|by intros [= <-]].
  destruct (_ && _).
  { intros [= <-]. rewrite deselectGem_eq. done. }
  destruct (isAdjacent sel (row, col)).
  - intros Htry.
    destruct (findAllMatches (swap (grid st) sel.1 sel.2 row col))
      as [|p l] eqn:E.
    + apply trySwap_rejected_fields in Htry as (_ & _ & _ & ->); done.
    + apply trySwap_accepted_fields in Htry as (_ & _ & Htotal);
        [lia|by rewrite E].
  - intros [= <-]. rewrite deselectGem_eq. done.
Qed.

(** C3. A call of [processMatches] on the match set of the board that
    returns has gone [k] times through the loop body; the pass number
    [j + 1] runs with cascade level [j + 1] on a non-empty match set
    without repetitions and adds to the score the number of its cells
    times 10 times [j + 1]; the score at the end is not below the score
    at the start, and no click makes the score decrease. *)
Theorem processMatches_score (fuel : nat) (rnd : nat → nat) (st st' : State) :
  processMatches fuel rnd (findAllMatches (grid st)) st = Some st' →
  ∃ k, (k ≤ fuel)%nat
    ∧ (passes k rnd 0 (findAllMatches (grid st)) st).1.2 = []
    ∧ st' = setStatus MsgMatch3
              (passes k rnd 0 (findAllMatches (grid st)) st).2
    ∧ (∀ j, (j < k)%nat →
         let '(cascadeLevel, matches, before) :=
           passes j rnd 0 (findAllMatches (grid st)) st in
         let after := (passes (S j) rnd 0 (findAllMatches (grid st)) st).2 in
         cascadeLevel = Z.of_nat j
         ∧ matches ≠ [] ∧ NoDup matches
         ∧ after = cascadeStep rnd (Z.of_nat j + 1) matches before
         ∧ score after
           = score before
             + Z.of_nat (length matches) * POINTS_PER_GEM * (Z.of_nat j + 1))
    ∧ score st ≤ score st'
    ∧ (∀ fuel' row col st0 st1,
         handleGemClick fuel' rnd row col st0 = Some st1 →
         score st0 ≤ score st1).
Proof.
  intros Hrun.
  pose proof (cascadeLoop_frame _ _ _ _ _ _ (Z.le_refl 0) Hrun)
    as (_ & _ & _ & _ & _ & Hscore & _).
  apply cascadeLoop_passes in Hrun as (k & Hk & Hnil & -> & Hbefore).
  exists k. split_and!; [done..| | |].
  - intros j Hj. specialize (Hbefore j Hj).
    pose proof (passes_level j rnd 0 (findAllMatches (grid st)) st) as Hlevel.
    assert (Hnodup : NoDup (passes j rnd 0 (findAllMatches (grid st)) st).1.2).
    { destruct j as [|j]; [apply NoDup_findAllMatches|].
      rewrite passes_S. destruct (passes j _ _ _ _) as [[? ?] ?]. simpl.
      apply NoDup_findAllMatches. }
    rewrite passes_S.
    destruct (passes j rnd 0 (findAllMatches (grid st)) st)
      as [[cascadeLevel matches] before].
    simpl in *. assert (cascadeLevel = Z.of_nat j) as -> by lia.
    split_and!; [done..|].
    by destruct (cascadeStep_fields rnd (Z.of_nat j + 1) matches before)
      as (-> & _).
  - simpl in *. unfold POINTS_PER_GEM in Hscore. lia.
  - intros fuel' row col st0 st1. apply handleGemClick_score.
Qed.

(** An instance: two cascade steps of three gems, 30 + 60 points. *)
Lemma processMatches_score_witness :
  ∃ st',
    processMatches 3 (draws [1; 1; 1; 5; 0; 5]%nat)
      (findAllMatches (grid (level1_state (swap board_play 1 0 1 1) 19)))
      (level1_state (swap board_play 1 0 1 1) 19) = Some st'
    ∧ score st' = 90
    ∧ ∃ k, (k ≤ 3)%nat
        ∧ st' = setStatus MsgMatch3
                  (passes k (draws [1; 1; 1; 5; 0; 5]%nat) 0
                     (findAllMatches
                        (grid (level1_state (swap board_play 1 0 1 1) 19)))
                     (level1_state (swap board_play 1 0 1 1) 19)).2.
Proof.
  eexists. split; [by vm_compute|]. split; [by vm_compute|].
  assert (Hrun : processMatches 3 (draws [1; 1; 1; 5; 0; 5]%nat)
            (findAllMatches (grid (level1_state (swap board_play 1 0 1 1) 19)))
            (level1_state (swap board_play 1 0 1 1) 19)
          = Some ltac:(
              let v := eval vm_compute in
                (processMatches 3 (draws [1; 1; 1; 5; 0; 5]%nat)
                   (findAllMatches
                      (grid (level1_state (swap board_play 1 0 1 1) 19)))
                   (level1_state (swap board_play 1 0 1 1) 19)) in
              match v with Some ?s => exact s end))
    by (by vm_compute).
  destruct (processMatches_score _ _ _ _ Hrun) as (k & Hk & _ & Hst & _).
  exists k. split; [exact Hk|exact Hst].
Defined.

(** ** Requests that are not swaps of neighbours *)

(** C9, as the code has it. While a gem is selected and no cycle is in
    flight, a click on a cell that is not adjacent to the selected one
    never reaches [trySwap]: a click on the selected cell clears the
    selection and a click on any other such cell moves the selection
    there; the board, the score, the moves left, the counters and the
    status line are as before, so nothing tells the request apart from a
    plain selection. *)
Theorem handleGemClick_non_adjacent (fuel : nat) (rnd : nat → nat)
    (row col : nat) (sel : Pos) (st : State) :
  isProcessing st = false →
  selectedGem st = Some sel →
  isAdjacent sel (row, col) = false →
  ∃ st', handleGemClick fuel rnd row col st = Some st'
    ∧ st' = set_selectedGem
              (if decide (sel = (row, col)) then None else Some (row, col)) st
    ∧ grid st' = grid st ∧ movesLeft st' = movesLeft st
    ∧ score st' = score st ∧ status st' = status st
    ∧ gemsCollected st' = gemsCollected st
    ∧ totalGemsCollected st' = totalGemsCollected st.
Proof.
  intros Hidle Hsel Hadj. unfold handleGemClick.
  rewrite Hidle, Hsel, Hadj. destruct sel as [r c]. simpl.
  destruct (Nat.eqb_spec r row) as [->|Hr]; simpl;
    [destruct (Nat.eqb_spec c col) as [->|Hc]; simpl|].
  - rewrite decide_True by done. rewrite deselectGem_eq.
    eexists. split; [reflexivity|]. done.
  - rewrite decide_False by congruence. rewrite deselectGem_eq.
    eexists. split; [reflexivity|]. done.
  - rewrite decide_False by congruence. rewrite deselectGem_eq.
    eexists. split; [reflexivity|]. done.
Qed.

(** An instance: [(1, 1)] selected, [(0, 7)] clicked. *)
Lemma handleGemClick_non_adjacent_witness :
  isProcessing (selectGem 1 1 (level1_state board_play 20)) = false
  ∧ selectedGem (selectGem 1 1 (level1_state board_play 20)) = Some (1, 1)%nat
  ∧ isAdjacent (1, 1)%nat (0, 7)%nat = false
  ∧ handleGemClick 3 (draws [5; 0; 5]%nat) 0 7
      (selectGem 1 1 (level1_state board_play 20))
    = Some (selectGem 0 7 (level1_state board_play 20)).
Proof.
  assert (H1 : isProcessing (selectGem 1 1 (level1_state board_play 20))
               = false) by reflexivity.
  assert (H2 : selectedGem (selectGem 1 1 (level1_state board_play 20))
               = Some (1, 1)%nat) by reflexivity.
  assert (H3 : isAdjacent (1, 1)%nat (0, 7)%nat = false) by reflexivity.
  split_and!; [exact H1|exact H2|exact H3|].
  destruct (handleGemClick_non_adjacent 3 (draws [5; 0; 5]%nat) 0 7 (1, 1)%nat
              (selectGem 1 1 (level1_state board_play 20)) H1 H2 H3)
    as (st' & -> & -> & _).
  reflexivity.
Defined.

(** C9, as the claim words it, fails: [trySwap] itself swaps any two
    cells, so the cells [(1, 1)] and [(0, 7)], which are not adjacent,
    are swapped, matched and paid for with a move; a swap of a cell with
    itself ends like the rejected swap of two neighbours, with the same
    status line; and a click on a cell that is not adjacent to the
    selected one leaves the state of a plain selection, with no signal. *)
Lemma trySwap_accepts_non_adjacent :
  isAdjacent (1, 1)%nat (0, 7)%nat = false
  ∧ (∃ st', trySwap 3 (draws [5; 0; 5]%nat) 1 1 0 7 (level1_state board_play 20)
            = Some st'
       ∧ movesLeft st' = 19 ∧ score st' = 30
       ∧ grid st' ≠ grid (level1_state board_play 20))
  ∧ isAdjacent (0, 0)%nat (0, 0)%nat = false
  ∧ trySwap 3 (draws []) 0 0 0 0 (level1_state board_play 20)
    = trySwap 3 (draws []) 0 0 0 1 (level1_state board_play 20)
  ∧ (∃ st', trySwap 3 (draws []) 0 0 0 0 (level1_state board_play 20) = Some st'
       ∧ status st' = MsgNoMatch)
  ∧ handleGemClick 3 (draws []) 0 7 (selectGem 1 1 (level1_state board_play 20))
    = Some (selectGem 0 7 (level1_state board_play 20)).
Proof.
  split_and!; [done| |done|by vm_compute| |by vm_compute].
  - eexists. split; [by vm_compute|]. split_and!; [done..|].
    vm_compute. discriminate.
  - eexists. split; [by vm_compute|]. done.
Qed.

(** ** The move budget *)

(** Every non-empty match set has at least three cells. *)
Lemma findAllMatches_length (g : Grid) :
  findAllMatches g ≠ [] → (3 ≤ length (findAllMatches g))%nat.
Proof.
  intros Hne. destruct (findAllMatches g) as [|[r c] l] eqn:E; [done|].
  assert (Hin : (r, c) ∈ findAllMatches g) by (rewrite E; left).
  rewrite <- E. clear E Hne l.
  apply elem_of_findAllMatches in Hin.
  destruct Hin as [(Hr & i & Hi & Hw)|(Hc & i & Hi & Hw)].
  - assert (Hsub : [(r, i); (r, i + 1); (r, i + 2)]%nat ⊆+ findAllMatches g).
    { apply NoDup_submseteq.
      - repeat (apply NoDup_cons; split;
                [rewrite ?elem_of_cons, ?elem_of_nil;
                 intros H; intuition (simplify_eq; lia)|]).
        apply NoDup_nil_2.
      - intros p Hp. rewrite !elem_of_cons, elem_of_nil in Hp.
        destruct Hp as [->|[->|[->|[]]]]; apply elem_of_findAllMatches; left;
          (split; [done|]); exists i; (split; [lia|done]). }
    apply submseteq_length in Hsub. exact Hsub.
  - assert (Hsub : [(i, c); (i + 1, c); (i + 2, c)]%nat ⊆+ findAllMatches g).
    { apply NoDup_submseteq.
      - repeat (apply NoDup_cons; split;
                [rewrite ?elem_of_cons, ?elem_of_nil;
                 intros H; intuition (simplify_eq; lia)|]).
        apply NoDup_nil_2.
      - intros p Hp. rewrite !elem_of_cons, elem_of_nil in Hp.
        destruct Hp as [->|[->|[->|[]]]]; apply elem_of_findAllMatches; right;
          (split; [done|]); exists i; (split; [lia|done]). }
    apply submseteq_length in Hsub. exact Hsub.
Qed.

(** The reshuffle looks at the board and the random source only. *)
Lemma reshuffleIfStuck_same_board (fuel : nat) (rnd : nat → nat)
    (a b a' : State) :
  grid a = grid b → seed a = seed b →
  reshuffleIfStuck fuel rnd a = Some a' →
  ∃ b', reshuffleIfStuck fuel rnd b = Some b'
    ∧ grid b' = grid a' ∧ seed b' = seed a'.
Proof.
  intros Hg Hs. unfold reshuffleIfStuck. rewrite <- Hg.
  destruct (hasValidMoves (grid a)) as [[] g]; simpl.
  - intros [= <-]. eexists. split; [reflexivity|]. done.
  - rewrite <- Hs.
    destruct (shuffleBoard fuel rnd g (seed a)) as [[g' seed']|]; simpl;
      [|done].
    intros [= <-]. eexists. split; [reflexivity|]. done.
Qed.


(** ** The board between two swaps *)

Lemma wf_writeBack_cols (n : nat) (gems : list Z) (row col : nat) (g : Grid)
    (index : nat) :
  wf_grid g → wf_grid (writeBack_cols n gems row col g index).1.
Proof.
  revert col g index. induction n as [|n IH]; intros col g index Hwf;
    [exact Hwf|].
  apply IH, wf_set_cell, Hwf.
Qed.

Lemma wf_writeBack_rows (n : nat) (gems : list Z) (row : nat) (g : Grid)
    (index : nat) :
  wf_grid g → wf_grid (writeBack_rows n gems row g index).1.
Proof.
  revert row g index. induction n as [|n IH]; intros row g index Hwf;
    [exact Hwf|].
  cbn [writeBack_rows].
  pose proof (wf_writeBack_cols COLS gems row 0 g index Hwf) as Hcols.
  destruct (writeBack_cols COLS gems row 0 g index) as [g' index'].
  apply IH, Hcols.
Qed.

(** [shuffleBoard] returns only with a board that has a valid move. *)
Lemma shuffleBoard_valid (fuel : nat) (rnd : nat → nat) (g g' : Grid)
    (seed seed' : nat) :
  wf_grid g → shuffleBoard fuel rnd g seed = Some (g', seed') →
  wf_grid g' ∧ (hasValidMoves g').1 = true.
Proof.
  revert g seed. induction fuel as [|fuel IH]; intros g seed Hwf;
    [discriminate|].
  cbn [shuffleBoard].
  destruct (fisherYates _ rnd _ seed) as [gems1 seed1].
  pose proof (wf_writeBack_rows ROWS gems1 0 g 0 Hwf) as Hwf1.
  destruct (writeBack_rows ROWS gems1 0 g 0) as [g1 index1].
  cbn [fst] in Hwf1.
  rewrite (hasValidMoves_spec g1 Hwf1).
  destruct (existsb (gives_match g1) candidates) eqn:Evalid.
  - intros [= <- <-]. split; [exact Hwf1|].
    rewrite (hasValidMoves_spec g1 Hwf1). exact Evalid.
  - apply IH, Hwf1.
Qed.

Lemma reshuffleIfStuck_valid_after (fuel : nat) (rnd : nat → nat)
    (st st' : State) :
  wf_grid (grid st) → reshuffleIfStuck fuel rnd st = Some st' →
  wf_grid (grid st') ∧ (hasValidMoves (grid st')).1 = true.
Proof.
  intros Hwf. unfold reshuffleIfStuck.
  rewrite (hasValidMoves_spec (grid st) Hwf).
  destruct (existsb (gives_match (grid st)) candidates) eqn:Evalid.
  - intros [= <-]. state_simpl. split; [exact Hwf|].
    rewrite (hasValidMoves_spec (grid st) Hwf). exact Evalid.
  - state_simpl.
    destruct (shuffleBoard fuel rnd (grid st) (seed st)) as [[g' seed']|]
      eqn:Eshuffle; rewrite ?bind_Some, ?bind_None; [|discriminate].
    intros [= <-]. state_simpl.
    exact (shuffleBoard_valid _ _ _ _ _ _ Hwf Eshuffle).
Qed.

(** Deadlock freedom: whenever [trySwap] returns, the board has the right
    shape and a valid move, so the next swap attempt starts from such a
    board. *)
Lemma trySwap_leaves_valid_move (fuel : nat) (rnd : nat → nat)
    (r1 c1 r2 c2 : nat) (st st' : State) :
  wf_grid (grid st) →
  trySwap fuel rnd r1 c1 r2 c2 st = Some st' →
  wf_grid (grid st') ∧ (hasValidMoves (grid st')).1 = true.
Proof.
  intros Hwf Htry.
  destruct (findAllMatches (swap (grid st) r1 c1 r2 c2)) as [|p l] eqn:E.
  - rewrite trySwap_rejected in Htry by exact E.
    destruct (reshuffleIfStuck _ _ _) as [st6|] eqn:E6;
      rewrite ?bind_Some, ?bind_None in Htry; [|discriminate].
    injection Htry as <-. state_simpl.
    apply reshuffleIfStuck_valid_after in E6; [exact E6|].
    state_simpl. by do 2 apply wf_swap.
  - assert (Hne : findAllMatches (swap (grid st) r1 c1 r2 c2) ≠ [])
      by (rewrite E; discriminate).
    rewrite trySwap_accepted in Htry by exact Hne.
    destruct (processMatches _ _ _ _) as [st4|] eqn:E4;
      rewrite ?bind_Some, ?bind_None in Htry; [|discriminate].
    destruct (checkLevelEnd st4) as [st5|] eqn:E5;
      rewrite ?bind_Some, ?bind_None in Htry; [|discriminate].
    destruct (reshuffleIfStuck fuel rnd st5) as [st6|] eqn:E6;
      rewrite ?bind_Some, ?bind_None in Htry; [|discriminate].
    injection Htry as <-. state_simpl.
    apply reshuffleIfStuck_valid_after in E6; [exact E6|].
    apply checkLevelEnd_fields in E5 as (-> & _).
    apply cascadeLoop_stable in E4 as (Hwf4 & _); [exact Hwf4| |left; exact Hne].
    state_simpl. by apply wf_swap.
Qed.

(** ** An accepted swap returns *)

(** The loop returns as soon as the match set is empty: with fuel for
    [k] passes, when the match set after the pass number [k] is the first
    empty one. *)
Lemma cascadeLoop_exact (fuel : nat) (rnd : nat → nat) (n : Z)
    (ms : list Pos) (st : State) (k : nat) :
  (k ≤ fuel)%nat →
  (passes k rnd n ms st).1.2 = [] →
  (∀ j, (j < k)%nat → (passes j rnd n ms st).1.2 ≠ []) →
  cascadeLoop fuel rnd n ms st
  = Some (setStatus MsgMatch3 (passes k rnd n ms st).2).
Proof.
  revert fuel n ms st. induction k as [|k IH]; intros fuel n ms st Hk Hnil Hne.
  - cbn [passes fst snd] in Hnil. subst ms.
    destruct fuel; reflexivity.
  - destruct fuel as [|fuel]; [lia|].
    assert (H0 : ms ≠ []) by (apply (Hne 0%nat); lia).
    destruct ms as [|p ms]; [done|].
    cbn [cascadeLoop]. change (0 <? length (p :: ms))%nat with true.
    cbv iota.
    change (passes (S k) rnd n (p :: ms) st)
      with (passes k rnd (n + 1)
              (findAllMatches (grid (cascadeStep rnd (n + 1) (p :: ms) st)))
              (cascadeStep rnd (n + 1) (p :: ms) st)) in Hnil |- *.
    apply IH; [lia|exact Hnil|].
    intros j Hj. apply (Hne (S j)). lia.
Qed.

(** A swap that produces a match, on a level of the table: when the
    cascade ends after [k] passes, for which there is fuel, and the final
    check for valid moves returns, [trySwap] returns, with the state the
    [k] passes leave, the modal [checkLevelEnd] schedules and the board
    the final check leaves. *)
Lemma trySwap_accepted_returns (fuel : nat) (rnd : nat → nat)
    (r1 c1 r2 c2 : nat) (st : State) (level : Level.t) (k : nat) :
  let ms := findAllMatches (swap (grid st) r1 c1 r2 c2) in
  let st4 := after_cascade k rnd ms (accepted_start r1 c1 r2 c2 st) in
  ms ≠ [] →
  find_level LEVELS (currentLevel st) = Some level →
  (k ≤ fuel)%nat →
  cascade_ends_after k rnd ms (accepted_start r1 c1 r2 c2 st) →
  is_Some (reshuffleIfStuck fuel rnd st4) →
  ∃ st6 st', reshuffleIfStuck fuel rnd st4 = Some st6
    ∧ trySwap fuel rnd r1 c1 r2 c2 st = Some st'
    ∧ (1 ≤ k)%nat
    ∧ grid st' = grid st6 ∧ seed st' = seed st6
    ∧ movesLeft st' = movesLeft st - 1
    ∧ score st' = score st4
    ∧ gemsCollected st' = gemsCollected st4
    ∧ totalGemsCollected st' = totalGemsCollected st4
    ∧ timers st' = timers (checkLevelEnd_level level st4)
    ∧ timers st4 = timers st
    ∧ isProcessing st' = false.
Proof.
  intros ms st4 Hne Hlevel Hk [Hnil Hfirst] [st6 E6].
  assert (Hk1 : (1 ≤ k)%nat).
  { destruct k; [|lia]. cbn [passes fst snd] in Hnil. done. }
  pose proof (cascadeLoop_exact fuel rnd 0 ms _ k Hk Hnil Hfirst) as Eloop.
  fold (after_cascade k rnd ms (accepted_start r1 c1 r2 c2 st)) in Eloop.
  fold st4 in Eloop.
  pose proof (cascadeLoop_frame _ _ _ _ _ _ (Z.le_refl 0) Eloop)
    as (F1 & F2 & F3 & _).
  unfold accepted_start in F1, F2, F3.
  state_simpl in F1. state_simpl in F2. state_simpl in F3.
  pose proof (checkLevelEnd_level_fields level st4)
    as (G1 & G2 & G3 & G4 & G5 & G6 & _).
  destruct (reshuffleIfStuck_same_board fuel rnd st4
              (checkLevelEnd_level level st4) st6)
    as (st6' & E6' & Hgrid & Hseed); [congruence|congruence|exact E6|].
  pose proof (reshuffleIfStuck_fields _ _ _ _ E6')
    as (R1 & R2 & R3 & R4 & R5 & _).
  exists st6, (set_isProcessing false st6'). split; [exact E6|]. split.
  - rewrite trySwap_accepted by exact Hne. fold ms.
    fold (accepted_start r1 c1 r2 c2 st).
    unfold processMatches. rewrite Eloop, bind_Some.
    unfold checkLevelEnd. rewrite F3, Hlevel, !bind_Some.
    rewrite E6', bind_Some. reflexivity.
  - state_simpl. split_and!; first [reflexivity|congruence].
Qed.

(** ** Move conservation *)

(** C1. For a swap attempt on two cells of a board that has a valid move,
    as every board has on which the engine waits for a click: when the
    swap produces no match, [trySwap] returns with the board exactly as
    it was and with the score, the moves left, the per-kind counters and
    the total unchanged. When it produces a match, every returning call
    leaves exactly one move less; and the call does return, with one move
    less, on a level of the table whenever the cascade ends after some
    number [k] of passes for which there is fuel and the final check for
    valid moves returns, whatever [k] is. *)
Theorem trySwap_move_conservation (fuel : nat) (rnd : nat → nat)
    (r1 c1 r2 c2 : nat) (st : State) :
  wf_grid (grid st) → (hasValidMoves (grid st)).1 = true →
  (r1 < ROWS)%nat → (c1 < COLS)%nat → (r2 < ROWS)%nat → (c2 < COLS)%nat →
  let ms := findAllMatches (swap (grid st) r1 c1 r2 c2) in
  (ms = [] →
     ∃ st', trySwap fuel rnd r1 c1 r2 c2 st = Some st'
       ∧ grid st' = grid st ∧ score st' = score st
       ∧ movesLeft st' = movesLeft st
       ∧ gemsCollected st' = gemsCollected st
       ∧ totalGemsCollected st' = totalGemsCollected st)
  ∧ (ms ≠ [] →
     (∀ st', trySwap fuel rnd r1 c1 r2 c2 st = Some st' →
        movesLeft st' = movesLeft st - 1)
     ∧ ∀ level k,
         find_level LEVELS (currentLevel st) = Some level →
         (k ≤ fuel)%nat →
         cascade_ends_after k rnd ms (accepted_start r1 c1 r2 c2 st) →
         is_Some (reshuffleIfStuck fuel rnd
                    (after_cascade k rnd ms (accepted_start r1 c1 r2 c2 st))) →
         ∃ st', trySwap fuel rnd r1 c1 r2 c2 st = Some st'
           ∧ (1 ≤ k)%nat
           ∧ movesLeft st' = movesLeft st - 1).
Proof.
  intros Hwf Hvalid H1 H2 H3 H4 ms. split.
  - intros Hnil. rewrite trySwap_rejected by exact Hnil.
    rewrite swap_swap by assumption.
    rewrite reshuffleIfStuck_valid by assumption.
    rewrite bind_Some.
    eexists. split; [reflexivity|]. state_simpl. split_and!; reflexivity.
  - intros Hne. split.
    + intros st' Htry.
      destruct (trySwap_accepted_fields fuel rnd r1 c1 r2 c2 st st' Hne Htry)
        as (Hm & _). exact Hm.
    + intros level k Hlevel Hk Hends Hshuffle.
      destruct (trySwap_accepted_returns fuel rnd r1 c1 r2 c2 st level k
                  Hne Hlevel Hk Hends Hshuffle)
        as (st6 & st' & _ & Htry & Hk1 & _ & _ & Hm & _).
      exists st'. split; [exact Htry|]. split; [exact Hk1|exact Hm].
Qed.

(** An instance: on [board_play], a rejected swap, an accepted swap with
    a cascade of one pass and one with a cascade of two passes. *)
Lemma trySwap_move_conservation_witness :
  wf_grid (grid (level1_state board_play 20))
  ∧ (hasValidMoves (grid (level1_state board_play 20))).1 = true
  ∧ (∃ st', trySwap 3 (draws []) 0 0 0 1 (level1_state board_play 20)
            = Some st'
       ∧ grid st' = board_play ∧ movesLeft st' = 20 ∧ score st' = 0)
  ∧ (∃ st', trySwap 3 (draws [5; 0; 5]%nat) 1 0 1 1
              (level1_state board_play 20) = Some st'
       ∧ movesLeft st' = 19)
  ∧ (∃ st', trySwap 3 (draws [1; 1; 1; 5; 0; 5]%nat) 1 0 1 1
              (level1_state board_play 20) = Some st'
       ∧ movesLeft st' = 19).
Proof.
  assert (Hwf : wf_grid (grid (level1_state board_play 20)))
    by (by apply wf_gridb_spec; vm_compute).
  assert (Hvalid : (hasValidMoves (grid (level1_state board_play 20))).1 = true)
    by (by vm_compute).
  assert (H1 : (1 < ROWS)%nat) by (vm_compute; lia).
  assert (H0 : (0 < ROWS)%nat) by (vm_compute; lia).
  assert (H2 : (0 < COLS)%nat) by (vm_compute; lia).
  assert (H3 : (1 < COLS)%nat) by (vm_compute; lia).
  assert (Hlevel : find_level LEVELS (currentLevel (level1_state board_play 20))
                   = Some level1) by reflexivity.
  split; [exact Hwf|]. split; [exact Hvalid|]. split; [|split].
  - destruct (trySwap_move_conservation 3 (draws []) 0 0 0 1
                (level1_state board_play 20) Hwf Hvalid H0 H2 H0 H3)
      as (Hrejected & _).
    destruct Hrejected as (st' & E & Hg & Hs & Hm & _); [by vm_compute|].
    exists st'. split_and!; [exact E|exact Hg|exact Hm|exact Hs].
  - destruct (trySwap_move_conservation 3 (draws [5; 0; 5]%nat) 1 0 1 1
                (level1_state board_play 20) Hwf Hvalid H1 H2 H1 H3)
      as (_ & Haccepted).
    destruct Haccepted as (_ & Hreturns); [vm_compute; discriminate|].
    destruct (Hreturns level1 1%nat Hlevel) as (st' & E & _ & Hm).
    + lia.
    + split; [by vm_compute|].
      intros [|j] Hj; [vm_compute; discriminate|lia].
    + eexists. by vm_compute.
    + exists st'. split; [exact E|exact Hm].
  - destruct (trySwap_move_conservation 3 (draws [1; 1; 1; 5; 0; 5]%nat)
                1 0 1 1 (level1_state board_play 20) Hwf Hvalid H1 H2 H1 H3)
      as (_ & Haccepted).
    destruct Haccepted as (_ & Hreturns); [vm_compute; discriminate|].
    destruct (Hreturns level1 2%nat Hlevel) as (st' & E & _ & Hm).
    + lia.
    + split; [by vm_compute|].
      intros [|[|j]] Hj; [vm_compute; discriminate..|lia].
    + eexists. by vm_compute.
    + exists st'. split; [exact E|exact Hm].
Defined.

(** ** The move budget is not checked *)

(** What a returning accepted swap made with no move left has done. *)
Lemma trySwap_spent_budget (fuel : nat) (rnd : nat → nat)
    (r1 c1 r2 c2 : nat) (st st' : State) :
  movesLeft st = 0 →
  findAllMatches (swap (grid st) r1 c1 r2 c2) ≠ [] →
  trySwap fuel rnd r1 c1 r2 c2 st = Some st' →
  movesLeft st' = -1
  ∧ score st + 30 ≤ score st'
  ∧ totalGemsCollected st + 3 ≤ totalGemsCollected st'
  ∧ (∃ level, find_level LEVELS (currentLevel st) = Some level
       ∧ (timers st' = timers st ++ [ShowLevelComplete level]
          ∨ timers st' = timers st ++ [ShowLevelFailed level]))
  ∧ (∀ m, ∃ st'',
       trySwap fuel rnd r1 c1 r2 c2 (set_movesLeft m st) = Some st''
       ∧ movesLeft st'' = m - 1
       ∧ grid st'' = grid st' ∧ score st'' = score st'
       ∧ gemsCollected st'' = gemsCollected st'
       ∧ totalGemsCollected st'' = totalGemsCollected st').
Proof.
  intros Hzero Hne Htry.
  pose proof (trySwap_accepted_fields _ _ _ _ _ _ _ _ Hne Htry)
    as (Hm & Hs & Ht).
  pose proof (findAllMatches_length _ Hne) as Hlen.
  split; [lia|]. split; [unfold POINTS_PER_GEM in Hs; lia|]. split; [lia|].
  rewrite trySwap_accepted in Htry by exact Hne.
  set (ms := findAllMatches (swap (grid st) r1 c1 r2 c2)) in *.
  set (X := setStatus MsgNiceMatch
              (set_grid (swap (grid st) r1 c1 r2 c2)
                 (set_selectedGem None (set_isProcessing true st)))).
  change (setStatus MsgNiceMatch
            (set_movesLeft (movesLeft st - 1)
               (set_grid (swap (grid st) r1 c1 r2 c2)
                  (set_selectedGem None (set_isProcessing true st)))))
    with (set_movesLeft (movesLeft st - 1) X) in Htry.
  unfold processMatches in Htry. rewrite cascadeLoop_set_movesLeft in Htry.
  destruct (cascadeLoop fuel rnd 0 ms X) as [p|] eqn:Ep;
    rewrite ?option_fmap_Some, ?option_fmap_None, ?bind_Some, ?bind_None
      in Htry; [|discriminate].
  pose proof (cascadeLoop_frame _ _ _ _ _ _ (Z.le_refl 0) Ep)
    as (_ & Ptimers & Plevel & _).
  state_simpl in Ptimers. state_simpl in Plevel.
  unfold checkLevelEnd in Htry. state_simpl in Htry.
  destruct (find_level LEVELS (currentLevel p)) as [level|] eqn:Elevel;
    rewrite ?bind_Some, ?bind_None in Htry; [|discriminate].
  set (st5 := checkLevelEnd_level level (set_movesLeft (movesLeft st - 1) p))
    in *.
  destruct (reshuffleIfStuck fuel rnd st5) as [st6|] eqn:E6;
    rewrite ?bind_Some, ?bind_None in Htry; [|discriminate].
  injection Htry as <-.
  pose proof (reshuffleIfStuck_fields _ _ _ _ E6) as (R1 & R2 & R3 & R4 & R5 & _).
  pose proof (checkLevelEnd_level_fields level
                (set_movesLeft (movesLeft st - 1) p))
    as (G1 & G2 & G3 & G4 & G5 & G6 & _).
  fold st5 in G1, G2, G3, G4, G5, G6.
  state_simpl in G1. state_simpl in G2. state_simpl in G3.
  state_simpl in G4. state_simpl in G5. state_simpl in G6.
  split.
  - exists level. split; [rewrite <- Elevel, Plevel; reflexivity|].
    state_simpl. rewrite R5. unfold st5, checkLevelEnd_level.
    change (timers st) with (timers X). rewrite <- Ptimers.
    destruct (checkAllGoalsComplete _ _) eqn:Egoals; [by left|].
    state_simpl. rewrite Hzero.
    change (0 - 1 <=? 0) with true. cbv iota. by right.
  - intros m. rewrite trySwap_accepted by exact Hne.
    change (grid (set_movesLeft m st)) with (grid st). fold ms.
    change (setStatus MsgNiceMatch
              (set_movesLeft (movesLeft (set_movesLeft m st) - 1)
                 (set_grid (swap (grid st) r1 c1 r2 c2)
                    (set_selectedGem None
                       (set_isProcessing true (set_movesLeft m st))))))
      with (set_movesLeft (m - 1) X).
    unfold processMatches.
    rewrite cascadeLoop_set_movesLeft, Ep, option_fmap_Some, bind_Some.
    unfold checkLevelEnd. state_simpl. rewrite Elevel, !bind_Some.
    set (st5m := checkLevelEnd_level level (set_movesLeft (m - 1) p)).
    pose proof (checkLevelEnd_level_fields level (set_movesLeft (m - 1) p))
      as (K1 & K2 & K3 & K4 & K5 & K6 & _).
    fold st5m in K1, K2, K3, K4, K5, K6.
    state_simpl in K1. state_simpl in K2. state_simpl in K3.
    state_simpl in K4. state_simpl in K5. state_simpl in K6.
    destruct (reshuffleIfStuck_same_board fuel rnd st5 st5m st6)
      as (st6m & E6m & Hgrid & Hseed); [congruence|congruence|exact E6|].
    rewrite E6m, bind_Some. eexists. split; [reflexivity|].
    pose proof (reshuffleIfStuck_fields _ _ _ _ E6m)
      as (S1 & S2 & S3 & S4 & _).
    state_simpl. split_and!; congruence.
Qed.

(** C10. [trySwap] does not look at the moves left before it accepts a
    swap. From a state with [movesLeft = 0] on a level of the table, a
    swap that produces a match is carried out in full: whenever the
    cascade ends after some number [k] of passes for which there is fuel
    and the final check for valid moves returns, [trySwap] returns; the
    score and the counters are those the [k] passes of the cascade leave,
    at least 30 points and three gems more than before; the moves left
    are [-1]; and [checkLevelEnd], which runs after the cascade, has
    scheduled the completion or the failure modal. The same call from the
    same state with any other number [m] of moves left returns with the
    same board, score and counters and with [m - 1] moves left. *)
Theorem trySwap_ignores_move_budget (fuel : nat) (rnd : nat → nat)
    (r1 c1 r2 c2 : nat) (st : State) (level : Level.t) (k : nat) :
  let ms := findAllMatches (swap (grid st) r1 c1 r2 c2) in
  let st4 := after_cascade k rnd ms (accepted_start r1 c1 r2 c2 st) in
  movesLeft st = 0 →
  ms ≠ [] →
  find_level LEVELS (currentLevel st) = Some level →
  (k ≤ fuel)%nat →
  cascade_ends_after k rnd ms (accepted_start r1 c1 r2 c2 st) →
  is_Some (reshuffleIfStuck fuel rnd st4) →
  ∃ st', trySwap fuel rnd r1 c1 r2 c2 st = Some st'
    ∧ movesLeft st' = -1
    ∧ (1 ≤ k)%nat
    ∧ score st' = score st4
    ∧ gemsCollected st' = gemsCollected st4
    ∧ totalGemsCollected st' = totalGemsCollected st4
    ∧ score st + 30 ≤ score st'
    ∧ totalGemsCollected st + 3 ≤ totalGemsCollected st'
    ∧ (timers st' = timers st ++ [ShowLevelComplete level]
       ∨ timers st' = timers st ++ [ShowLevelFailed level])
    ∧ (∀ m, ∃ st'',
         trySwap fuel rnd r1 c1 r2 c2 (set_movesLeft m st) = Some st''
         ∧ movesLeft st'' = m - 1
         ∧ grid st'' = grid st' ∧ score st'' = score st'
         ∧ gemsCollected st'' = gemsCollected st'
         ∧ totalGemsCollected st'' = totalGemsCollected st').
Proof.
  intros ms st4 Hzero Hne Hlevel Hk Hends Hshuffle.
  destruct (trySwap_accepted_returns fuel rnd r1 c1 r2 c2 st level k
              Hne Hlevel Hk Hends Hshuffle)
    as (st6 & st' & _ & Htry & Hk1 & _ & _ & _ & Hs & Hgc & Ht & _).
  fold ms st4 in Hs, Hgc, Ht.
  destruct (trySwap_spent_budget fuel rnd r1 c1 r2 c2 st st' Hzero Hne Htry)
    as (Hm & Hscore & Htotal & (level' & Hlevel' & Htimers) & Hany).
  assert (level' = level) as -> by congruence.
  exists st'. split; [exact Htry|]. split; [exact Hm|]. split; [exact Hk1|].
  split; [exact Hs|]. split; [exact Hgc|]. split; [exact Ht|].
  split; [exact Hscore|]. split; [exact Htotal|].
  split; [exact Htimers|exact Hany].
Qed.

(** An instance: level 2 with 600 points and no move left; the swap of
    [board_play] is made all the same and brings 30 points. *)
Lemma trySwap_ignores_move_budget_witness :
  movesLeft state_spent = 0
  ∧ findAllMatches (swap (grid state_spent) 1 0 1 1) ≠ []
  ∧ ∃ st', trySwap 3 (draws [5; 0; 5]%nat) 1 0 1 1 state_spent = Some st'
      ∧ movesLeft st' = -1
      ∧ score st' = 630
      ∧ totalGemsCollected st' = 63
      ∧ timers st' = [ShowLevelFailed level2; ShowLevelFailed level2].
Proof.
  assert (H1 : movesLeft state_spent = 0) by reflexivity.
  assert (H2 : findAllMatches (swap (grid state_spent) 1 0 1 1) ≠ [])
    by (vm_compute; discriminate).
  assert (Hlevel : find_level LEVELS (currentLevel state_spent) = Some level2)
    by reflexivity.
  assert (Hk : (1 ≤ 3)%nat) by lia.
  assert (Hends : cascade_ends_after 1 (draws [5; 0; 5]%nat)
                    (findAllMatches (swap (grid state_spent) 1 0 1 1))
                    (accepted_start 1 0 1 1 state_spent)).
  { split; [by vm_compute|].
    intros [|j] Hj; [vm_compute; discriminate|lia]. }
  assert (Hshuffle : is_Some (reshuffleIfStuck 3 (draws [5; 0; 5]%nat)
            (after_cascade 1 (draws [5; 0; 5]%nat)
               (findAllMatches (swap (grid state_spent) 1 0 1 1))
               (accepted_start 1 0 1 1 state_spent))))
    by (eexists; by vm_compute).
  destruct (trySwap_ignores_move_budget 3 (draws [5; 0; 5]%nat) 1 0 1 1
              state_spent level2 1 H1 H2 Hlevel Hk Hends Hshuffle)
    as (st' & Htry & Hm & _ & Hs & _ & Ht & _).
  split; [exact H1|]. split; [exact H2|].
  exists st'. split; [exact Htry|]. split; [exact Hm|].
  split; [rewrite Hs; by vm_compute|].
  split; [rewrite Ht; by vm_compute|].
  assert (Hrun : trySwap 3 (draws [5; 0; 5]%nat) 1 0 1 1 state_spent
          = Some ltac:(
              let v := eval vm_compute in
                (trySwap 3 (draws [5; 0; 5]%nat) 1 0 1 1 state_spent) in
              match v with Some ?s => exact s end))
    by (by vm_compute).
  rewrite Hrun in Htry. injection Htry as <-. reflexivity.
Defined.

(** * Further properties of the code *)

(** ** Adjacency, swaps and the match set *)

Lemma isAdjacent_cases (pos1 pos2 : Pos) :
  isAdjacent pos1 pos2 = true
  ↔ pos2 = (pos1.1, pos1.2 + 1)%nat ∨ pos2 = (pos1.1 + 1, pos1.2)%nat
    ∨ pos1 = (pos2.1, pos2.2 + 1)%nat ∨ pos1 = (pos2.1 + 1, pos2.2)%nat.
Proof.
  destruct pos1 as [r1 c1], pos2 as [r2 c2]. unfold isAdjacent. simpl.
  rewrite orb_true_iff, !andb_true_iff, !Z.eqb_eq. split.
  - intros [[H1 H2]|[H1 H2]].
    + destruct (decide (r1 < r2)%nat).
      * right; left. f_equal; lia.
      * right; right; right. f_equal; lia.
    + destruct (decide (c1 < c2)%nat).
      * left. f_equal; lia.
      * right; right; left. f_equal; lia.
  - intros [H|[H|[H|H]]]; simplify_eq; lia.
Qed.

(** X1. Two positions are adjacent for [isAdjacent] exactly when their
    Manhattan distance is 1, that is when one is the right, lower, left or
    upper neighbour of the other; the test is symmetric and no position is
    adjacent to itself. *)
Theorem isAdjacent_manhattan (pos1 pos2 : Pos) :
  (isAdjacent pos1 pos2 = true
   ↔ Z.abs (Z.of_nat pos1.1 - Z.of_nat pos2.1)
     + Z.abs (Z.of_nat pos1.2 - Z.of_nat pos2.2) = 1)
  ∧ (isAdjacent pos1 pos2 = true
     ↔ pos2 = (pos1.1, pos1.2 + 1)%nat ∨ pos2 = (pos1.1 + 1, pos1.2)%nat
       ∨ pos1 = (pos2.1, pos2.2 + 1)%nat ∨ pos1 = (pos2.1 + 1, pos2.2)%nat)
  ∧ isAdjacent pos1 pos2 = isAdjacent pos2 pos1
  ∧ isAdjacent pos1 pos1 = false.
Proof.
  split_and!.
  - destruct pos1 as [r1 c1], pos2 as [r2 c2]. unfold isAdjacent. simpl.
    rewrite orb_true_iff, !andb_true_iff, !Z.eqb_eq. lia.
  - apply isAdjacent_cases.
  - destruct pos1 as [r1 c1], pos2 as [r2 c2]. unfold isAdjacent. simpl.
    replace (Z.abs (Z.of_nat r2 - Z.of_nat r1))
      with (Z.abs (Z.of_nat r1 - Z.of_nat r2)) by lia.
    replace (Z.abs (Z.of_nat c2 - Z.of_nat c1))
      with (Z.abs (Z.of_nat c1 - Z.of_nat c2)) by lia.
    done.
  - destruct pos1 as [r1 c1]. unfold isAdjacent. simpl.
    rewrite !Z.sub_diag. done.
Qed.

(** X2. On a board of the right shape the match set of [findAllMatches]
    has no repetitions and holds exactly the positions of the board that
    lie in a run of three or more equal cells along their row or column;
    it is empty exactly when no three equal cells stand side by side, and
    otherwise it has at least three positions. *)
Theorem findAllMatches_exact (g : Grid) :
  wf_grid g →
  NoDup (findAllMatches g)
  ∧ (∀ r c, (r, c) ∈ findAllMatches g ↔ in_run g r c)
  ∧ (∀ r c, (r, c) ∈ findAllMatches g → (r < ROWS)%nat ∧ (c < COLS)%nat)
  ∧ (findAllMatches g = []
     ↔ (∀ r i, (r < ROWS)%nat → ¬ hwin g r i)
       ∧ (∀ i c, (c < COLS)%nat → ¬ vwin g i c))
  ∧ (findAllMatches g ≠ [] → (3 ≤ length (findAllMatches g))%nat).
Proof.
  intros _. split_and!.
  - apply NoDup_findAllMatches.
  - apply elem_of_findAllMatches.
  - apply findAllMatches_in_range.
  - apply findAllMatches_nil.
  - apply findAllMatches_length.
Qed.

(** An instance: [board_play] after its first valid move. *)
Lemma findAllMatches_exact_witness :
  wf_grid (swap board_play 1 0 1 1)
  ∧ findAllMatches (swap board_play 1 0 1 1) = [(0, 1); (1, 1); (2, 1)]%nat
  ∧ in_run (swap board_play 1 0 1 1) 2 1
  ∧ ¬ in_run (swap board_play 1 0 1 1) 3 1.
Proof.
  assert (Hwf : wf_grid (swap board_play 1 0 1 1))
    by (by apply wf_gridb_spec; vm_compute).
  assert (Hms : findAllMatches (swap board_play 1 0 1 1)
                = [(0, 1); (1, 1); (2, 1)]%nat) by (by vm_compute).
  destruct (findAllMatches_exact _ Hwf) as (_ & Hiff & _).
  split; [exact Hwf|]. split; [exact Hms|]. split.
  - apply Hiff. rewrite Hms. rewrite !elem_of_cons. right. right. by left.
  - intros Hrun. apply Hiff in Hrun. rewrite Hms in Hrun.
    rewrite !elem_of_cons, elem_of_nil in Hrun.
    destruct Hrun as [E|[E|[E|[]]]]; discriminate E.
Defined.

Lemma swap_comm (g : Grid) (r1 c1 r2 c2 : nat) :
  wf_grid g → (r1 < ROWS)%nat → (c1 < COLS)%nat →
  (r2 < ROWS)%nat → (c2 < COLS)%nat →
  swap g r1 c1 r2 c2 = swap g r2 c2 r1 c1.
Proof.
  intros Hwf H1 H2 H3 H4. apply grid_ext; auto using wf_swap.
  intros r c Hr Hc. rewrite !cell_swap by assumption.
  repeat case_decide; simplify_eq; done.
Qed.

(** X3. On a board of the right shape and for two of its cells, [swap]
    exchanges the contents of the two cells and leaves every other cell;
    a second [swap] of the same cells restores the board, the order of
    the two cells does not matter, and a cell swapped with itself is
    unchanged. *)
Theorem swap_exchanges (g : Grid) (r1 c1 r2 c2 : nat) :
  wf_grid g → (r1 < ROWS)%nat → (c1 < COLS)%nat →
  (r2 < ROWS)%nat → (c2 < COLS)%nat →
  wf_grid (swap g r1 c1 r2 c2)
  ∧ cell (swap g r1 c1 r2 c2) r1 c1 = cell g r2 c2
  ∧ cell (swap g r1 c1 r2 c2) r2 c2 = cell g r1 c1
  ∧ (∀ r c, (r, c) ≠ (r1, c1) → (r, c) ≠ (r2, c2) →
       cell (swap g r1 c1 r2 c2) r c = cell g r c)
  ∧ swap (swap g r1 c1 r2 c2) r1 c1 r2 c2 = g
  ∧ swap g r1 c1 r2 c2 = swap g r2 c2 r1 c1
  ∧ swap g r1 c1 r1 c1 = g.
Proof.
  intros Hwf H1 H2 H3 H4. split_and!.
  - by apply wf_swap.
  - rewrite cell_swap by assumption.
    repeat case_decide; simplify_eq; done.
  - rewrite cell_swap by assumption. by rewrite decide_True.
  - intros r c Hne1 Hne2. unfold swap.
    rewrite !cell_set_cell_ne by congruence. done.
  - by apply swap_swap.
  - by apply swap_comm.
  - apply grid_ext; auto using wf_swap.
    intros r c Hr Hc. rewrite cell_swap by assumption.
    repeat case_decide; simplify_eq; done.
Qed.

(** An instance: the first two gems of the second row of [board_play]. *)
Lemma swap_exchanges_witness :
  wf_grid board_play
  ∧ (1 < ROWS)%nat ∧ (0 < COLS)%nat ∧ (1 < ROWS)%nat ∧ (1 < COLS)%nat
  ∧ cell (swap board_play 1 0 1 1) 1 0 = 4
  ∧ cell (swap board_play 1 0 1 1) 1 1 = 1
  ∧ swap (swap board_play 1 0 1 1) 1 0 1 1 = board_play.
Proof.
  assert (Hwf : wf_grid board_play) by (by apply wf_gridb_spec; vm_compute).
  assert (H1 : (1 < ROWS)%nat) by (vm_compute; lia).
  assert (H2 : (0 < COLS)%nat) by (vm_compute; lia).
  assert (H3 : (1 < COLS)%nat) by (vm_compute; lia).
  destruct (swap_exchanges board_play 1 0 1 1 Hwf H1 H2 H1 H3)
    as (_ & _ & _ & _ & Hback & _).
  split_and!; [exact Hwf|exact H1|exact H2|exact H1|exact H3|
               by vm_compute|by vm_compute|exact Hback].
Defined.

(** ** Valid moves *)

Lemma elem_of_cell_candidates (row col : nat) (m : Move) :
  In m (cell_candidates row col)
  ↔ row1 m = row ∧ col1 m = col
    ∧ ((row2 m = row ∧ col2 m = (col + 1)%nat ∧ (col + 1 < COLS)%nat)
       ∨ (row2 m = (row + 1)%nat ∧ col2 m = col ∧ (row + 1 < ROWS)%nat)).
Proof.
  unfold cell_candidates. rewrite in_app_iff.
  destruct m as [a b c d]. cbn [row1 col1 row2 col2].
  destruct (Nat.ltb_spec col (COLS - 1)), (Nat.ltb_spec row (ROWS - 1));
    cbn [In]; split; intros Hm;
    repeat match goal with
           | H : _ ∨ _ |- _ => destruct H
           | H : _ ∧ _ |- _ => destruct H
           | H : False |- _ => destruct H
           | H : mkMove _ _ _ _ = mkMove _ _ _ _ |- _ => injection H as <- <- <- <-
           end;
    subst; try lia;
    first [ split_and!; try reflexivity; (left + right); split_and!;
            (reflexivity || lia)
          | left; left; reflexivity
          | right; left; reflexivity ].
Qed.

(** The candidates are the pairs made of a cell of the board and its right
    or lower neighbour on the board. *)
Lemma elem_of_candidates (m : Move) :
  In m candidates
  ↔ (row1 m < ROWS)%nat ∧ (col1 m < COLS)%nat
    ∧ ((row2 m = row1 m ∧ col2 m = (col1 m + 1)%nat ∧ (col2 m < COLS)%nat)
       ∨ (row2 m = (row1 m + 1)%nat ∧ col2 m = col1 m ∧ (row2 m < ROWS)%nat)).
Proof.
  unfold candidates. rewrite in_flat_map. split.
  - intros (row & Hrow & Hm). apply in_flat_map in Hm as (col & Hcol & Hm).
    apply in_seq in Hrow, Hcol. apply elem_of_cell_candidates in Hm.
    destruct Hm as (-> & -> & Hm). split_and!; [lia..|].
    destruct Hm as [(-> & -> & ?)|(-> & -> & ?)]; [left|right]; by split_and!.
  - intros (Hr & Hc & Hm). exists (row1 m). split; [apply in_seq; lia|].
    apply in_flat_map. exists (col1 m). split; [apply in_seq; lia|].
    apply elem_of_cell_candidates. split_and!; [done..|].
    destruct Hm as [(E1 & E2 & ?)|(E1 & E2 & ?)]; [left|right];
      split_and!; (done || lia).
Qed.

(** A board of the right shape has a candidate whose swap gives a match
    exactly when two adjacent cells of the board, in whichever order and
    direction, can be swapped into a match. *)
Lemma existsb_candidates (g : Grid) :
  wf_grid g →
  existsb (gives_match g) candidates = true
  ↔ ∃ r1 c1 r2 c2,
      (r1 < ROWS)%nat ∧ (c1 < COLS)%nat ∧ (r2 < ROWS)%nat ∧ (c2 < COLS)%nat
      ∧ isAdjacent (r1, c1) (r2, c2) = true
      ∧ findAllMatches (swap g r1 c1 r2 c2) ≠ [].
Proof.
  intros Hwf. rewrite existsb_exists. split.
  - intros ([r1 c1 r2 c2] & Hin & Hm).
    apply elem_of_candidates in Hin. cbn in Hin.
    unfold gives_match in Hm. cbn [row1 col1 row2 col2] in Hm.
    apply Nat.ltb_lt in Hm.
    exists r1, c1, r2, c2.
    destruct Hin as (Hr & Hc & [(-> & -> & ?)|(-> & -> & ?)]).
    + split_and!; [done..| |intros E; rewrite E in Hm; simpl in Hm; lia].
      apply isAdjacent_cases. by left.
    + split_and!; [done..| |intros E; rewrite E in Hm; simpl in Hm; lia].
      apply isAdjacent_cases. right. by left.
  - intros (r1 & c1 & r2 & c2 & H1 & H2 & H3 & H4 & Hadj & Hne).
    assert (Hgm : ∀ a b c d, findAllMatches (swap g a b c d) ≠ [] →
                   gives_match g (mkMove a b c d) = true).
    { intros a b c d Hn. unfold gives_match. cbn [row1 col1 row2 col2].
      destruct (findAllMatches (swap g a b c d)); [done|].
      apply Nat.ltb_lt. simpl. lia. }
    apply isAdjacent_cases in Hadj. cbn in Hadj.
    destruct Hadj as [E|[E|[E|E]]]; simplify_eq.
    + exists (mkMove r1 c1 r1 (c1 + 1)). split; [|by apply Hgm].
      apply elem_of_candidates. cbn. split_and!; [done..|]. left. done.
    + exists (mkMove r1 c1 (r1 + 1) c1). split; [|by apply Hgm].
      apply elem_of_candidates. cbn. split_and!; [done..|]. right. done.
    + exists (mkMove r2 c2 r2 (c2 + 1)). split.
      * apply elem_of_candidates. cbn. split_and!; [done..|]. left. done.
      * apply Hgm. by rewrite swap_comm.
    + exists (mkMove r2 c2 (r2 + 1) c2). split.
      * apply elem_of_candidates. cbn. split_and!; [done..|]. right. done.
      * apply Hgm. by rewrite swap_comm.
Qed.

(** X4. On a board of the right shape [hasValidMoves] answers [true]
    exactly when some two adjacent cells of the board can be swapped into
    a board with a match, whichever of the two is named first; and it
    hands the board back as it found it. *)
Theorem hasValidMoves_exact (g : Grid) :
  wf_grid g →
  ((hasValidMoves g).1 = true
   ↔ ∃ r1 c1 r2 c2,
       (r1 < ROWS)%nat ∧ (c1 < COLS)%nat ∧ (r2 < ROWS)%nat ∧ (c2 < COLS)%nat
       ∧ isAdjacent (r1, c1) (r2, c2) = true
       ∧ findAllMatches (swap g r1 c1 r2 c2) ≠ [])
  ∧ (hasValidMoves g).2 = g.
Proof.
  intros Hwf. rewrite (hasValidMoves_spec g Hwf). cbn [fst snd].
  split; [by apply existsb_candidates|reflexivity].
Qed.

(** An instance: [board_stuck] has no such pair of cells. *)
Lemma hasValidMoves_exact_witness :
  wf_grid board_stuck
  ∧ (hasValidMoves board_stuck).1 = false
  ∧ ¬ ∃ r1 c1 r2 c2,
       (r1 < ROWS)%nat ∧ (c1 < COLS)%nat ∧ (r2 < ROWS)%nat ∧ (c2 < COLS)%nat
       ∧ isAdjacent (r1, c1) (r2, c2) = true
       ∧ findAllMatches (swap board_stuck r1 c1 r2 c2) ≠ [].
Proof.
  assert (Hwf : wf_grid board_stuck) by (by apply wf_gridb_spec; vm_compute).
  assert (Hno : (hasValidMoves board_stuck).1 = false) by (by vm_compute).
  split; [exact Hwf|]. split; [exact Hno|].
  intros Hex. apply (hasValidMoves_exact board_stuck Hwf) in Hex.
  rewrite Hno in Hex. discriminate.
Defined.

(** The fields the level check and the reshuffle leave alone, beyond
    those of [checkLevelEnd_fields] and [reshuffleIfStuck_fields]. *)
Lemma checkLevelEnd_more_fields (st st' : State) :
  checkLevelEnd st = Some st' →
  isProcessing st' = isProcessing st ∧ currentLevel st' = currentLevel st
  ∧ totalMoves st' = totalMoves st ∧ levelProgress st' = levelProgress st.
Proof.
  unfold checkLevelEnd.
  destruct (find_level LEVELS (currentLevel st)) as [level|];
    rewrite ?bind_Some, ?bind_None; [|discriminate].
  intros [= <-]. unfold checkLevelEnd_level.
  destruct (checkAllGoalsComplete _ _); [by split_and!|].
  destruct (movesLeft st <=? 0); by split_and!.
Qed.

Lemma reshuffleIfStuck_more_fields (fuel : nat) (rnd : nat → nat)
    (st st' : State) :
  reshuffleIfStuck fuel rnd st = Some st' →
  isProcessing st' = isProcessing st ∧ currentLevel st' = currentLevel st
  ∧ totalMoves st' = totalMoves st ∧ levelProgress st' = levelProgress st.
Proof.
  unfold reshuffleIfStuck.
  destruct (hasValidMoves (grid st)) as [[] g]; cbv beta iota zeta.
  - intros [= <-]. by split_and!.
  - state_simpl.
    destruct (shuffleBoard fuel rnd g (seed st)) as [[g' seed']|];
      rewrite ?bind_Some, ?bind_None; [|discriminate].
    intros [= <-]. by split_and!.
Qed.

Lemma cascadeStep_more_fields (rnd : nat → nat) (n : Z) (ms : list Pos)
    (st : State) :
  let st' := cascadeStep rnd n ms st in
  totalMoves st' = totalMoves st ∧ levelProgress st' = levelProgress st.
Proof.
  unfold cascadeStep.
  destruct (collectGems _ _ _ _) as [gc total].
  destruct (1 <? n); state_simpl;
    destruct (fillEmptySpaces _ _ _) as [g3 seed']; by split_and!.
Qed.

Lemma cascadeLoop_more_fields (fuel : nat) (rnd : nat → nat) (n : Z)
    (ms : list Pos) (st st' : State) :
  cascadeLoop fuel rnd n ms st = Some st' →
  totalMoves st' = totalMoves st ∧ levelProgress st' = levelProgress st.
Proof.
  revert n ms st. induction fuel as [|fuel IH]; intros n ms st;
    cbn [cascadeLoop].
  - destruct (0 <? length ms)%nat; [discriminate|]. by intros [= <-].
  - destruct (0 <? length ms)%nat; [|by intros [= <-]].
    intros Hloop. apply IH in Hloop as (-> & ->).
    apply cascadeStep_more_fields.
Qed.

(** [trySwap] returns with the selection cleared and the engine idle, on
    the same level and with the stored progress untouched. *)
Lemma trySwap_idle (fuel : nat) (rnd : nat → nat) (r1 c1 r2 c2 : nat)
    (st st' : State) :
  trySwap fuel rnd r1 c1 r2 c2 st = Some st' →
  isProcessing st' = false ∧ selectedGem st' = None
  ∧ currentLevel st' = currentLevel st ∧ totalMoves st' = totalMoves st
  ∧ levelProgress st' = levelProgress st.
Proof.
  intros Htry.
  destruct (findAllMatches (swap (grid st) r1 c1 r2 c2)) as [|p l] eqn:E.
  - rewrite trySwap_rejected in Htry by exact E.
    destruct (reshuffleIfStuck _ _ _) as [st6|] eqn:E6;
      rewrite ?bind_Some, ?bind_None in Htry; [|discriminate].
    injection Htry as <-. state_simpl.
    pose proof (reshuffleIfStuck_fields _ _ _ _ E6) as (_ & _ & _ & _ & _ & R).
    apply reshuffleIfStuck_more_fields in E6 as (_ & R2 & R3 & R4).
    rewrite R, R2, R3, R4. by split_and!.
  - assert (Hne : findAllMatches (swap (grid st) r1 c1 r2 c2) ≠ [])
      by (rewrite E; discriminate).
    rewrite trySwap_accepted in Htry by exact Hne.
    destruct (processMatches _ _ _ _) as [st4|] eqn:E4;
      rewrite ?bind_Some, ?bind_None in Htry; [|discriminate].
    destruct (checkLevelEnd st4) as [st5|] eqn:E5;
      rewrite ?bind_Some, ?bind_None in Htry; [|discriminate].
    destruct (reshuffleIfStuck fuel rnd st5) as [st6|] eqn:E6;
      rewrite ?bind_Some, ?bind_None in Htry; [|discriminate].
    injection Htry as <-. state_simpl.
    pose proof (reshuffleIfStuck_fields _ _ _ _ E6) as (_ & _ & _ & _ & _ & R).
    apply reshuffleIfStuck_more_fields in E6 as (_ & R2 & R3 & R4).
    pose proof (checkLevelEnd_fields _ _ E5) as (_ & _ & _ & _ & _ & _ & _ & G).
    apply checkLevelEnd_more_fields in E5 as (_ & G2 & G3 & G4).
    pose proof (cascadeLoop_more_fields _ _ _ _ _ _ E4) as (F3 & F4).
    apply cascadeLoop_frame in E4 as (_ & _ & F2 & F & _); [|lia].
    rewrite R, R2, R3, R4, G, G2, G3, G4, F, F2, F3, F4. by split_and!.
Qed.

Lemma findValidMove_sound (g : Grid) (m : Move) :
  wf_grid g → (findValidMove g).1 = Some m →
  In m candidates ∧ findAllMatches (swap g (row1 m) (col1 m) (row2 m) (col2 m)) ≠ [].
Proof.
  intros Hwf. rewrite (findValidMove_spec g Hwf). cbn [fst].
  intros Hfind. apply find_some in Hfind as [Hin Hm]. split; [exact Hin|].
  unfold gives_match in Hm. apply Nat.ltb_lt in Hm.
  intros E. rewrite E in Hm. simpl in Hm. lia.
Qed.

(** X5. The move [findValidMove] returns (the one the hint shows) names
    two adjacent cells of the board, the second being the right or lower
    neighbour of the first. When the player, with nothing selected, clicks
    the first cell and then the second, the first click selects and the
    second is the swap attempt; and when that attempt returns it was
    accepted: one move is spent, at least three gems are collected and at
    least 30 points scored, and the engine is idle again with nothing
    selected. *)
Theorem hinted_move_is_accepted (fuel : nat) (rnd : nat → nat) (st : State)
    (m : Move) :
  wf_grid (grid st) → isProcessing st = false → selectedGem st = None →
  (findValidMove (grid st)).1 = Some m →
  let st1 := selectGem (row1 m) (col1 m) st in
  ((row1 m < ROWS)%nat ∧ (col1 m < COLS)%nat
   ∧ (row2 m < ROWS)%nat ∧ (col2 m < COLS)%nat
   ∧ ((row2 m, col2 m) = (row1 m, col1 m + 1)%nat
      ∨ (row2 m, col2 m) = (row1 m + 1, col1 m)%nat)
   ∧ isAdjacent (row1 m, col1 m) (row2 m, col2 m) = true)
  ∧ handleGemClick fuel rnd (row1 m) (col1 m) st = Some st1
  ∧ handleGemClick fuel rnd (row2 m) (col2 m) st1
    = trySwap fuel rnd (row1 m) (col1 m) (row2 m) (col2 m) st1
  ∧ ∀ st', handleGemClick fuel rnd (row2 m) (col2 m) st1 = Some st' →
      movesLeft st' = movesLeft st - 1
      ∧ score st + 30 ≤ score st'
      ∧ totalGemsCollected st + 3 ≤ totalGemsCollected st'
      ∧ isProcessing st' = false ∧ selectedGem st' = None.
Proof.
  intros Hwf Hidle Hsel Hfind st1.
  destruct (findValidMove_sound _ _ Hwf Hfind) as [Hin Hne].
  apply elem_of_candidates in Hin as (Hr & Hc & Hdir).
  assert (Hadj : isAdjacent (row1 m, col1 m) (row2 m, col2 m) = true).
  { apply isAdjacent_cases. cbn [fst snd].
    destruct Hdir as [(-> & -> & _)|(-> & -> & _)]; [by left|right; by left]. }
  assert (Hclick2 : handleGemClick fuel rnd (row2 m) (col2 m) st1
            = trySwap fuel rnd (row1 m) (col1 m) (row2 m) (col2 m) st1).
  { unfold handleGemClick. subst st1. state_simpl. rewrite Hidle.
    cbn [fst snd]. rewrite Hadj.
    replace ((row1 m =? row2 m)%nat && (col1 m =? col2 m)%nat) with false;
      [reflexivity|].
    symmetry. apply andb_false_iff.
    destruct Hdir as [(_ & E & _)|(E & _ & _)]; [right|left];
      apply Nat.eqb_neq; lia. }
  split_and!.
  - exact Hr.
  - exact Hc.
  - destruct Hdir as [(-> & _ & _)|(_ & _ & ?)]; [exact Hr|assumption].
  - destruct Hdir as [(_ & _ & ?)|(_ & -> & _)]; [assumption|exact Hc].
  - destruct Hdir as [(-> & -> & _)|(-> & -> & _)]; [by left|by right].
  - exact Hadj.
  - unfold handleGemClick. rewrite Hidle, Hsel. reflexivity.
  - exact Hclick2.
  - intros st' Hrun. rewrite Hclick2 in Hrun.
    assert (Hne1 : findAllMatches
              (swap (grid st1) (row1 m) (col1 m) (row2 m) (col2 m)) ≠ [])
      by exact Hne.
    pose proof (findAllMatches_length _ Hne1) as Hlen.
    pose proof (trySwap_idle _ _ _ _ _ _ _ _ Hrun) as (I1 & I2 & _).
    apply trySwap_accepted_fields in Hrun as (M & S & T); [|exact Hne1].
    change (movesLeft st1) with (movesLeft st) in M.
    change (score st1) with (score st) in S.
    change (totalGemsCollected st1) with (totalGemsCollected st) in T.
    change (grid st1) with (grid st) in *.
    unfold POINTS_PER_GEM in S. split_and!; [exact M|lia|lia|exact I1|exact I2].
Qed.

(** An instance: the hint of [board_play], played on level 1. *)
Lemma hinted_move_is_accepted_witness :
  (findValidMove (grid (level1_state board_play 20))).1 = Some (mkMove 1 0 1 1)
  ∧ handleGemClick 3 (draws [5; 0; 5]%nat) 1 0 (level1_state board_play 20)
    = Some (selectGem 1 0 (level1_state board_play 20))
  ∧ ∃ st', handleGemClick 3 (draws [5; 0; 5]%nat) 1 1
             (selectGem 1 0 (level1_state board_play 20)) = Some st'
      ∧ movesLeft st' = 19 ∧ 30 ≤ score st'.
Proof.
  assert (Hwf : wf_grid (grid (level1_state board_play 20)))
    by (by apply wf_gridb_spec; vm_compute).
  assert (Hfind : (findValidMove (grid (level1_state board_play 20))).1
                  = Some (mkMove 1 0 1 1)) by (by vm_compute).
  destruct (hinted_move_is_accepted 3 (draws [5; 0; 5]%nat) (level1_state board_play 20)
              (mkMove 1 0 1 1) Hwf eq_refl eq_refl Hfind)
    as (_ & Hfirst & _ & Hthen).
  split; [exact Hfind|]. split; [exact Hfirst|].
  destruct (handleGemClick 3 (draws [5; 0; 5]%nat) 1 1
              (selectGem 1 0 (level1_state board_play 20))) as [st'|] eqn:E;
    [|exfalso; revert E; vm_compute; discriminate].
  exists st'. split; [reflexivity|].
  destruct (Hthen st' E) as (M & S & _).
  split; [exact M|exact S].
Defined.

(** ** Removal, gravity and refill, one by one *)

Lemma cell_removeMatches (ms : list Pos) (g : Grid) (r c : nat) :
  wf_grid g → Forall (λ p, (p.1 < ROWS)%nat ∧ (p.2 < COLS)%nat) ms →
  cell (removeMatches ms g) r c
  = if decide ((r, c) ∈ ms) then EMPTY else cell g r c.
Proof.
  revert g. induction ms as [|[r0 c0] ms IH]; intros g Hwf Hall.
  - cbn [removeMatches]. rewrite decide_False; [done|]. apply not_elem_of_nil.
  - cbn [removeMatches]. apply Forall_cons in Hall as [[Hr0 Hc0] Hall].
    cbn [fst snd] in Hr0, Hc0.
    rewrite IH by (auto using wf_set_cell).
    destruct (decide ((r, c) ∈ ms)) as [Hin|Hnin].
    + rewrite decide_True; [done|]. by right.
    + destruct (decide ((r, c) = (r0, c0))) as [E|E].
      * simplify_eq. rewrite cell_set_cell_eq by done.
        rewrite decide_True; [done|]. by left.
      * rewrite cell_set_cell_ne by congruence.
        rewrite decide_False; [done|].
        rewrite elem_of_cons. intros [?|?]; done.
Qed.

(** X6. [removeMatches], given positions of the board, writes the empty
    marker into exactly those cells and leaves every other cell as it
    was; neither the order of the positions nor a repetition among them
    matters, and removing the same positions again changes nothing. *)
Theorem removeMatches_empties_exactly (ms : list Pos) (g : Grid) :
  wf_grid g → Forall (λ p, (p.1 < ROWS)%nat ∧ (p.2 < COLS)%nat) ms →
  wf_grid (removeMatches ms g)
  ∧ (∀ r c, (r, c) ∈ ms → cell (removeMatches ms g) r c = EMPTY)
  ∧ (∀ r c, (r, c) ∉ ms → cell (removeMatches ms g) r c = cell g r c)
  ∧ (∀ ms', (∀ p, p ∈ ms' ↔ p ∈ ms) →
       removeMatches ms' g = removeMatches ms g)
  ∧ removeMatches ms (removeMatches ms g) = removeMatches ms g.
Proof.
  intros Hwf Hall. split_and!.
  - by apply wf_removeMatches.
  - intros r c Hin. rewrite cell_removeMatches by done.
    by rewrite decide_True.
  - intros r c Hnin. rewrite cell_removeMatches by done.
    by rewrite decide_False.
  - intros ms' Hsame.
    assert (Hall' : Forall (λ p, (p.1 < ROWS)%nat ∧ (p.2 < COLS)%nat) ms').
    { rewrite Forall_forall in *. intros p Hp. apply Hall, Hsame, Hp. }
    apply grid_ext; [by apply wf_removeMatches..|].
    intros r c _ _. rewrite !cell_removeMatches by done.
    destruct (decide ((r, c) ∈ ms')) as [H|H], (decide ((r, c) ∈ ms)) as [H'|H'];
      try done.
    + destruct H'. by apply Hsame.
    + destruct H. by apply Hsame.
  - apply grid_ext; [by do 2 apply wf_removeMatches|by apply wf_removeMatches|].
    intros r c _ _.
    rewrite (cell_removeMatches ms (removeMatches ms g))
      by (done || by apply wf_removeMatches).
    rewrite cell_removeMatches by done.
    by destruct (decide ((r, c) ∈ ms)).
Qed.

(** An instance: the match of [board_play] after its first valid move. *)
Lemma removeMatches_empties_exactly_witness :
  wf_grid (swap board_play 1 0 1 1)
  ∧ Forall (λ p, (p.1 < ROWS)%nat ∧ (p.2 < COLS)%nat)
      [(0, 1); (1, 1); (2, 1)]%nat
  ∧ cell (removeMatches [(0, 1); (1, 1); (2, 1)]%nat (swap board_play 1 0 1 1))
      1 1 = EMPTY
  ∧ cell (removeMatches [(0, 1); (1, 1); (2, 1)]%nat (swap board_play 1 0 1 1))
      1 0 = 4.
Proof.
  assert (Hwf : wf_grid (swap board_play 1 0 1 1))
    by (by apply wf_gridb_spec; vm_compute).
  assert (Hall : Forall (λ p, (p.1 < ROWS)%nat ∧ (p.2 < COLS)%nat)
                   [(0, 1); (1, 1); (2, 1)]%nat)
    by (repeat constructor; vm_compute; lia).
  destruct (removeMatches_empties_exactly _ _ Hwf Hall)
    as (_ & Hin & Hout & _).
  split; [exact Hwf|]. split; [exact Hall|]. split.
  - apply Hin. rewrite !elem_of_cons. right. by left.
  - rewrite Hout; [by vm_compute|].
    rewrite !elem_of_cons, elem_of_nil.
    intros [E|[E|[E|[]]]]; discriminate E.
Defined.

Lemma column_ext (g g' : Grid) :
  wf_grid g → wf_grid g' →
  (∀ c, (c < COLS)%nat → column g c = column g' c) → g = g'.
Proof.
  intros Hwf Hwf' Hcol. apply grid_ext; [done..|].
  intros r c _ Hc. by rewrite !cell_column, Hcol.
Qed.

Lemma filter_empty_gems (l : list Z) :
  filter (λ v, v = EMPTY) (filter (λ v, v ≠ EMPTY) l) = [].
Proof.
  induction l as [|x l IH]; [done|].
  rewrite (filter_cons (λ v, v ≠ EMPTY)).
  destruct (decide (x ≠ EMPTY)); [|done].
  rewrite filter_cons. by rewrite decide_False by done.
Qed.

Lemma filter_empty_full (l : list Z) :
  Forall (λ v, v ≠ EMPTY) l →
  filter (λ v, v = EMPTY) l = [] ∧ filter (λ v, v ≠ EMPTY) l = l.
Proof.
  induction 1 as [|x l Hx Hall [IH1 IH2]]; [done|].
  rewrite !filter_cons, decide_False, decide_True by done.
  split; [done|by f_equal].
Qed.

Lemma filter_replicate_empty (n : nat) :
  filter (λ v, v = EMPTY) (replicate n EMPTY) = replicate n EMPTY.
Proof.
  induction n as [|n IH]; [done|].
  cbn [replicate]. rewrite filter_cons, decide_True by done. by f_equal.
Qed.

Lemma compact_idemp (l : list Z) : compact (compact l) = compact l.
Proof.
  unfold compact at 1. rewrite filter_gems_compact. unfold compact.
  do 2 f_equal. rewrite filter_app, length_app, filter_empty_gems.
  rewrite filter_replicate_empty, length_replicate. simpl. lia.
Qed.

Lemma compact_full (l : list Z) :
  Forall (λ v, v ≠ EMPTY) l → compact l = l.
Proof.
  intros Hall. apply filter_empty_full in Hall as [E1 E2].
  unfold compact. by rewrite E1, E2.
Qed.

(** X7. On a board of the right shape, applying gravity a second time
    changes nothing, and gravity leaves a board without empty cells as it
    is. *)
Theorem applyGravity_idempotent (g : Grid) :
  wf_grid g →
  applyGravity (applyGravity g) = applyGravity g
  ∧ (no_empty g → applyGravity g = g).
Proof.
  intros Hwf. split.
  - apply column_ext; [by do 2 apply wf_applyGravity|by apply wf_applyGravity|].
    intros c Hc.
    rewrite (column_applyGravity (applyGravity g))
      by (done || by apply wf_applyGravity).
    rewrite column_applyGravity by done. apply compact_idemp.
  - intros Hfull. apply column_ext; [by apply wf_applyGravity|done|].
    intros c Hc. rewrite column_applyGravity by done.
    apply compact_full. apply Forall_forall. intros v Hv.
    apply list_elem_of_lookup in Hv as [r Hr].
    assert (Hlt : (r < ROWS)%nat).
    { apply lookup_lt_Some in Hr. rewrite length_column in Hr.
      destruct Hwf as [<- _]. done. }
    specialize (Hfull r c Hlt Hc). rewrite cell_column, Hr in Hfull. done.
Qed.

(** An instance: [board_holes]. *)
Lemma applyGravity_idempotent_witness :
  wf_grid board_holes
  ∧ applyGravity (applyGravity board_holes) = applyGravity board_holes
  ∧ applyGravity board_holes ≠ board_holes.
Proof.
  assert (Hwf : wf_grid board_holes) by (by apply wf_gridb_spec; vm_compute).
  split; [exact Hwf|]. split.
  - exact (proj1 (applyGravity_idempotent board_holes Hwf)).
  - vm_compute. discriminate.
Defined.

Lemma random_int_kind (rnd : nat → nat) (k : nat) :
  is_kind (Z.of_nat (random_int rnd k NUM_GEM_TYPES)).
Proof.
  unfold is_kind, random_int.
  assert (rnd k mod NUM_GEM_TYPES < NUM_GEM_TYPES)%nat
    by (apply Nat.mod_upper_bound; vm_compute; lia).
  lia.
Qed.

Lemma lookup_column_cell (g : Grid) (r c : nat) :
  (r < length g)%nat → column g c !! r = Some (cell g r c).
Proof.
  intros Hr. rewrite cell_column.
  destruct (lookup_lt_is_Some_2 (column g c) r) as [x Hx];
    [by rewrite length_column|].
  by rewrite Hx.
Qed.

(** One column of the refill, cell by cell and drawing by drawing. *)
Lemma fill_rows_exact (n : nat) (rnd : nat → nat) (col row : nat) (g : Grid)
    (seed : nat) :
  wf_grid g → (col < COLS)%nat → (row + n ≤ ROWS)%nat →
  let res := fill_rows n rnd col row g seed in
  (∀ r c, cell res.1 r c = cell g r c
          ∨ (c = col ∧ cell g r c = EMPTY ∧ is_kind (cell res.1 r c)))
  ∧ res.2 = (seed + empties_in (take n (drop row (column g col))))%nat.
Proof.
  revert row g seed. induction n as [|n IH]; intros row g seed Hwf Hc Hn;
    cbn [fill_rows].
  - split; [by left|]. rewrite take_0. unfold empties_in. simpl. lia.
  - assert (Hrow : (row < length g)%nat) by (destruct Hwf as [-> _]; lia).
    pose proof (lookup_column_cell g row col Hrow) as Hlook.
    rewrite (drop_S _ _ _ Hlook). cbn [take].
    unfold empties_in. rewrite filter_cons.
    destruct (Z.eqb_spec (cell g row col) EMPTY) as [E|E].
    + set (v := Z.of_nat (random_int rnd seed NUM_GEM_TYPES)).
      destruct (IH (row + 1)%nat (set_cell g row col v) (S seed))
        as [Hcells Hseed]; [by apply wf_set_cell|done|lia|].
      split.
      * intros r c. destruct (Hcells r c) as [Hsame|(-> & He & Hk)].
        -- destruct (decide ((row, col) = (r, c))) as [Heq|Hne].
           ++ simplify_eq. right. split_and!; [done..|].
              rewrite Hsame, cell_set_cell_eq by (done || lia).
              apply random_int_kind.
           ++ left. by rewrite Hsame, cell_set_cell_ne.
        -- destruct (decide (r = row)) as [->|Hne].
           ++ right. by split_and!.
           ++ right. split_and!; [done| |done].
              rewrite <- He. symmetry. apply cell_set_cell_ne. congruence.
      * rewrite Hseed, column_set_cell_eq by done.
        rewrite decide_True by done. cbn [length].
        rewrite Nat.add_1_r, drop_insert_lt by lia.
        unfold empties_in. lia.
    + destruct (IH (row + 1)%nat g seed) as [Hcells Hseed]; [done..|lia|].
      split; [exact Hcells|].
      rewrite Hseed, decide_False by done. rewrite Nat.add_1_r. done.
Qed.

Lemma fill_rows_other_column (n : nat) (rnd : nat → nat) (col row : nat)
    (g : Grid) (seed : nat) (c : nat) :
  wf_grid g → (col < COLS)%nat → (row + n ≤ ROWS)%nat → c ≠ col →
  column (fill_rows n rnd col row g seed).1 c = column g c.
Proof.
  intros Hwf Hc Hn Hne.
  destruct (fill_rows_exact n rnd col row g seed Hwf Hc Hn) as [Hcells _].
  destruct (fill_rows_spec n rnd col row g seed Hwf Hc Hn) as (Hwf' & _).
  destruct Hwf as [Hlen _], Hwf' as [Hlen' _].
  apply list_eq. intros r.
  destruct (decide (r < ROWS)%nat) as [Hr|Hr].
  - rewrite !lookup_column_cell by lia.
    f_equal. destruct (Hcells r c) as [?|(? & _)]; done.
  - rewrite !lookup_ge_None_2; [done|rewrite length_column; lia..].
Qed.

Lemma fill_cols_exact (n : nat) (rnd : nat → nat) (col : nat) (g : Grid)
    (seed : nat) :
  wf_grid g → (col + n ≤ COLS)%nat →
  let res := fill_cols n rnd col g seed in
  (∀ r c, cell res.1 r c = cell g r c
          ∨ (cell g r c = EMPTY ∧ is_kind (cell res.1 r c)))
  ∧ res.2 = (seed + sum_list ((λ c, empties_in (column g c)) <$> seq col n))%nat.
Proof.
  revert col g seed. induction n as [|n IH]; intros col g seed Hwf Hn;
    cbn [fill_cols].
  - split; [by left|]. simpl. lia.
  - assert (Hc : (col < COLS)%nat) by lia.
    assert (H0 : (0 + ROWS ≤ ROWS)%nat) by lia.
    destruct (fill_rows_exact ROWS rnd col 0 g seed Hwf Hc H0) as [H1 H2].
    destruct (fill_rows_spec ROWS rnd col 0 g seed Hwf Hc H0) as (Hwf1 & _).
    pose proof (λ c, fill_rows_other_column ROWS rnd col 0 g seed c Hwf Hc H0)
      as Hother.
    destruct (fill_rows ROWS rnd col 0 g seed) as [g1 seed1].
    cbn [fst snd] in *.
    destruct (IH (col + 1)%nat g1 seed1) as [H3 H4]; [done|lia|].
    split.
    + intros r c. destruct (H3 r c) as [E|[E K]].
      * rewrite E. destruct (H1 r c) as [?|(_ & ? & ?)]; [by left|by right].
      * destruct (H1 r c) as [E1|(_ & E1 & K1)].
        -- right. by rewrite <- E1.
        -- exfalso. rewrite E in K1. unfold is_kind, EMPTY in K1. lia.
    + rewrite H4, H2. cbn [seq fmap list_fmap sum_list sum_list_with].
      rewrite drop_0, take_ge
        by (rewrite length_column; destruct Hwf as [-> _]; lia).
      rewrite Nat.add_1_r.
      assert (Hsame : (λ c, empties_in (column g1 c)) <$> seq (S col) n
                      = (λ c, empties_in (column g c)) <$> seq (S col) n).
      { apply list_fmap_ext. intros i c Hi.
        apply lookup_seq in Hi as [-> _].
        rewrite Hother by lia. done. }
      rewrite Hsame. simpl. lia.
Qed.

(** X8. On a board of the right shape [fillEmptySpaces] keeps every gem
    where it is and puts a gem kind, one fresh drawing each, into every
    empty cell: afterwards no cell is empty, the number of drawings made
    is the number of empty cells there were, and a board without empty
    cells is returned as it is without any drawing. *)
Theorem fillEmptySpaces_exact (rnd : nat → nat) (g : Grid) (seed : nat) :
  wf_grid g →
  let g' := (fillEmptySpaces rnd g seed).1 in
  let seed' := (fillEmptySpaces rnd g seed).2 in
  wf_grid g' ∧ no_empty g'
  ∧ (∀ r c, cell g r c ≠ EMPTY → cell g' r c = cell g r c)
  ∧ (∀ r c, (r < ROWS)%nat → (c < COLS)%nat → cell g r c = EMPTY →
       is_kind (cell g' r c))
  ∧ seed' = (seed + empties g)%nat
  ∧ (no_empty g → g' = g ∧ seed' = seed).
Proof.
  intros Hwf g' seed'.
  destruct (fillEmptySpaces_spec rnd g seed Hwf) as (Hwf' & Hfull & Hkeep).
  assert (H0 : (0 + COLS ≤ COLS)%nat) by lia.
  destruct (fill_cols_exact COLS rnd 0 g seed Hwf H0) as [Hcells Hseed].
  fold (fillEmptySpaces rnd g seed) in Hcells, Hseed.
  fold (empties g) in Hseed.
  split_and!; [exact Hwf'|exact Hfull|exact Hkeep| |exact Hseed|].
  - intros r c Hr Hc E. destruct (Hcells r c) as [E'|[_ K]]; [|exact K].
    exfalso. apply (Hfull r c Hr Hc). exact (eq_trans E' E).
  - intros Hne. split.
    + apply grid_ext; [exact Hwf'|exact Hwf|].
      intros r c Hr Hc. apply Hkeep. by apply Hne.
    + unfold seed'. rewrite Hseed. unfold empties.
      assert (E : (λ c, empties_in (column g c)) <$> seq 0 COLS
                  = (λ _, 0%nat) <$> seq 0 COLS).
      { apply list_fmap_ext. intros i c Hi.
        apply lookup_seq in Hi as [-> Hi]. unfold empties_in.
        assert (Hall : Forall (λ v, v ≠ EMPTY) (column g (0 + i))).
        { apply Forall_forall. intros v Hv.
          apply list_elem_of_lookup in Hv as [r Hr].
          assert (Hlt : (r < ROWS)%nat).
          { apply lookup_lt_Some in Hr. rewrite length_column in Hr.
            destruct Hwf as [<- _]. done. }
          specialize (Hne r (0 + i)%nat Hlt Hi).
          rewrite cell_column, Hr in Hne. done. }
        apply filter_empty_full in Hall as [-> _]. done. }
      rewrite E. clear. generalize (seq 0 COLS). intros l.
      induction l as [|x l IH]; [simpl; lia|].
      rewrite fmap_cons. cbn [sum_list sum_list_with]. exact IH.
Qed.

(** An instance: the refill of [board_holes] draws six times. *)
Lemma fillEmptySpaces_exact_witness :
  wf_grid board_holes
  ∧ (fillEmptySpaces (draws [1; 2; 3]%nat) board_holes 0).2
    = (0 + empties board_holes)%nat
  ∧ empties board_holes = 6%nat
  ∧ no_empty (fillEmptySpaces (draws [1; 2; 3]%nat) board_holes 0).1.
Proof.
  assert (Hwf : wf_grid board_holes) by (by apply wf_gridb_spec; vm_compute).
  destruct (fillEmptySpaces_exact (draws [1; 2; 3]%nat) board_holes 0 Hwf)
    as (_ & Hfull & _ & _ & Hseed & _).
  split; [exact Hwf|]. split; [exact Hseed|]. split; [by vm_compute|exact Hfull].
Defined.

(** ** One pass of the cascade on a column *)

Lemma column_removeMatches (ms : list Pos) (g : Grid) (c : nat) :
  wf_grid g → Forall (λ p, (p.1 < ROWS)%nat ∧ (p.2 < COLS)%nat) ms →
  column (removeMatches ms g) c
  = (λ r, if decide ((r, c) ∈ ms) then EMPTY else cell g r c) <$> seq 0 ROWS.
Proof.
  intros Hwf Hall.
  pose proof (wf_removeMatches ms g Hwf) as [Hlen _].
  apply list_eq. intros r. rewrite list_lookup_fmap.
  destruct (decide (r < ROWS)%nat) as [Hr|Hr].
  - rewrite lookup_column_cell, lookup_seq_lt by lia. simpl.
    by rewrite cell_removeMatches.
  - rewrite !lookup_ge_None_2; [done|rewrite length_seq; lia|].
    rewrite length_column. lia.
Qed.

Lemma filter_gems_removed (ms : list Pos) (g : Grid) (c : nat) (rows : list nat) :
  (∀ r, r ∈ rows → cell g r c ≠ EMPTY) →
  filter (λ v, v ≠ EMPTY)
    ((λ r, if decide ((r, c) ∈ ms) then EMPTY else cell g r c) <$> rows)
  = (λ r, cell g r c) <$> filter (λ r, (r, c) ∉ ms) rows.
Proof.
  induction rows as [|r rows IH]; intros Hfull; [done|].
  rewrite fmap_cons, !filter_cons.
  rewrite IH by (intros r' Hr'; apply Hfull; by right).
  destruct (decide ((r, c) ∈ ms)) as [Hin|Hnin].
  - rewrite decide_False by (intros H; done).
    rewrite decide_False by (intros H; done). done.
  - rewrite decide_True by (apply Hfull; by left).
    rewrite decide_True by done. done.
Qed.

Lemma grid_cascadeStep (rnd : nat → nat) (n : Z) (ms : list Pos) (st : State) :
  grid (cascadeStep rnd n ms st)
  = (fillEmptySpaces rnd (applyGravity (removeMatches ms (grid st)))
       (seed st)).1.
Proof.
  unfold cascadeStep.
  destruct (collectGems _ _ _ _) as [gc total].
  destruct (1 <? n); state_simpl;
    destruct (fillEmptySpaces _ _ _) as [g3 seed']; reflexivity.
Qed.

Lemma seed_cascadeStep (rnd : nat → nat) (n : Z) (ms : list Pos) (st : State) :
  seed (cascadeStep rnd n ms st)
  = (fillEmptySpaces rnd (applyGravity (removeMatches ms (grid st)))
       (seed st)).2.
Proof.
  unfold cascadeStep.
  destruct (collectGems _ _ _ _) as [gc total].
  destruct (1 <? n); state_simpl;
    destruct (fillEmptySpaces _ _ _) as [g3 seed']; reflexivity.
Qed.

Lemma cell_empty_in_range (g : Grid) (r c : nat) :
  wf_grid g → cell g r c = EMPTY → (r < ROWS)%nat ∧ (c < COLS)%nat.
Proof.
  intros Hwf. unfold cell.
  destruct (g !! r) as [l|] eqn:El; [|discriminate].
  cbn [mbind option_bind].
  destruct (l !! c) as [x|] eqn:Ex; [|discriminate]. intros _.
  assert (Hr : (r < ROWS)%nat).
  { apply lookup_lt_Some in El. by destruct Hwf as [<- _]. }
  destruct (wf_lookup g r Hwf Hr) as (l' & Hl' & Hlen).
  assert (l' = l) as -> by congruence.
  apply lookup_lt_Some in Ex. lia.
Qed.

Lemma empties_in_cons (x : Z) (l : list Z) :
  empties_in (x :: l)
  = if decide (x = EMPTY) then S (empties_in l) else empties_in l.
Proof.
  unfold empties_in. rewrite filter_cons. by destruct (decide (x = EMPTY)).
Qed.

(** One column of the refill: which drawing lands in which cell. *)
Lemma fill_rows_values (n : nat) (rnd : nat → nat) (col row : nat) (g : Grid)
    (seed : nat) (r c : nat) :
  wf_grid g → (col < COLS)%nat → (row + n ≤ ROWS)%nat →
  cell (fill_rows n rnd col row g seed).1 r c
  = if decide (c = col ∧ (row ≤ r < row + n)%nat ∧ cell g r c = EMPTY)
    then drawn rnd
           (seed + empties_in (take (r - row) (drop row (column g col))))
    else cell g r c.
Proof.
  revert row g seed. induction n as [|n IH]; intros row g seed Hwf Hc Hn.
  - cbn [fill_rows fst]. rewrite decide_False; [done|lia].
  - assert (Hrow : (row < length g)%nat) by (destruct Hwf as [-> _]; lia).
    pose proof (lookup_column_cell g row col Hrow) as Hlook.
    rewrite (drop_S _ _ _ Hlook). cbn [fill_rows].
    destruct (Z.eqb_spec (cell g row col) EMPTY) as [E|E].
    + fold (drawn rnd seed). set (v := drawn rnd seed).
      rewrite IH by (auto using wf_set_cell || lia).
      rewrite column_set_cell_eq by done.
      rewrite Nat.add_1_r, drop_insert_lt by lia.
      destruct (decide (c = col ∧ (row ≤ r < row + S n)%nat
                        ∧ cell g r c = EMPTY)) as [(-> & Hr & He)|Hno].
      * destruct (decide (r = row)) as [->|Hne].
        -- rewrite decide_False by lia.
           rewrite cell_set_cell_eq by (done || lia).
           rewrite Nat.sub_diag, take_0. unfold empties_in. cbn [filter length].
           by rewrite Nat.add_0_r.
        -- rewrite decide_True.
           2:{ split; [done|]. split; [lia|].
               rewrite cell_set_cell_ne by congruence. exact He. }
           replace (r - row)%nat with (S (r - S row)) by lia.
           cbn [take]. rewrite empties_in_cons, decide_True by exact E.
           f_equal. lia.
      * rewrite decide_False.
        2:{ intros (-> & Hr & He). apply Hno. split; [done|]. split; [lia|].
            rewrite cell_set_cell_ne in He by (intros Heq; injection Heq; lia).
            exact He. }
        apply cell_set_cell_ne. intros [= <- <-]. apply Hno.
        split; [done|]. split; [lia|exact E].
    + rewrite IH by (done || lia). rewrite Nat.add_1_r.
      destruct (decide (c = col ∧ (row ≤ r < row + S n)%nat
                        ∧ cell g r c = EMPTY)) as [(-> & Hr & He)|Hno].
      * assert (r ≠ row) by (intros ->; done).
        rewrite decide_True by (split; [done|]; split; [lia|exact He]).
        replace (r - row)%nat with (S (r - S row)) by lia.
        cbn [take]. rewrite empties_in_cons, decide_False by exact E.
        reflexivity.
      * rewrite decide_False; [done|].
        intros (-> & Hr & He). apply Hno. split; [done|]. split; [lia|exact He].
Qed.

(** The refill: the empty cell [(r, c)] takes the drawing whose number is
    the number of empty cells in the columns to the left of [c] and in
    column [c] above row [r]. *)
Lemma fill_cols_values (n : nat) (rnd : nat → nat) (col : nat) (g : Grid)
    (seed : nat) (r c : nat) :
  wf_grid g → (col + n ≤ COLS)%nat →
  cell (fill_cols n rnd col g seed).1 r c
  = if decide ((col ≤ c < col + n)%nat ∧ cell g r c = EMPTY)
    then drawn rnd
           (seed
            + sum_list ((λ c', empties_in (column g c')) <$> seq col (c - col))
            + empties_in (take r (column g c)))
    else cell g r c.
Proof.
  revert col g seed. induction n as [|n IH]; intros col g seed Hwf Hn.
  - cbn [fill_cols fst]. rewrite decide_False; [done|lia].
  - cbn [fill_cols].
    assert (Hc : (col < COLS)%nat) by lia.
    assert (H0 : (0 + ROWS ≤ ROWS)%nat) by lia.
    destruct (fill_rows_exact ROWS rnd col 0 g seed Hwf Hc H0) as [_ Hseed].
    destruct (fill_rows_spec ROWS rnd col 0 g seed Hwf Hc H0) as (Hwf1 & _).
    pose proof (λ r c, fill_rows_values ROWS rnd col 0 g seed r c Hwf Hc H0)
      as Hvals.
    pose proof (λ c, fill_rows_other_column ROWS rnd col 0 g seed c Hwf Hc H0)
      as Hother.
    destruct (fill_rows ROWS rnd col 0 g seed) as [g1 seed1].
    cbn [fst snd] in Hseed, Hwf1, Hvals, Hother.
    rewrite drop_0, take_ge in Hseed
      by (rewrite length_column; destruct Hwf as [-> _]; lia).
    rewrite IH by (done || lia).
    destruct (decide (c = col)) as [->|Hne].
    + rewrite decide_False by lia. rewrite Hvals.
      rewrite Nat.sub_diag, Nat.sub_0_r, drop_0. cbn [seq fmap list_fmap].
      destruct (decide (cell g r col = EMPTY)) as [E|E].
      * destruct (cell_empty_in_range g r col Hwf E) as [Hr _].
        rewrite decide_True by (split; [done|]; split; [lia|exact E]).
        rewrite decide_True by (split; [lia|exact E]).
        cbn [sum_list sum_list_with]. f_equal. unfold id. lia.
      * rewrite decide_False by (intros (_ & _ & ?); done).
        rewrite decide_False by (intros (_ & ?); done). done.
    + assert (Hsame : cell g1 r c = cell g r c).
      { rewrite Hvals. rewrite decide_False; [done|]. intros (? & _); done. }
      rewrite Hsame.
      destruct (decide ((col ≤ c < col + S n)%nat ∧ cell g r c = EMPTY))
        as [[Hin E]|Hno].
      * rewrite decide_True by (split; [lia|exact E]).
        rewrite Hother by done. rewrite Hseed.
        replace (c - col)%nat with (S (c - (col + 1))) by lia.
        cbn [seq]. rewrite fmap_cons. cbn [sum_list sum_list_with].
        rewrite Nat.add_1_r.
        assert (Hcols : (λ c', empties_in (column g1 c')) <$> seq (S col) (c - S col)
                        = (λ c', empties_in (column g c')) <$> seq (S col) (c - S col)).
        { apply list_fmap_ext. intros i c' Hi.
          apply lookup_seq in Hi as [-> _]. rewrite Hother by lia. done. }
        rewrite Hcols. f_equal. unfold id. lia.
      * rewrite decide_False; [done|].
        intros [Hin E]. apply Hno. split; [lia|exact E].
Qed.

Lemma filter_empty_removed (ms : list Pos) (g : Grid) (c : nat)
    (rows : list nat) :
  (∀ r, r ∈ rows → cell g r c ≠ EMPTY) →
  empties_in
    ((λ r, if decide ((r, c) ∈ ms) then EMPTY else cell g r c) <$> rows)
  = length (filter (λ r, (r, c) ∈ ms) rows).
Proof.
  induction rows as [|r rows IH]; intros Hfull; [done|].
  rewrite fmap_cons, empties_in_cons, filter_cons.
  rewrite IH by (intros r' Hr'; apply Hfull; by right).
  destruct (decide ((r, c) ∈ ms)) as [Hin|Hnin].
  - by rewrite decide_True.
  - rewrite decide_False; [done|]. apply Hfull. by left.
Qed.

Lemma length_filter_both {A} (P : A → Prop) `{∀ x, Decision (P x)}
    (l : list A) :
  (length (filter P l) + length (filter (λ x, ¬ P x) l) = length l)%nat.
Proof.
  induction l as [|x l IH]; [done|].
  rewrite !filter_cons. destruct (decide (P x)).
  - rewrite decide_False by tauto. simpl. lia.
  - rewrite decide_True by done. simpl. lia.
Qed.

(** The columns of the board after removal and gravity: the matched
    cells of the column, empty, above the gems that were not matched. *)
Lemma column_after_gravity (ms : list Pos) (g : Grid) (c : nat) :
  wf_grid g → no_empty g →
  Forall (λ p, (p.1 < ROWS)%nat ∧ (p.2 < COLS)%nat) ms → (c < COLS)%nat →
  column (applyGravity (removeMatches ms g)) c
  = replicate (matched_in ms c) EMPTY
    ++ ((λ r, cell g r c) <$> filter (λ r, (r, c) ∉ ms) (seq 0 ROWS)).
Proof.
  intros Hwf Hfull Hall Hc.
  rewrite column_applyGravity by (done || by apply wf_removeMatches).
  unfold compact. rewrite column_removeMatches by done.
  assert (Hrows : ∀ r, r ∈ seq 0 ROWS → cell g r c ≠ EMPTY).
  { intros r Hr. apply elem_of_seq in Hr. apply Hfull; lia. }
  f_equal.
  - f_equal. by apply filter_empty_removed.
  - by apply filter_gems_removed.
Qed.

Lemma empties_in_after_gravity (ms : list Pos) (g : Grid) (c : nat) :
  wf_grid g → no_empty g →
  Forall (λ p, (p.1 < ROWS)%nat ∧ (p.2 < COLS)%nat) ms → (c < COLS)%nat →
  empties_in (column (applyGravity (removeMatches ms g)) c) = matched_in ms c.
Proof.
  intros Hwf Hfull Hall Hc. rewrite column_after_gravity by done.
  unfold empties_in. rewrite filter_app, length_app.
  rewrite filter_replicate_empty, length_replicate.
  assert (E : filter (λ v, v = EMPTY)
                ((λ r, cell g r c) <$> filter (λ r, (r, c) ∉ ms) (seq 0 ROWS))
              = []).
  { apply filter_empty_full, Forall_fmap, Forall_forall.
    intros r Hr. apply list_elem_of_filter in Hr as [_ Hr].
    apply elem_of_seq in Hr. cbn. apply Hfull; lia. }
  rewrite E. simpl. lia.
Qed.

(** X9. One pass of the cascade (removal, gravity, refill) on a board
    without empty cells, for matched positions on the board: in every
    column the gems that were not matched end up at the bottom, in their
    former top-to-bottom order, and above them stand the gem kinds of the
    next drawings of the random source, one for each matched cell of the
    column, taken in order from top to bottom after the drawings for the
    columns to its left; the pass makes one drawing for each matched
    cell of the board. *)
Theorem cascade_pass_column (rnd : nat → nat) (n : Z) (ms : list Pos)
    (st : State) (c : nat) :
  wf_grid (grid st) → no_empty (grid st) →
  Forall (λ p, (p.1 < ROWS)%nat ∧ (p.2 < COLS)%nat) ms →
  (c < COLS)%nat →
  let kept := filter (λ r, (r, c) ∉ ms) (seq 0 ROWS) in
  let fresh := (λ i, drawn rnd (seed st + matched_before ms c + i))
                 <$> seq 0 (matched_in ms c) in
  column (grid (cascadeStep rnd n ms st)) c
  = fresh ++ ((λ r, cell (grid st) r c) <$> kept)
  ∧ Forall is_kind fresh
  ∧ (matched_in ms c + length kept = ROWS)%nat
  ∧ seed (cascadeStep rnd n ms st) = (seed st + matched_before ms COLS)%nat.
Proof.
  intros Hwf Hfull Hall Hc kept fresh.
  rewrite grid_cascadeStep, seed_cascadeStep.
  set (g := grid st) in *.
  set (g2 := applyGravity (removeMatches ms g)).
  assert (Hwf2 : wf_grid g2) by by apply wf_applyGravity, wf_removeMatches.
  destruct (fillEmptySpaces_spec rnd g2 (seed st) Hwf2) as (Hwf3 & _ & _).
  assert (H0 : (0 + COLS ≤ COLS)%nat) by lia.
  pose proof (λ r c, fill_cols_values COLS rnd 0 g2 (seed st) r c Hwf2 H0)
    as Hvals.
  destruct (fill_cols_exact COLS rnd 0 g2 (seed st) Hwf2 H0) as [_ Hseed].
  fold (fillEmptySpaces rnd g2 (seed st)) in Hvals, Hseed.
  set (g3 := (fillEmptySpaces rnd g2 (seed st)).1) in *.
  assert (Hcol2 : column g2 c
            = replicate (matched_in ms c) EMPTY
              ++ ((λ r, cell g r c) <$> kept))
    by (by apply column_after_gravity).
  assert (Hbefore : ∀ c0, (c0 ≤ COLS)%nat →
            sum_list ((λ c', empties_in (column g2 c')) <$> seq 0 c0)
            = matched_before ms c0).
  { intros c0 Hc0. unfold matched_before. f_equal.
    apply list_fmap_ext. intros i c' Hi. apply lookup_seq in Hi as [-> Hi].
    apply empties_in_after_gravity; (done || lia). }
  assert (Hlen : (matched_in ms c + length kept = ROWS)%nat).
  { unfold matched_in, kept.
    rewrite (length_filter_both (λ r, (r, c) ∈ ms)). apply length_seq. }
  assert (Hg3 : length g3 = ROWS) by by destruct Hwf3 as [-> _].
  split_and!.
  - apply list_eq. intros i.
    destruct (decide (i < ROWS)%nat) as [Hi|Hi].
    + rewrite lookup_column_cell by lia. rewrite Hvals, Nat.sub_0_r.
      rewrite Hbefore by lia.
      destruct (decide (i < matched_in ms c)%nat) as [Hik|Hik].
      * rewrite decide_True.
        2:{ split; [lia|]. rewrite cell_column, Hcol2.
            rewrite lookup_app_l by (rewrite length_replicate; lia).
            by rewrite lookup_replicate_2. }
        rewrite lookup_app_l by (unfold fresh; rewrite length_fmap, length_seq; lia).
        unfold fresh. rewrite list_lookup_fmap, lookup_seq_lt by lia.
        cbn. do 2 f_equal. rewrite Hcol2.
        rewrite take_app_le by (rewrite length_replicate; lia).
        rewrite take_replicate, Nat.min_l by lia.
        unfold empties_in.
        by rewrite filter_replicate_empty, length_replicate.
      * assert (Hv : column g2 c !! i
                     = ((λ r, cell g r c) <$> kept) !! (i - matched_in ms c)%nat).
        { rewrite Hcol2, lookup_app_r by (rewrite length_replicate; lia).
          by rewrite length_replicate. }
        rewrite lookup_app_r
          by (unfold fresh; rewrite length_fmap, length_seq; lia).
        unfold fresh. rewrite length_fmap, length_seq. rewrite <- Hv.
        rewrite lookup_column_cell
          by (destruct Hwf2 as [-> _]; lia).
        rewrite decide_False; [done|]. intros [_ E].
        rewrite lookup_column_cell in Hv by (destruct Hwf2 as [-> _]; lia).
        symmetry in Hv. apply list_elem_of_lookup_2 in Hv. rewrite E in Hv.
        apply list_elem_of_fmap in Hv as (r & Hr & Hin).
        apply list_elem_of_filter in Hin as [_ Hin].
        apply elem_of_seq in Hin. symmetry in Hr. revert Hr.
        apply Hfull; lia.
    + rewrite !lookup_ge_None_2; [done| |rewrite length_column; lia].
      unfold fresh. rewrite length_app, !length_fmap, length_seq. lia.
  - apply Forall_fmap, Forall_forall. intros i _. apply random_int_kind.
  - exact Hlen.
  - rewrite Hseed. f_equal. by apply Hbefore.
Qed.

(** An instance: the first pass after the swap on [board_play]; column 1
    keeps its five lower gems below the kinds of the first three
    drawings. *)
Lemma cascade_pass_column_witness :
  column (grid (cascadeStep (draws [5; 0; 5]%nat) 1
                  [(0, 1); (1, 1); (2, 1)]%nat
                  (level1_state (swap board_play 1 0 1 1) 19))) 1
  = [5; 0; 5; 4; 1; 4; 1; 4]
  ∧ seed (cascadeStep (draws [5; 0; 5]%nat) 1 [(0, 1); (1, 1); (2, 1)]%nat
            (level1_state (swap board_play 1 0 1 1) 19)) = 3%nat.
Proof.
  assert (Hwf : wf_grid (grid (level1_state (swap board_play 1 0 1 1) 19)))
    by (by apply wf_gridb_spec; vm_compute).
  assert (Hfull : no_empty (grid (level1_state (swap board_play 1 0 1 1) 19))).
  { intros r c Hr Hc.
    assert (Hb : forallb (λ r, forallb (λ c,
                   negb (cell (swap board_play 1 0 1 1) r c =? EMPTY))
                   (seq 0 COLS)) (seq 0 ROWS) = true) by (by vm_compute).
    rewrite forallb_forall in Hb.
    specialize (Hb r). rewrite forallb_forall in Hb.
    assert (Hn : negb (cell (swap board_play 1 0 1 1) r c =? EMPTY) = true).
    { apply Hb; apply in_seq; lia. }
    apply negb_true_iff, Z.eqb_neq in Hn. exact Hn. }
  assert (Hall : Forall (λ p, (p.1 < ROWS)%nat ∧ (p.2 < COLS)%nat)
                   [(0, 1); (1, 1); (2, 1)]%nat)
    by (repeat constructor; vm_compute; lia).
  assert (Hc : (1 < COLS)%nat) by (vm_compute; lia).
  destruct (cascade_pass_column (draws [5; 0; 5]%nat) 1
              [(0, 1); (1, 1); (2, 1)]%nat
              (level1_state (swap board_play 1 0 1 1) 19) 1 Hwf Hfull Hall Hc)
    as (Hcol & _ & _ & Hseed).
  split.
  - rewrite Hcol. by vm_compute.
  - rewrite Hseed. by vm_compute.
Defined.

(** ** The tally of collected gems *)

Lemma collected_insert (gc : gmap Z Z) (t v k : Z) :
  collected (<[t := v]> gc) k = if decide (k = t) then v else collected gc k.
Proof.
  unfold collected. destruct (decide (k = t)) as [->|Hne].
  - by rewrite lookup_insert_eq.
  - by rewrite lookup_insert_ne.
Qed.

Lemma sum_collected_insert (gc : gmap Z Z) (k v : Z) :
  sum_collected (<[k := v]> gc) = sum_collected gc - collected gc k + v.
Proof.
  unfold sum_collected, collected.
  destruct (gc !! k) as [x|] eqn:E; simpl.
  - rewrite <- (insert_delete_eq gc k v).
    rewrite map_fold_insert_L; [|intros; lia|by rewrite lookup_delete_eq].
    rewrite (map_fold_delete_L _ _ k x gc); [lia|intros; lia|done].
  - rewrite map_fold_insert_L; [lia|intros; lia|done].
Qed.

Lemma collectGems_kind (ms : list Pos) (g : Grid) (gc : gmap Z Z) (total k : Z) :
  collected (collectGems ms g gc total).1 k
  = collected gc k + Z.of_nat (length (matched_of_kind g k ms)).
Proof.
  revert gc total. induction ms as [|[r c] ms IH]; intros gc total.
  - cbn. lia.
  - cbn [collectGems]. rewrite IH, collected_insert.
    unfold matched_of_kind. rewrite filter_cons. cbn [fst snd].
    destruct (decide (k = cell g r c)) as [->|Hne].
    + rewrite decide_True by done. cbn [length]. lia.
    + rewrite decide_False by done. lia.
Qed.

Lemma collectGems_sum (ms : list Pos) (g : Grid) (gc : gmap Z Z) (total : Z) :
  sum_collected (collectGems ms g gc total).1
  = sum_collected gc + Z.of_nat (length ms).
Proof.
  revert gc total. induction ms as [|[r c] ms IH]; intros gc total.
  - cbn. lia.
  - cbn [collectGems]. rewrite IH, sum_collected_insert. cbn [length]. lia.
Qed.

Lemma gemsCollected_cascadeStep (rnd : nat → nat) (n : Z) (ms : list Pos)
    (st : State) :
  gemsCollected (cascadeStep rnd n ms st)
  = (collectGems ms (grid st) (gemsCollected st) (totalGemsCollected st)).1.
Proof.
  unfold cascadeStep.
  destruct (collectGems _ _ _ _) as [gc total].
  destruct (1 <? n); state_simpl;
    destruct (fillEmptySpaces _ _ _) as [g3 seed']; reflexivity.
Qed.

(** X10. One pass of the cascade over matched positions of the board
    adds to the counter of each gem kind the number of matched cells that
    hold that kind, to the total the number of matched cells, and to the
    score ten points per matched cell times the cascade level; so the
    total stays the sum of the per-kind counters when it was before. *)
Theorem cascadeStep_tally (rnd : nat → nat) (n : Z) (ms : list Pos)
    (st : State) :
  wf_grid (grid st) →
  Forall (λ p, (p.1 < ROWS)%nat ∧ (p.2 < COLS)%nat) ms →
  let st' := cascadeStep rnd n ms st in
  (∀ k, collected (gemsCollected st') k
        = collected (gemsCollected st) k
          + Z.of_nat (length (matched_of_kind (grid st) k ms)))
  ∧ totalGemsCollected st' = totalGemsCollected st + Z.of_nat (length ms)
  ∧ score st' = score st + 10 * Z.of_nat (length ms) * n
  ∧ sum_collected (gemsCollected st')
    = sum_collected (gemsCollected st) + Z.of_nat (length ms)
  ∧ (totalGemsCollected st = sum_collected (gemsCollected st) →
     totalGemsCollected st' = sum_collected (gemsCollected st')).
Proof.
  intros _ _ st'. unfold st'.
  destruct (cascadeStep_fields rnd n ms st) as (Hs & Ht & _).
  rewrite gemsCollected_cascadeStep, Hs, Ht, collectGems_sum.
  unfold POINTS_PER_GEM. split_and!.
  - intros k. apply collectGems_kind.
  - reflexivity.
  - lia.
  - reflexivity.
  - intros ->. reflexivity.
Qed.

(** An instance: the first pass after the swap on [board_play], which
    collects three gems of kind 1. *)
Lemma cascadeStep_tally_witness :
  wf_grid (grid (level1_state (swap board_play 1 0 1 1) 19))
  ∧ Forall (λ p, (p.1 < ROWS)%nat ∧ (p.2 < COLS)%nat)
      [(0, 1); (1, 1); (2, 1)]%nat
  ∧ collected (gemsCollected
                 (cascadeStep (draws [5; 0; 5]%nat) 1
                    [(0, 1); (1, 1); (2, 1)]%nat
                    (level1_state (swap board_play 1 0 1 1) 19))) 1 = 3
  ∧ score (cascadeStep (draws [5; 0; 5]%nat) 1 [(0, 1); (1, 1); (2, 1)]%nat
             (level1_state (swap board_play 1 0 1 1) 19)) = 30.
Proof.
  assert (Hwf : wf_grid (grid (level1_state (swap board_play 1 0 1 1) 19)))
    by (by apply wf_gridb_spec; vm_compute).
  assert (Hall : Forall (λ p, (p.1 < ROWS)%nat ∧ (p.2 < COLS)%nat)
                   [(0, 1); (1, 1); (2, 1)]%nat)
    by (repeat constructor; vm_compute; lia).
  destruct (cascadeStep_tally (draws [5; 0; 5]%nat) 1
              [(0, 1); (1, 1); (2, 1)]%nat
              (level1_state (swap board_play 1 0 1 1) 19) Hwf Hall)
    as (Hk & _ & Hs & _).
  split; [exact Hwf|]. split; [exact Hall|]. split.
  - rewrite Hk. by vm_compute.
  - rewrite Hs. by vm_compute.
Defined.

Lemma cascadeLoop_counters (fuel : nat) (rnd : nat → nat) (n : Z)
    (ms : list Pos) (st st' : State) :
  cascadeLoop fuel rnd n ms st = Some st' →
  (∀ k, collected (gemsCollected st) k ≤ collected (gemsCollected st') k)
  ∧ (totalGemsCollected st = sum_collected (gemsCollected st) →
     totalGemsCollected st' = sum_collected (gemsCollected st'))
  ∧ ((10 | score st) → (10 | score st')).
Proof.
  revert n ms st. induction fuel as [|fuel IH]; intros n ms st;
    cbn [cascadeLoop].
  - destruct (0 <? length ms)%nat; [discriminate|]. intros [= <-].
    state_simpl. split_and!; [intros; lia|done|done].
  - destruct (0 <? length ms)%nat;
      [|intros [= <-]; state_simpl; split_and!; [intros; lia|done|done]].
    intros Hloop. apply IH in Hloop as (Hk & Hsum & Hdiv).
    destruct (cascadeStep_fields rnd (n + 1) ms st) as (Hs & Ht & _).
    pose proof (gemsCollected_cascadeStep rnd (n + 1) ms st) as Hgc.
    split_and!.
    + intros k. etrans; [|apply Hk]. rewrite Hgc, collectGems_kind. lia.
    + intros E. apply Hsum. rewrite Ht, Hgc, collectGems_sum, E. done.
    + intros [q Hq]. apply Hdiv. rewrite Hs, Hq. unfold POINTS_PER_GEM.
      exists (q + Z.of_nat (length ms) * (n + 1)). lia.
Qed.

Lemma checkLevelEnd_keeps (st st' : State) :
  checkLevelEnd st = Some st' →
  gemsCollected st' = gemsCollected st
  ∧ totalGemsCollected st' = totalGemsCollected st ∧ score st' = score st.
Proof.
  intros H. apply checkLevelEnd_fields in H as (_ & ? & _ & ? & ? & _). done.
Qed.

Lemma trySwap_counters (fuel : nat) (rnd : nat → nat) (r1 c1 r2 c2 : nat)
    (st st' : State) :
  trySwap fuel rnd r1 c1 r2 c2 st = Some st' →
  (∀ k, collected (gemsCollected st) k ≤ collected (gemsCollected st') k)
  ∧ (totalGemsCollected st = sum_collected (gemsCollected st) →
     totalGemsCollected st' = sum_collected (gemsCollected st'))
  ∧ ((10 | score st) → (10 | score st')).
Proof.
  intros Htry.
  destruct (findAllMatches (swap (grid st) r1 c1 r2 c2)) as [|p l] eqn:E.
  - apply trySwap_rejected_fields in Htry as (-> & _ & -> & ->); [|exact E].
    split_and!; [intros; lia|done|done].
  - assert (Hne : findAllMatches (swap (grid st) r1 c1 r2 c2) ≠ [])
      by (rewrite E; discriminate).
    rewrite trySwap_accepted in Htry by exact Hne.
    destruct (processMatches _ _ _ _) as [st4|] eqn:E4;
      rewrite ?bind_Some, ?bind_None in Htry; [|discriminate].
    destruct (checkLevelEnd st4) as [st5|] eqn:E5;
      rewrite ?bind_Some, ?bind_None in Htry; [|discriminate].
    destruct (reshuffleIfStuck fuel rnd st5) as [st6|] eqn:E6;
      rewrite ?bind_Some, ?bind_None in Htry; [|discriminate].
    injection Htry as <-. state_simpl.
    apply reshuffleIfStuck_fields in E6 as (-> & _ & -> & -> & _).
    apply checkLevelEnd_keeps in E5 as (-> & -> & ->).
    apply cascadeLoop_counters in E4. exact E4.
Qed.

(** No click lowers a counter, the total or the score. *)
Lemma handleGemClick_monotone (fuel : nat) (rnd : nat → nat) (row col : nat)
    (st st' : State) :
  handleGemClick fuel rnd row col st = Some st' →
  (∀ k, collected (gemsCollected st) k ≤ collected (gemsCollected st') k)
  ∧ totalGemsCollected st ≤ totalGemsCollected st'
  ∧ score st ≤ score st'.
Proof.
  intros Hclick.
  pose proof (handleGemClick_score _ _ _ _ _ _ Hclick) as Hscore.
  revert Hclick. unfold handleGemClick.
  destruct (isProcessing st);
    [intros [= <-]; split_and!; [intros; lia|lia|lia]|].
  destruct (selectedGem st) as [sel|] eqn:Esel;
    [|intros [= <-]; state_simpl; split_and!; [intros; lia|lia|lia]].
  destruct (_ && _).
  { intros [= <-]. rewrite deselectGem_eq. state_simpl.
    split_and!; [intros; lia|lia|lia]. }
  destruct (isAdjacent sel (row, col)).
  - intros Htry.
    destruct (trySwap_counters _ _ _ _ _ _ _ _ Htry) as (Hk & _).
    split_and!; [exact Hk| |exact Hscore].
    destruct (findAllMatches (swap (grid st) sel.1 sel.2 row col))
      as [|p l] eqn:E.
    + apply trySwap_rejected_fields in Htry as (_ & _ & _ & ->); [lia|done].
    + apply trySwap_accepted_fields in Htry as (_ & _ & Htotal);
        [lia|by rewrite E].
  - intros [= <-]. rewrite deselectGem_eq. state_simpl.
    split_and!; [intros; lia|lia|lia].
Qed.

(** X11. Whenever a click returns, no per-kind counter, nor the total,
    nor the score has gone down; the total is still the sum of the
    per-kind counters if it was before the click, and the score is still
    a multiple of ten if it was. *)
Theorem handleGemClick_tally (fuel : nat) (rnd : nat → nat) (row col : nat)
    (st st' : State) :
  handleGemClick fuel rnd row col st = Some st' →
  (∀ k, collected (gemsCollected st) k ≤ collected (gemsCollected st') k)
  ∧ totalGemsCollected st ≤ totalGemsCollected st'
  ∧ score st ≤ score st'
  ∧ (totalGemsCollected st = sum_collected (gemsCollected st) →
     totalGemsCollected st' = sum_collected (gemsCollected st'))
  ∧ ((10 | score st) → (10 | score st')).
Proof.
  intros Hclick.
  destruct (handleGemClick_monotone _ _ _ _ _ _ Hclick) as (Hk & Ht & Hs).
  split; [exact Hk|]. split; [exact Ht|]. split; [exact Hs|].
  revert Hclick. unfold handleGemClick.
  destruct (isProcessing st); [by intros [= <-]|].
  destruct (selectedGem st) as [sel|] eqn:Esel; [|by intros [= <-]].
  destruct (_ && _).
  { intros [= <-]. rewrite deselectGem_eq. state_simpl. done. }
  destruct (isAdjacent sel (row, col)).
  - intros Htry.
    destruct (trySwap_counters _ _ _ _ _ _ _ _ Htry) as (_ & Hsum & Hdiv).
    split; [exact Hsum|exact Hdiv].
  - intros [= <-]. rewrite deselectGem_eq. state_simpl. done.
Qed.

(** An instance: the second click of the first valid move of
    [board_play]. *)
Lemma handleGemClick_tally_witness :
  ∃ st', handleGemClick 3 (draws [5; 0; 5]%nat) 1 1
           (selectGem 1 0 (level1_state board_play 20)) = Some st'
    ∧ 0 ≤ collected (gemsCollected st') 1
    ∧ totalGemsCollected st' = sum_collected (gemsCollected st')
    ∧ (10 | score st').
Proof.
  destruct (handleGemClick 3 (draws [5; 0; 5]%nat) 1 1
              (selectGem 1 0 (level1_state board_play 20))) as [st'|] eqn:E;
    [|exfalso; revert E; vm_compute; discriminate].
  exists st'. split; [reflexivity|].
  destruct (handleGemClick_tally _ _ _ _ _ _ E) as (Hk & _ & _ & Hsum & Hdiv).
  split; [exact (Hk 1)|]. split.
  - apply Hsum. reflexivity.
  - apply Hdiv. exists 0. reflexivity.
Defined.

Lemma number_goal_fails_mono (goal : option Z) (v v' : Z) :
  v ≤ v' → number_goal_fails goal v = false → number_goal_fails goal v' = false.
Proof.
  intros Hle. destruct goal as [t|]; [|done]. unfold number_goal_fails.
  rewrite !andb_false_iff, !Z.ltb_ge. intros [?|?]; [by left|right; lia].
Qed.

Lemma gem_goal_fails_mono (goal : option GemGoal) (gc gc' : gmap Z Z) :
  (∀ k, collected gc k ≤ collected gc' k) →
  gem_goal_fails goal gc = false → gem_goal_fails goal gc' = false.
Proof.
  intros Hle. destruct goal as [gg|]; [|done]. unfold gem_goal_fails.
  rewrite !Z.ltb_ge. specialize (Hle (type gg)). lia.
Qed.

(** X12. Goals once met stay met: when [checkAllGoalsComplete] holds for
    a goal record before a click, it holds for the same record in the
    state the click returns. *)
Theorem goals_stay_complete (fuel : nat) (rnd : nat → nat) (row col : nat)
    (goals : Goals.t) (st st' : State) :
  handleGemClick fuel rnd row col st = Some st' →
  checkAllGoalsComplete goals st = true →
  checkAllGoalsComplete goals st' = true.
Proof.
  intros Hclick.
  destruct (handleGemClick_monotone _ _ _ _ _ _ Hclick)
    as (Hk & Ht & Hscore).
  unfold checkAllGoalsComplete.
  destruct (number_goal_fails (Goals.score goals) (score st)) eqn:E1;
    [discriminate|].
  destruct (gem_goal_fails (Goals.collectGem goals) (gemsCollected st)) eqn:E2;
    [discriminate|].
  destruct (gem_goal_fails (Goals.collectGem2 goals) (gemsCollected st)) eqn:E3;
    [discriminate|].
  destruct (gem_goal_fails (Goals.collectGem3 goals) (gemsCollected st)) eqn:E4;
    [discriminate|].
  destruct (number_goal_fails (Goals.collectAny goals) (totalGemsCollected st))
    eqn:E5; [discriminate|].
  intros _.
  rewrite (number_goal_fails_mono _ _ _ Hscore E1).
  rewrite (gem_goal_fails_mono _ _ _ Hk E2).
  rewrite (gem_goal_fails_mono _ _ _ Hk E3).
  rewrite (gem_goal_fails_mono _ _ _ Hk E4).
  rewrite (number_goal_fails_mono _ _ _ Ht E5).
  reflexivity.
Qed.

(** An instance: the goal of 500 points, met with 500 points before the
    second click of the first valid move of [board_play] and still met
    with 530 points after it. *)
Lemma goals_stay_complete_witness :
  checkAllGoalsComplete (score_goal 500)
    (set_score 500 (selectGem 1 0 (level1_state board_play 20))) = true
  ∧ ∃ st', handleGemClick 3 (draws [5; 0; 5]%nat) 1 1
             (set_score 500 (selectGem 1 0 (level1_state board_play 20)))
           = Some st'
      ∧ checkAllGoalsComplete (score_goal 500) st' = true.
Proof.
  assert (Hmet : checkAllGoalsComplete (score_goal 500)
            (set_score 500 (selectGem 1 0 (level1_state board_play 20)))
          = true) by reflexivity.
  split; [exact Hmet|].
  destruct (handleGemClick 3 (draws [5; 0; 5]%nat) 1 1
              (set_score 500 (selectGem 1 0 (level1_state board_play 20))))
    as [st'|] eqn:E; [|exfalso; revert E; vm_compute; discriminate].
  exists st'. split; [reflexivity|].
  exact (goals_stay_complete _ _ _ _ (score_goal 500) _ _ E Hmet).
Defined.

(** ** The shuffle *)

Lemma flatten_cols_spec (n : nat) (g : Grid) (row col : nat) (gems : list Z) :
  flatten_cols n g row col gems
  = gems ++ ((λ c, cell g row c) <$> seq col n).
Proof.
  revert col gems. induction n as [|n IH]; intros col gems.
  - cbn. by rewrite app_nil_r.
  - cbn [flatten_cols seq]. rewrite IH, fmap_cons, <- app_assoc.
    by rewrite Nat.add_1_r.
Qed.

Lemma flatten_rows_spec (n : nat) (g : Grid) (row : nat) (gems : list Z) :
  flatten_rows n g row gems
  = gems ++ flat_map (λ r, (λ c, cell g r c) <$> seq 0 COLS) (seq row n).
Proof.
  revert row gems. induction n as [|n IH]; intros row gems.
  - cbn. by rewrite app_nil_r.
  - cbn [flatten_rows seq flat_map].
    rewrite IH, flatten_cols_spec, <- app_assoc. by rewrite Nat.add_1_r.
Qed.

Lemma flatten_rows_cells (g : Grid) : flatten_rows ROWS g 0 [] = cells g.
Proof. by rewrite flatten_rows_spec. Qed.

Lemma length_cells (g : Grid) : length (cells g) = (ROWS * COLS)%nat.
Proof.
  unfold cells.
  rewrite (flat_map_constant_length (c := COLS)), length_seq; [done|].
  intros r _. by rewrite length_fmap, length_seq.
Qed.

(** The Fisher-Yates pass rearranges the gems and draws once for every
    index from [i] down to 1. *)
Lemma fisherYates_spec (i : nat) (rnd : nat → nat) (gems : list Z) (seed : nat) :
  (i < length gems)%nat →
  (fisherYates i rnd gems seed).1 ≡ₚ gems
  ∧ (fisherYates i rnd gems seed).2 = (seed + i)%nat.
Proof.
  revert gems seed. induction i as [|i IH]; intros gems seed Hi.
  - cbn. split; [done|lia].
  - cbn [fisherYates]. cbv zeta.
    set (j := random_int rnd seed (S i + 1)).
    assert (Hj : (j < S i + 1)%nat)
      by (apply Nat.mod_upper_bound; lia).
    destruct (lookup_lt_is_Some_2 gems (S i)) as [gi Hgi]; [lia|].
    destruct (lookup_lt_is_Some_2 gems j) as [gj Hgj]; [lia|].
    rewrite Hgi, Hgj. cbn [default from_option id].
    destruct (IH (<[j:=gi]> (<[S i:=gj]> gems)) (S seed)) as [Hp Hs].
    { rewrite !length_insert. lia. }
    split.
    + rewrite Hp. by apply Permutation_insert_swap.
    + rewrite Hs. lia.
Qed.

Lemma writeBack_cols_spec (n : nat) (gems : list Z) (row col : nat) (g : Grid)
    (index : nat) :
  wf_grid g → (row < ROWS)%nat → (col + n ≤ COLS)%nat →
  let res := writeBack_cols n gems row col g index in
  res.2 = (index + n)%nat
  ∧ ∀ r c, cell res.1 r c
           = if decide (r = row ∧ (col ≤ c < col + n)%nat)
             then default 0 (gems !! (index + (c - col))%nat)
             else cell g r c.
Proof.
  revert col g index. induction n as [|n IH]; intros col g index Hwf Hr Hn.
  - cbn. split; [lia|]. intros r c. rewrite decide_False; [done|lia].
  - cbn [writeBack_cols].
    destruct (IH (col + 1)%nat
                (set_cell g row col (default 0 (gems !! index)))
                (index + 1)%nat) as [Hi Hc];
      [by apply wf_set_cell|done|lia|].
    split; [rewrite Hi; lia|].
    intros r c. rewrite Hc.
    destruct (decide (r = row ∧ (col + 1 ≤ c < col + 1 + n)%nat))
      as [[-> Hin]|Hout].
    + rewrite decide_True by (split; [done|lia]). do 2 f_equal. lia.
    + destruct (decide ((row, col) = (r, c))) as [E|E].
      * simplify_eq. rewrite cell_set_cell_eq by (done || lia).
        rewrite decide_True by (split; [done|lia]).
        do 2 f_equal. lia.
      * rewrite cell_set_cell_ne by done.
        rewrite decide_False; [done|].
        intros [-> Hin]. destruct (decide (c = col)) as [->|?]; [done|].
        apply Hout. split; [done|lia].
Qed.

Lemma writeBack_rows_spec (n : nat) (gems : list Z) (row : nat) (g : Grid)
    (index : nat) :
  wf_grid g → (row + n ≤ ROWS)%nat →
  let res := writeBack_rows n gems row g index in
  res.2 = (index + n * COLS)%nat
  ∧ ∀ r c, (c < COLS)%nat →
      cell res.1 r c
      = if decide (row ≤ r < row + n)%nat
        then default 0 (gems !! (index + (r - row) * COLS + c)%nat)
        else cell g r c.
Proof.
  revert row g index. induction n as [|n IH]; intros row g index Hwf Hn.
  - cbn. split; [lia|]. intros r c _. rewrite decide_False; [done|lia].
  - cbn [writeBack_rows].
    assert (Hrow : (row < ROWS)%nat) by lia.
    assert (H0 : (0 + COLS ≤ COLS)%nat) by lia.
    destruct (writeBack_cols_spec COLS gems row 0 g index Hwf Hrow H0)
      as [Hi Hc].
    pose proof (wf_writeBack_cols COLS gems row 0 g index Hwf) as Hwf1.
    destruct (writeBack_cols COLS gems row 0 g index) as [g1 index1].
    cbn [fst snd] in *.
    destruct (IH (row + 1)%nat g1 index1) as [Hi2 Hc2]; [done|lia|].
    split; [rewrite Hi2, Hi; lia|].
    intros r c Hcol. rewrite Hc2 by done.
    destruct (decide (row + 1 ≤ r < row + 1 + n)%nat) as [Hin|Hout].
    + rewrite decide_True by lia. do 2 f_equal. rewrite Hi. nia.
    + rewrite Hc. destruct (decide (r = row)) as [->|Hne].
      * rewrite decide_True by (split; [done|lia]).
        rewrite decide_True by lia. do 2 f_equal. lia.
      * rewrite decide_False by (intros [? _]; done).
        rewrite decide_False by lia. done.
Qed.

Lemma flat_map_ext_elem {A B} (f g : A → list B) (l : list A) :
  (∀ x, x ∈ l → f x = g x) → flat_map f l = flat_map g l.
Proof.
  induction l as [|x l IH]; intros Hfg; [done|].
  cbn [flat_map]. rewrite Hfg by left.
  rewrite IH; [done|]. intros y Hy. apply Hfg. by right.
Qed.

(** A list of [n * m] elements cut into [n] rows of [m] and read back
    row by row. *)
Lemma chunks_flat (l : list Z) (n m : nat) :
  length l = (n * m)%nat →
  flat_map (λ r, (λ c, default 0 (l !! (r * m + c)%nat)) <$> seq 0 m) (seq 0 n)
  = l.
Proof.
  revert l. induction n as [|n IH]; intros l Hlen.
  - destruct l; [done|simpl in Hlen; lia].
  - rewrite seq_S, flat_map_app. cbn [flat_map plus]. rewrite app_nil_r.
    transitivity (take (n * m) l ++ drop (n * m) l); [|apply take_drop].
    f_equal.
    + transitivity
        (flat_map (λ r, (λ c, default 0 (take (n * m) l !! (r * m + c)%nat))
                          <$> seq 0 m) (seq 0 n));
        [|apply IH; rewrite length_take; lia].
      apply flat_map_ext_elem. intros r Hr. apply elem_of_seq in Hr.
      apply list_fmap_ext. intros i c Hc. apply lookup_seq in Hc as [-> Hc].
      rewrite lookup_take_lt by nia. done.
    + apply list_eq. intros i. rewrite list_lookup_fmap, lookup_drop.
      destruct (decide (i < m)%nat) as [Hi|Hi].
      * rewrite lookup_seq_lt by done. cbn.
        destruct (lookup_lt_is_Some_2 l (n * m + i)) as [x Hx]; [lia|].
        by rewrite Hx.
      * rewrite lookup_seq_ge by lia. rewrite lookup_ge_None_2 by lia. done.
Qed.

(** After the write-back the board holds the shuffled gems, row by
    row. *)
Lemma cells_writeBack (gems : list Z) (g : Grid) :
  wf_grid g → length gems = (ROWS * COLS)%nat →
  cells (writeBack_rows ROWS gems 0 g 0).1 = gems.
Proof.
  intros Hwf Hlen.
  assert (H0 : (0 + ROWS ≤ ROWS)%nat) by lia.
  destruct (writeBack_rows_spec ROWS gems 0 g 0 Hwf H0) as [_ Hc].
  transitivity
    (flat_map (λ r, (λ c, default 0 (gems !! (r * COLS + c)%nat))
                      <$> seq 0 COLS) (seq 0 ROWS));
    [|by apply chunks_flat].
  unfold cells. apply flat_map_ext_elem. intros r Hr.
  apply elem_of_seq in Hr.
  apply list_fmap_ext. intros i c Hi. apply lookup_seq in Hi as [-> Hi].
  rewrite Hc by lia. rewrite decide_True by lia.
  do 2 f_equal. lia.
Qed.

(** How many times [shuffleBoard] went through its body, which is the
    first round whose board has a valid move. *)
Lemma shuffleBoard_spec (fuel : nat) (rnd : nat → nat) (g g' : Grid)
    (seed seed' : nat) :
  wf_grid g → shuffleBoard fuel rnd g seed = Some (g', seed') →
  cells g' ≡ₚ cells g
  ∧ ∃ k, (1 ≤ k ≤ fuel)%nat ∧ seed' = (seed + k * (ROWS * COLS - 1))%nat.
Proof.
  revert g seed. induction fuel as [|fuel IH]; intros g seed Hwf;
    [discriminate|].
  cbn [shuffleBoard]. rewrite flatten_rows_cells.
  assert (Hpos : (length (cells g) - 1 < length (cells g))%nat).
  { rewrite length_cells.
    assert (0 < ROWS * COLS)%nat by (vm_compute; lia). lia. }
  destruct (fisherYates_spec _ rnd (cells g) seed Hpos) as [Hperm Hseed].
  destruct (fisherYates _ rnd _ seed) as [gems1 seed1].
  cbn [fst snd] in Hperm, Hseed.
  assert (Hlen1 : length gems1 = (ROWS * COLS)%nat)
    by (by rewrite Hperm, length_cells).
  pose proof (wf_writeBack_rows ROWS gems1 0 g 0 Hwf) as Hwf1.
  pose proof (cells_writeBack gems1 g Hwf Hlen1) as Hcells1.
  destruct (writeBack_rows ROWS gems1 0 g 0) as [g1 index1].
  cbn [fst] in Hwf1, Hcells1.
  rewrite (hasValidMoves_spec g1 Hwf1).
  rewrite length_cells in Hseed.
  destruct (existsb (gives_match g1) candidates).
  - intros [= <- <-]. split; [by rewrite Hcells1|].
    exists 1%nat. split; [lia|]. rewrite Hseed. lia.
  - intros Hrec. apply IH in Hrec as [Hp (k & Hk & Hs)]; [|exact Hwf1].
    split; [by rewrite Hp, Hcells1|].
    exists (S k). split; [lia|]. rewrite Hs, Hseed. lia.
Qed.

(** X13. When [shuffleBoard] returns, the board it leaves has the right
    shape, holds the same gems as before in some other arrangement, and
    has a valid move; it has gone through one or more rounds, each with
    one drawing for every cell but one. *)
Theorem shuffleBoard_rearranges (fuel : nat) (rnd : nat → nat) (g g' : Grid)
    (seed seed' : nat) :
  wf_grid g → shuffleBoard fuel rnd g seed = Some (g', seed') →
  wf_grid g' ∧ cells g' ≡ₚ cells g ∧ (hasValidMoves g').1 = true
  ∧ ∃ k, (1 ≤ k ≤ fuel)%nat ∧ seed' = (seed + k * (ROWS * COLS - 1))%nat.
Proof.
  intros Hwf Hrun.
  destruct (shuffleBoard_valid _ _ _ _ _ _ Hwf Hrun) as [Hwf' Hvalid].
  destruct (shuffleBoard_spec _ _ _ _ _ _ Hwf Hrun) as [Hperm Hk].
  by split_and!.
Qed.

(** An instance: one round on [board_stuck]. *)
Lemma shuffleBoard_rearranges_witness :
  wf_grid board_stuck
  ∧ shuffleBoard 1 transposing_draws board_stuck 0 = Some (board_reshuffled, 63%nat)
  ∧ cells board_reshuffled ≡ₚ cells board_stuck
  ∧ (hasValidMoves board_reshuffled).1 = true.
Proof.
  assert (Hwf : wf_grid board_stuck) by (by apply wf_gridb_spec; vm_compute).
  assert (Hrun : shuffleBoard 1 transposing_draws board_stuck 0
                 = Some (board_reshuffled, 63%nat)) by (by vm_compute).
  destruct (shuffleBoard_rearranges _ _ _ _ _ _ Hwf Hrun)
    as (_ & Hperm & Hvalid & _).
  by split_and!.
Defined.

(** ** What the board holds between two clicks *)

Lemma gems_only_cells (g : Grid) : gems_only g ↔ Forall is_kind (cells g).
Proof.
  unfold gems_only, cells. rewrite Forall_flat_map, Forall_forall. split.
  - intros Hg r Hr. apply elem_of_seq in Hr.
    apply Forall_fmap, Forall_forall. intros c Hc. apply elem_of_seq in Hc.
    apply Hg; lia.
  - intros Hall r c Hr Hc.
    assert (Hin : r ∈ seq 0 ROWS) by (apply elem_of_seq; lia).
    apply Hall in Hin. rewrite Forall_fmap, Forall_forall in Hin.
    apply Hin. apply elem_of_seq. lia.
Qed.

Lemma gems_only_swap (g : Grid) (r1 c1 r2 c2 : nat) :
  wf_grid g → (r1 < ROWS)%nat → (c1 < COLS)%nat →
  (r2 < ROWS)%nat → (c2 < COLS)%nat →
  gems_only g → gems_only (swap g r1 c1 r2 c2).
Proof.
  intros Hwf H1 H2 H3 H4 Hg r c Hr Hc. rewrite cell_swap by done.
  repeat case_decide; by apply Hg.
Qed.

Lemma gems_or_empty_removeMatches (ms : list Pos) (g : Grid) :
  wf_grid g → gems_or_empty g → gems_or_empty (removeMatches ms g).
Proof.
  revert g. induction ms as [|[r0 c0] ms IH]; intros g Hwf Hg; [exact Hg|].
  cbn [removeMatches]. apply IH; [by apply wf_set_cell|].
  intros r c Hr Hc. destruct (decide ((r0, c0) = (r, c))) as [E|E].
  - simplify_eq. left. by apply cell_set_cell_eq.
  - rewrite cell_set_cell_ne by done. by apply Hg.
Qed.

Lemma gems_or_empty_applyGravity (g : Grid) :
  wf_grid g → gems_or_empty g → gems_or_empty (applyGravity g).
Proof.
  intros Hwf Hg r c Hr Hc.
  pose proof (wf_applyGravity g Hwf) as [Hlen' _].
  pose proof Hwf as [Hlen _].
  pose proof (lookup_column_cell (applyGravity g) r c) as Hlook.
  rewrite column_applyGravity in Hlook by done.
  specialize (Hlook ltac:(lia)).
  apply list_elem_of_lookup_2 in Hlook.
  rewrite compact_Permutation in Hlook.
  apply list_elem_of_lookup in Hlook as [r' Hr'].
  assert (Hlt : (r' < ROWS)%nat).
  { apply lookup_lt_Some in Hr'. rewrite length_column in Hr'. lia. }
  rewrite lookup_column_cell in Hr' by lia. injection Hr' as <-.
  by apply Hg.
Qed.

Lemma gems_only_fillEmptySpaces (rnd : nat → nat) (g : Grid) (seed : nat) :
  wf_grid g → gems_or_empty g → gems_only (fillEmptySpaces rnd g seed).1.
Proof.
  intros Hwf Hg r c Hr Hc.
  destruct (fillEmptySpaces_spec rnd g seed Hwf) as (_ & Hfull & _).
  assert (H0 : (0 + COLS ≤ COLS)%nat) by lia.
  destruct (fill_cols_exact COLS rnd 0 g seed Hwf H0) as [Hcells _].
  fold (fillEmptySpaces rnd g seed) in Hcells.
  destruct (Hcells r c) as [E|[_ K]]; [|exact K].
  destruct (Hg r c Hr Hc) as [He|Hk].
  - exfalso. apply (Hfull r c Hr Hc). exact (eq_trans E He).
  - change (is_kind (cell (fillEmptySpaces rnd g seed).1 r c)).
    rewrite E. exact Hk.
Qed.

Lemma gems_only_or_empty (g : Grid) : gems_only g → gems_or_empty g.
Proof. intros Hg r c Hr Hc. right. by apply Hg. Qed.

Lemma cascadeStep_gems_only (rnd : nat → nat) (n : Z) (ms : list Pos)
    (st : State) :
  wf_grid (grid st) → gems_only (grid st) →
  gems_only (grid (cascadeStep rnd n ms st)).
Proof.
  intros Hwf Hg. rewrite grid_cascadeStep.
  apply gems_only_fillEmptySpaces.
  - by apply wf_applyGravity, wf_removeMatches.
  - apply gems_or_empty_applyGravity; [by apply wf_removeMatches|].
    apply gems_or_empty_removeMatches; [done|].
    by apply gems_only_or_empty.
Qed.

Lemma cascadeLoop_gems_only (fuel : nat) (rnd : nat → nat) (n : Z)
    (ms : list Pos) (st st' : State) :
  wf_grid (grid st) → gems_only (grid st) →
  cascadeLoop fuel rnd n ms st = Some st' → gems_only (grid st').
Proof.
  revert n ms st. induction fuel as [|fuel IH]; intros n ms st Hwf Hg;
    cbn [cascadeLoop].
  - destruct (0 <? length ms)%nat; [discriminate|]. by intros [= <-].
  - destruct (0 <? length ms)%nat; [|by intros [= <-]].
    apply IH.
    + by apply cascadeStep_grid.
    + by apply cascadeStep_gems_only.
Qed.

Lemma reshuffleIfStuck_gems_only (fuel : nat) (rnd : nat → nat)
    (st st' : State) :
  wf_grid (grid st) → gems_only (grid st) →
  reshuffleIfStuck fuel rnd st = Some st' → gems_only (grid st').
Proof.
  intros Hwf Hg. unfold reshuffleIfStuck.
  rewrite (hasValidMoves_spec (grid st) Hwf).
  destruct (existsb (gives_match (grid st)) candidates).
  - intros [= <-]. exact Hg.
  - state_simpl.
    destruct (shuffleBoard fuel rnd (grid st) (seed st)) as [[g' seed']|]
      eqn:Eshuffle; rewrite ?bind_Some, ?bind_None; [|discriminate].
    intros [= <-]. state_simpl.
    apply shuffleBoard_spec in Eshuffle as [Hperm _]; [|exact Hwf].
    apply gems_only_cells. rewrite Hperm. by apply gems_only_cells.
Qed.

Lemma trySwap_ready (fuel : nat) (rnd : nat → nat) (r1 c1 r2 c2 : nat)
    (st st' : State) :
  wf_grid (grid st) → gems_only (grid st) →
  (r1 < ROWS)%nat → (c1 < COLS)%nat → (r2 < ROWS)%nat → (c2 < COLS)%nat →
  trySwap fuel rnd r1 c1 r2 c2 st = Some st' → ready st'.
Proof.
  intros Hwf Hg H1 H2 H3 H4 Htry.
  destruct (trySwap_leaves_valid_move _ _ _ _ _ _ _ _ Hwf Htry)
    as [Hwf' Hvalid].
  destruct (trySwap_idle _ _ _ _ _ _ _ _ Htry) as (Hidle & Hsel & _).
  split_and!; [exact Hwf'| |exact Hvalid|exact Hidle|by rewrite Hsel].
  destruct (findAllMatches (swap (grid st) r1 c1 r2 c2)) as [|p l] eqn:E.
  - rewrite trySwap_rejected in Htry by exact E.
    destruct (reshuffleIfStuck _ _ _) as [st6|] eqn:E6;
      rewrite ?bind_Some, ?bind_None in Htry; [|discriminate].
    injection Htry as <-. state_simpl.
    apply reshuffleIfStuck_gems_only in E6; [exact E6|state_simpl..].
    + by do 2 apply wf_swap.
    + rewrite swap_swap by done. exact Hg.
  - assert (Hne : findAllMatches (swap (grid st) r1 c1 r2 c2) ≠ [])
      by (rewrite E; discriminate).
    rewrite trySwap_accepted in Htry by exact Hne.
    destruct (processMatches _ _ _ _) as [st4|] eqn:E4;
      rewrite ?bind_Some, ?bind_None in Htry; [|discriminate].
    destruct (checkLevelEnd st4) as [st5|] eqn:E5;
      rewrite ?bind_Some, ?bind_None in Htry; [|discriminate].
    destruct (reshuffleIfStuck fuel rnd st5) as [st6|] eqn:E6;
      rewrite ?bind_Some, ?bind_None in Htry; [|discriminate].
    injection Htry as <-. state_simpl.
    apply checkLevelEnd_fields in E5 as (Eg & _).
    pose proof E4 as E4'.
    apply cascadeLoop_stable in E4' as (Hwf4 & _);
      [|state_simpl; by apply wf_swap|left; exact Hne].
    apply cascadeLoop_gems_only in E4;
      [|state_simpl; by apply wf_swap|state_simpl; by apply gems_only_swap].
    apply reshuffleIfStuck_gems_only in E6; [exact E6|by rewrite Eg..].
Qed.

(** X14. The state in which the engine waits for a click (a board of
    the right shape that holds gem kinds only and has a valid move, no
    cycle in progress, a selected cell on the board) is kept by every
    click on a cell of the board that returns: in particular no empty
    cell and no deadlocked board is ever left to the player. *)
Theorem handleGemClick_keeps_ready (fuel : nat) (rnd : nat → nat)
    (row col : nat) (st st' : State) :
  ready st → (row < ROWS)%nat → (col < COLS)%nat →
  handleGemClick fuel rnd row col st = Some st' →
  ready st' ∧ no_empty (grid st').
Proof.
  intros (Hwf & Hg & Hvalid & Hidle & Hsel) Hr Hc Hclick.
  assert (Hready : ready st').
  { revert Hclick. unfold handleGemClick. rewrite Hidle.
    destruct (selectedGem st) as [sel|] eqn:Esel.
    - destruct (Hsel sel eq_refl) as [Hs1 Hs2].
      destruct (_ && _).
      + intros [= <-]. rewrite deselectGem_eq.
        split_and!; [exact Hwf|exact Hg|exact Hvalid|exact Hidle|].
        intros p. state_simpl. discriminate.
      + destruct (isAdjacent sel (row, col)).
        * by apply trySwap_ready.
        * intros [= <-]. rewrite deselectGem_eq.
          split_and!; [exact Hwf|exact Hg|exact Hvalid|exact Hidle|].
          intros p. state_simpl. by intros [= <-].
    - intros [= <-].
      split_and!; [exact Hwf|exact Hg|exact Hvalid|exact Hidle|].
      intros p. state_simpl. by intros [= <-]. }
  split; [exact Hready|].
  destruct Hready as (_ & Hg' & _).
  intros r c Hr' Hc' E. specialize (Hg' r c Hr' Hc').
  unfold is_kind in Hg'. rewrite E in Hg'. unfold EMPTY in Hg'. lia.
Qed.

(** An instance: the two clicks of the first valid move of [board_play]. *)
Lemma handleGemClick_keeps_ready_witness :
  ready (selectGem 1 0 (level1_state board_play 20))
  ∧ ∃ st', handleGemClick 3 (draws [5; 0; 5]%nat) 1 1
             (selectGem 1 0 (level1_state board_play 20)) = Some st'
      ∧ ready st' ∧ no_empty (grid st').
Proof.
  assert (Hready : ready (selectGem 1 0 (level1_state board_play 20))).
  { split_and!.
    - by apply wf_gridb_spec; vm_compute.
    - apply gems_only_cells. unfold is_kind.
      apply (bool_decide_unpack _). by vm_compute.
    - by vm_compute.
    - reflexivity.
    - intros p [= <-]. split; vm_compute; lia. }
  assert (H1 : (1 < ROWS)%nat) by (vm_compute; lia).
  assert (H2 : (1 < COLS)%nat) by (vm_compute; lia).
  split; [exact Hready|].
  destruct (handleGemClick 3 (draws [5; 0; 5]%nat) 1 1
              (selectGem 1 0 (level1_state board_play 20))) as [st'|] eqn:E;
    [|exfalso; revert E; vm_compute; discriminate].
  exists st'. split; [reflexivity|].
  exact (handleGemClick_keeps_ready _ _ _ _ _ _ Hready H1 H2 E).
Defined.

(** ** Building the board *)

Lemma getRandomGem_loop_spec (more : nat) (rnd : nat → nat) (g : Grid)
    (row col : nat) (seed : nat) :
  let res := getRandomGem_loop more rnd g row col seed in
  is_kind res.1
  ∧ (seed < res.2 ≤ seed + S more)%nat
  ∧ res.1 = Z.of_nat (random_int rnd (res.2 - 1) NUM_GEM_TYPES)
  ∧ ((res.2 < seed + S more)%nat → wouldCreateMatch g row col res.1 = false)
  ∧ (∀ s, (seed ≤ s < res.2 - 1)%nat →
       wouldCreateMatch g row col
         (Z.of_nat (random_int rnd s NUM_GEM_TYPES)) = true).
Proof.
  revert seed. induction more as [|more IH]; intros seed.
  - cbn [getRandomGem_loop fst snd].
    replace (S seed - 1)%nat with seed by lia.
    split_and!; [apply random_int_kind|lia|lia|done|lia|intros; lia].
  - cbn [getRandomGem_loop]. cbv zeta.
    destruct (wouldCreateMatch g row col
                (Z.of_nat (random_int rnd seed NUM_GEM_TYPES))) eqn:E.
    + destruct (IH (S seed)) as (H1 & H2 & H3 & H4 & H5).
      split_and!; [exact H1|lia|lia|exact H3| |].
      * intros Hlt. apply H4. lia.
      * intros s Hs. destruct (decide (s = seed)) as [->|Hne]; [exact E|].
        apply H5. lia.
    + cbn [fst snd]. replace (S seed - 1)%nat with seed by lia.
      split_and!; [apply random_int_kind|lia|lia|done|done|intros; lia].
Qed.

(** X15. Called for the next cell of a board under construction,
    [getRandomGemWithoutMatch] makes between 1 and 100 drawings and
    returns the last one, a gem kind; every earlier drawing was refused
    by [wouldCreateMatch], and the one returned passes it unless it is
    the hundredth. A kind is refused only when the two cells to the left
    or the two cells above both hold it. *)
Theorem getRandomGemWithoutMatch_spec (rnd : nat → nat) (g : Grid)
    (row col : nat) (seed : nat) :
  partial g row col → (col < COLS)%nat →
  let gemType := (getRandomGemWithoutMatch rnd g row col seed).1 in
  let seed' := (getRandomGemWithoutMatch rnd g row col seed).2 in
  is_kind gemType
  ∧ (seed + 1 ≤ seed' ≤ seed + 100)%nat
  ∧ gemType = Z.of_nat (random_int rnd (seed' - 1) NUM_GEM_TYPES)
  ∧ ((seed' < seed + 100)%nat → wouldCreateMatch g row col gemType = false)
  ∧ (∀ s, (seed ≤ s < seed' - 1)%nat →
       wouldCreateMatch g row col
         (Z.of_nat (random_int rnd s NUM_GEM_TYPES)) = true)
  ∧ (∀ k, wouldCreateMatch g row col k = true →
       ((2 ≤ col)%nat ∧ cell g row (col - 1) = k ∧ cell g row (col - 2) = k)
       ∨ ((2 ≤ row)%nat ∧ cell g (row - 1) col = k ∧ cell g (row - 2) col = k)).
Proof.
  intros _ _ gemType seed'.
  destruct (getRandomGem_loop_spec 99 rnd g row col seed)
    as (H1 & H2 & H3 & H4 & H5).
  fold (getRandomGemWithoutMatch rnd g row col seed) in H1, H2, H3, H4, H5.
  split_and!; [exact H1|lia|lia|exact H3|exact H4|exact H5|].
  intros k. unfold wouldCreateMatch.
  destruct (Nat.leb_spec 2 col), (Nat.leb_spec 2 row);
    destruct (Z.eqb_spec (cell g row (col - 1)) k);
    destruct (Z.eqb_spec (cell g row (col - 2)) k);
    destruct (Z.eqb_spec (cell g (row - 1) col) k);
    destruct (Z.eqb_spec (cell g (row - 2) col) k);
    cbn [andb]; intros Hw; try discriminate Hw;
    first [left; by split_and! | right; by split_and!].
Qed.

(** An instance: the third cell of the first row, after two gems of
    kind 3; kind 3 is drawn twice and refused, then kind 4 is taken. *)
Lemma getRandomGemWithoutMatch_spec_witness :
  partial [[3; 3]] 0 2 ∧ (2 < COLS)%nat
  ∧ getRandomGemWithoutMatch (draws [3; 3; 4]%nat) [[3; 3]] 0 2 0 = (4, 3%nat)
  ∧ wouldCreateMatch [[3; 3]] 0 2 3 = true
  ∧ wouldCreateMatch [[3; 3]] 0 2
      (getRandomGemWithoutMatch (draws [3; 3; 4]%nat) [[3; 3]] 0 2 0).1 = false.
Proof.
  assert (Hp : partial [[3; 3]] 0 2).
  { split; [reflexivity|]. intros [|r] l Hl; [by injection Hl as <-|].
    by rewrite lookup_cons, lookup_nil in Hl. }
  assert (Hc : (2 < COLS)%nat) by (vm_compute; lia).
  destruct (getRandomGemWithoutMatch_spec (draws [3; 3; 4]%nat) [[3; 3]] 0 2 0
              Hp Hc) as (_ & _ & _ & Hpass & _).
  split; [exact Hp|]. split; [exact Hc|]. split; [by vm_compute|].
  split; [by vm_compute|]. apply Hpass. vm_compute. lia.
Defined.

Lemma partial_row (g : Grid) (row col : nat) :
  partial g row col → ∃ l, g !! row = Some l ∧ length l = col.
Proof.
  intros [Hlen Hrows].
  destruct (lookup_lt_is_Some_2 g row) as [l Hl]; [lia|].
  exists l. split; [done|]. apply Hrows in Hl. by rewrite decide_True in Hl.
Qed.

Lemma cell_assign (g : Grid) (row col : nat) (k : Z) (r c : nat) :
  partial g row col →
  cell (alter (λ l, js_assign l col k) row g) r c
  = if decide ((r, c) = (row, col)) then k else cell g r c.
Proof.
  intros Hp. destruct (partial_row g row col Hp) as (l & Hl & Hlen).
  unfold cell. destruct (decide (r = row)) as [->|Hr].
  - rewrite list_lookup_alter_eq, Hl. cbn [fmap option_fmap option_map mbind
      option_bind].
    unfold js_assign. rewrite Hlen, Nat.ltb_irrefl.
    destruct (decide (c = col)) as [->|Hc].
    + rewrite decide_True by done.
      rewrite lookup_app_r by lia. by rewrite Hlen, Nat.sub_diag.
    + rewrite decide_False by congruence.
      destruct (decide (c < col)%nat).
      * by rewrite lookup_app_l by lia.
      * rewrite !lookup_ge_None_2; [done|lia|rewrite length_app; simpl; lia].
  - rewrite list_lookup_alter_ne by done.
    rewrite decide_False by congruence. done.
Qed.

Lemma partial_assign (g : Grid) (row col : nat) (k : Z) :
  partial g row col →
  partial (alter (λ l, js_assign l col k) row g) row (col + 1).
Proof.
  intros Hp. destruct (partial_row g row col Hp) as (l & Hl & Hlen).
  destruct Hp as [Hg Hrows]. split; [by rewrite length_alter|].
  intros r l' Hl'. destruct (decide (r = row)) as [->|Hr].
  - rewrite list_lookup_alter_eq, Hl in Hl'. injection Hl' as <-.
    unfold js_assign. rewrite Hlen, Nat.ltb_irrefl, length_app. simpl. lia.
  - rewrite list_lookup_alter_ne in Hl' by done.
    apply Hrows in Hl'. by rewrite decide_False in Hl'.
Qed.

(** [wouldCreateMatch] reads the two cells to the left and the two cells
    above only. *)
Lemma wouldCreateMatch_ext (g g' : Grid) (r c : nat) (v : Z) :
  ((2 ≤ c)%nat → cell g' r (c - 1) = cell g r (c - 1)
                 ∧ cell g' r (c - 2) = cell g r (c - 2)) →
  ((2 ≤ r)%nat → cell g' (r - 1) c = cell g (r - 1) c
                 ∧ cell g' (r - 2) c = cell g (r - 2) c) →
  wouldCreateMatch g' r c v = wouldCreateMatch g r c v.
Proof.
  intros Hh Hv. unfold wouldCreateMatch.
  destruct (Nat.leb_spec 2 c) as [Hc|Hc], (Nat.leb_spec 2 r) as [Hr|Hr];
    try (destruct (Hh Hc) as [-> ->]); try (destruct (Hv Hr) as [-> ->]);
    reflexivity.
Qed.

Lemma fits_assign (g : Grid) (row col : nat) (k : Z) (r c : nat) :
  partial g row col →
  placed row col r c ∨ (r, c) = (row, col) →
  fits (alter (λ l, js_assign l col k) row g) r c
  ↔ wouldCreateMatch g r c (if decide ((r, c) = (row, col)) then k
                            else cell g r c) = false.
Proof.
  intros Hp Hrc. unfold fits. rewrite (cell_assign g row col k r c Hp).
  rewrite (wouldCreateMatch_ext g); [done|..].
  - intros Hc. rewrite !cell_assign by done.
    rewrite !decide_False; [done|..];
      intros [= E1 E2]; destruct Hrc as [[[? ?]|[? ?]]|[= ? ?]]; lia.
  - intros Hr. rewrite !cell_assign by done.
    rewrite !decide_False; [done|..];
      intros [= E1 E2]; destruct Hrc as [[[? ?]|[? ?]]|[= ? ?]]; lia.
Qed.

(** The inner loop of [createGrid] from column [col] on. *)
Lemma createGrid_cols_spec (n : nat) (rnd : nat → nat) (g : Grid)
    (row col : nat) (seed : nat) :
  partial g row col → (col + n ≤ COLS)%nat →
  (∀ r c, placed row col r c → is_kind (cell g r c)) →
  let res := createGrid_cols n rnd g row col seed in
  partial res.1 row (col + n)
  ∧ (∀ r c, placed row (col + n) r c → is_kind (cell res.1 r c))
  ∧ (seed + n ≤ res.2 ≤ seed + 100 * n)%nat
  ∧ ((∀ r c, placed row col r c → fits g r c) →
     (res.2 < seed + n + 99)%nat →
     ∀ r c, placed row (col + n) r c → fits res.1 r c).
Proof.
  revert g col seed. induction n as [|n IH]; intros g col seed Hp Hn Hk.
  - cbn [createGrid_cols fst snd]. rewrite Nat.add_0_r.
    split_and!; [done|done|lia|lia|done].
  - cbn [createGrid_cols].
    destruct (getRandomGem_loop_spec 99 rnd g row col seed)
      as (K1 & K2 & _ & K4 & _).
    fold (getRandomGemWithoutMatch rnd g row col seed) in K1, K2, K4.
    destruct (getRandomGemWithoutMatch rnd g row col seed) as [k seed1].
    cbn [fst snd] in K1, K2, K4.
    set (g1 := alter (λ l, js_assign l col k) row g).
    assert (Hp1 : partial g1 row (col + 1)) by by apply partial_assign.
    assert (Hsplit : ∀ r c, placed row (col + 1) r c →
                       placed row col r c ∨ (r, c) = (row, col)).
    { intros r c [[? ?]|[-> ?]]; [left; by left|].
      destruct (decide (c = col)) as [->|?]; [by right|].
      left. right. split; [done|lia]. }
    assert (Hk1 : ∀ r c, placed row (col + 1) r c → is_kind (cell g1 r c)).
    { intros r c Hrc. unfold g1. rewrite cell_assign by done.
      destruct (decide ((r, c) = (row, col))) as [_|Hne]; [exact K1|].
      apply Hk. destruct (Hsplit r c Hrc); [done|by destruct Hne]. }
    destruct (IH g1 (col + 1)%nat seed1 Hp1 ltac:(lia) Hk1)
      as (I1 & I2 & I3 & I4).
    replace (col + 1 + n)%nat with (col + S n)%nat in I1, I2, I4 by lia.
    split_and!; [exact I1|exact I2|lia|lia|].
    intros Hfits Hcap. apply I4; [|lia].
    intros r c Hrc. apply Hsplit in Hrc.
    unfold g1. apply fits_assign; [done|done|].
    destruct (decide ((r, c) = (row, col))) as [[= -> ->]|Hne].
    + apply K4. lia.
    + destruct Hrc as [Hrc|?]; [|done]. by apply Hfits.
Qed.

(** The outer loop of [createGrid] from row [row] on, entered with
    [row] complete rows. *)
Lemma createGrid_rows_spec (n : nat) (rnd : nat → nat) (g : Grid)
    (row : nat) (seed : nat) :
  length g = row → Forall (λ l, length l = COLS) g →
  (row + n ≤ ROWS)%nat →
  (∀ r c, (r < row)%nat → (c < COLS)%nat → is_kind (cell g r c)) →
  let res := createGrid_rows n rnd g row seed in
  length res.1 = (row + n)%nat ∧ Forall (λ l, length l = COLS) res.1
  ∧ (∀ r c, (r < row + n)%nat → (c < COLS)%nat → is_kind (cell res.1 r c))
  ∧ (seed + n * COLS ≤ res.2 ≤ seed + 100 * (n * COLS))%nat
  ∧ ((∀ r c, (r < row)%nat → (c < COLS)%nat → fits g r c) →
     (res.2 < seed + n * COLS + 99)%nat →
     ∀ r c, (r < row + n)%nat → (c < COLS)%nat → fits res.1 r c).
Proof.
  revert g row seed. induction n as [|n IH]; intros g row seed Hlen Hall Hn Hk.
  - cbn [createGrid_rows fst snd]. rewrite Nat.add_0_r.
    split_and!; [done|done|done|lia|lia|done].
  - cbn [createGrid_rows].
    assert (Happ : js_assign g row [] = g ++ [[]]).
    { unfold js_assign. by rewrite Hlen, Nat.ltb_irrefl. }
    rewrite Happ.
    assert (Hcell : ∀ r c, cell (g ++ [[]]) r c = cell g r c).
    { intros r c. unfold cell. destruct (decide (r < length g)%nat).
      - by rewrite lookup_app_l by lia.
      - rewrite lookup_app_r by lia.
        rewrite (lookup_ge_None_2 g) by lia.
        destruct (r - length g)%nat as [|i]; cbn; [|done].
        by rewrite lookup_nil. }
    assert (Hp : partial (g ++ [[]]) row 0).
    { split; [rewrite length_app; simpl; lia|].
      intros r l Hl. destruct (decide (r = row)) as [->|Hr].
      - rewrite lookup_app_r in Hl by lia.
        rewrite Hlen, Nat.sub_diag in Hl. by injection Hl as <-.
      - apply lookup_app_Some in Hl as [Hl|[Hge Hl]].
        + rewrite Forall_forall in Hall. apply Hall.
          by eapply list_elem_of_lookup_2.
        + apply lookup_lt_Some in Hl. simpl in Hl. lia. }
    assert (Hplaced : ∀ r c, placed row 0 r c ↔ (r < row)%nat ∧ (c < COLS)%nat).
    { intros r c. unfold placed. split; [intros [?|[? ?]]; [done|lia]|by left]. }
    assert (Hk0 : ∀ r c, placed row 0 r c → is_kind (cell (g ++ [[]]) r c)).
    { intros r c Hrc. apply Hplaced in Hrc as [? ?]. rewrite Hcell.
      by apply Hk. }
    destruct (createGrid_cols_spec COLS rnd (g ++ [[]]) row 0 seed Hp
                ltac:(lia) Hk0) as (C1 & C2 & C3 & C4).
    destruct (createGrid_cols COLS rnd (g ++ [[]]) row 0 seed) as [g1 seed1].
    cbn [fst snd] in C1, C2, C3, C4. rewrite Nat.add_0_l in C1, C2, C4.
    assert (Hfull : ∀ r c, placed row COLS r c
                           ↔ (r < row + 1)%nat ∧ (c < COLS)%nat).
    { intros r c. unfold placed. split.
      - intros [[? ?]|[-> ?]]; lia.
      - intros [? ?]. destruct (decide (r = row)) as [->|?];
          [by right|left; lia]. }
    destruct C1 as [Hlen1 Hrows1].
    assert (Hall1 : Forall (λ l, length l = COLS) g1).
    { apply Forall_forall. intros l Hl.
      apply list_elem_of_lookup in Hl as [r Hr].
      apply Hrows1 in Hr. by destruct (decide (r = row)). }
    destruct (IH g1 (row + 1)%nat seed1) as (I1 & I2 & I3 & I4 & I5);
      [lia|exact Hall1|lia| |].
    { intros r c Hr Hc. apply C2, Hfull. done. }
    replace (row + 1 + n)%nat with (row + S n)%nat in I1, I3, I5 by lia.
    split_and!; [exact I1|exact I2|exact I3|lia|lia|].
    intros Hfits Hcap. apply I5; [|lia].
    intros r c Hr Hc. apply C4; [|lia|by apply Hfull].
    intros r' c' Hrc. apply Hplaced in Hrc as [Hr' Hc'].
    unfold fits. rewrite Hcell.
    rewrite (wouldCreateMatch_ext g); [by apply Hfits|intros; by rewrite !Hcell..].
Qed.

(** A board every gem of which fits has no match. *)
Lemma fits_no_match (g : Grid) :
  (∀ r c, (r < ROWS)%nat → (c < COLS)%nat → fits g r c) →
  findAllMatches g = [].
Proof.
  intros Hfits. apply findAllMatches_nil. split.
  - intros r i Hr (Hi & E1 & E2).
    specialize (Hfits r (i + 2)%nat Hr Hi). unfold fits, wouldCreateMatch in Hfits.
    replace (i + 2 - 1)%nat with (i + 1)%nat in Hfits by lia.
    replace (i + 2 - 2)%nat with i in Hfits by lia.
    rewrite E1, E2 in Hfits.
    destruct (Nat.leb_spec 2 (i + 2)); [|lia].
    rewrite Z.eqb_refl in Hfits. discriminate.
  - intros i c Hc (Hi & E1 & E2).
    specialize (Hfits (i + 2)%nat c Hi Hc). unfold fits, wouldCreateMatch in Hfits.
    replace (i + 2 - 1)%nat with (i + 1)%nat in Hfits by lia.
    replace (i + 2 - 2)%nat with i in Hfits by lia.
    rewrite E1, E2 in Hfits.
    destruct (Nat.leb_spec 2 (i + 2)); [|lia].
    rewrite Z.eqb_refl in Hfits.
    destruct (_ && _ && _); discriminate.
Qed.

Lemma createGrid_full_spec (rnd : nat → nat) (seed : nat) :
  let g := (createGrid rnd seed).1 in
  let seed' := (createGrid rnd seed).2 in
  wf_grid g ∧ gems_only g
  ∧ (seed + ROWS * COLS ≤ seed' ≤ seed + 100 * (ROWS * COLS))%nat
  ∧ ((seed' < seed + ROWS * COLS + 99)%nat → findAllMatches g = []).
Proof.
  intros g seed'.
  destruct (createGrid_rows_spec ROWS rnd [] 0 seed)
    as (H1 & H2 & H3 & H4 & H5); [done|done|lia|intros; lia|].
  fold (createGrid rnd seed) in H1, H2, H3, H4, H5. fold g in H1, H2, H3, H5.
  fold seed' in H4, H5. rewrite Nat.add_0_l in H1, H3, H5.
  split; [by split|]. split; [exact H3|]. split; [lia|].
  intros Hcap. apply fits_no_match. apply H5; [intros; lia|exact Hcap].
Qed.

(** The inner loop again, cell by cell: a cell for which fewer than 100
    drawings are made fits. [P] singles out the cells looked at. *)
Lemma createGrid_cols_fits (P : nat → nat → Prop) (n : nat) (rnd : nat → nat)
    (g : Grid) (row col : nat) (seed : nat) :
  partial g row col → (col + n ≤ COLS)%nat →
  (∀ r c, placed row col r c → P r c → fits g r c) →
  (∀ j, (j < n)%nat → P row (col + j)%nat →
     let here := createGrid_cols j rnd g row col seed in
     ((getRandomGemWithoutMatch rnd here.1 row (col + j) here.2).2
      < here.2 + 100)%nat) →
  ∀ r c, placed row (col + n) r c → P r c →
    fits (createGrid_cols n rnd g row col seed).1 r c.
Proof.
  revert g col seed. induction n as [|n IH]; intros g col seed Hp Hn Hfits Hatt.
  - cbn [createGrid_cols fst]. rewrite Nat.add_0_r. exact Hfits.
  - pose proof (Hatt 0%nat ltac:(lia)) as H0.
    cbn [createGrid_cols fst snd] in H0. cbv zeta in H0.
    rewrite Nat.add_0_r in H0.
    destruct (getRandomGem_loop_spec 99 rnd g row col seed)
      as (_ & _ & _ & K4 & _).
    fold (getRandomGemWithoutMatch rnd g row col seed) in K4.
    assert (Hstep : ∀ j, createGrid_cols (S j) rnd g row col seed
              = createGrid_cols j rnd
                  (alter (λ l, js_assign l col
                                 (getRandomGemWithoutMatch rnd g row col seed).1)
                         row g)
                  row (col + 1)
                  (getRandomGemWithoutMatch rnd g row col seed).2).
    { intros j. cbn [createGrid_cols].
      by destruct (getRandomGemWithoutMatch rnd g row col seed). }
    rewrite Hstep.
    set (k := (getRandomGemWithoutMatch rnd g row col seed).1) in *.
    set (seed1 := (getRandomGemWithoutMatch rnd g row col seed).2) in *.
    set (g1 := alter (λ l, js_assign l col k) row g) in *.
    assert (Hp1 : partial g1 row (col + 1)) by by apply partial_assign.
    assert (Hsplit : ∀ r c, placed row (col + 1) r c →
                       placed row col r c ∨ (r, c) = (row, col)).
    { intros r c [[? ?]|[-> ?]]; [left; by left|].
      destruct (decide (c = col)) as [->|?]; [by right|].
      left. right. split; [done|lia]. }
    intros r c Hrc HP.
    replace (col + S n)%nat with (col + 1 + n)%nat in Hrc by lia.
    revert r c Hrc HP. apply IH; [exact Hp1|lia| |].
    + intros r c Hrc HP. pose proof (Hsplit r c Hrc) as Hcase.
      unfold g1. apply fits_assign; [done|done|].
      destruct (decide ((r, c) = (row, col))) as [[= -> ->]|Hne].
      * apply K4. fold seed1. apply H0. exact HP.
      * destruct Hcase as [Hrc'|?]; [|done]. by apply Hfits.
    + intros j Hj HP. cbv zeta.
      replace (col + 1 + j)%nat with (col + S j)%nat in HP |- * by lia.
      specialize (Hatt (S j) ltac:(lia) HP). cbv zeta in Hatt.
      rewrite Hstep in Hatt. exact Hatt.
Qed.

Lemma createGrid_rows_fits (P : nat → nat → Prop) (n : nat) (rnd : nat → nat)
    (g : Grid) (row : nat) (seed : nat) :
  length g = row → Forall (λ l, length l = COLS) g →
  (row + n ≤ ROWS)%nat →
  (∀ r c, (r < row)%nat → (c < COLS)%nat → is_kind (cell g r c)) →
  (∀ r c, (r < row)%nat → (c < COLS)%nat → P r c → fits g r c) →
  (∀ i j, (i < n)%nat → (j < COLS)%nat → P (row + i)%nat j →
     let above := createGrid_rows i rnd g row seed in
     let here := createGrid_cols j rnd (js_assign above.1 (row + i) [])
                   (row + i) 0 above.2 in
     ((getRandomGemWithoutMatch rnd here.1 (row + i) j here.2).2
      < here.2 + 100)%nat) →
  ∀ r c, (r < row + n)%nat → (c < COLS)%nat → P r c →
    fits (createGrid_rows n rnd g row seed).1 r c.
Proof.
  revert g row seed. induction n as [|n IH];
    intros g row seed Hlen Hall Hn Hk Hfits Hatt.
  - cbn [createGrid_rows fst]. rewrite Nat.add_0_r. exact Hfits.
  - assert (Hstep : ∀ i, createGrid_rows (S i) rnd g row seed
              = createGrid_rows i rnd
                  (createGrid_cols COLS rnd (js_assign g row []) row 0 seed).1
                  (row + 1)
                  (createGrid_cols COLS rnd (js_assign g row []) row 0 seed).2).
    { intros i. cbn [createGrid_rows].
      by destruct (createGrid_cols COLS rnd (js_assign g row []) row 0 seed). }
    rewrite Hstep.
    assert (Happ : js_assign g row [] = g ++ [[]]).
    { unfold js_assign. by rewrite Hlen, Nat.ltb_irrefl. }
    assert (Hcell : ∀ r c, cell (g ++ [[]]) r c = cell g r c).
    { intros r c. unfold cell. destruct (decide (r < length g)%nat).
      - by rewrite lookup_app_l by lia.
      - rewrite lookup_app_r by lia.
        rewrite (lookup_ge_None_2 g) by lia.
        destruct (r - length g)%nat as [|i]; cbn; [|done].
        by rewrite lookup_nil. }
    assert (Hp : partial (g ++ [[]]) row 0).
    { split; [rewrite length_app; simpl; lia|].
      intros r l Hl. destruct (decide (r = row)) as [->|Hr].
      - rewrite lookup_app_r in Hl by lia.
        rewrite Hlen, Nat.sub_diag in Hl. by injection Hl as <-.
      - apply lookup_app_Some in Hl as [Hl|[Hge Hl]].
        + rewrite Forall_forall in Hall. apply Hall.
          by eapply list_elem_of_lookup_2.
        + apply lookup_lt_Some in Hl. simpl in Hl. lia. }
    assert (Hplaced : ∀ r c, placed row 0 r c ↔ (r < row)%nat ∧ (c < COLS)%nat).
    { intros r c. unfold placed. split; [intros [?|[? ?]]; [done|lia]|by left]. }
    assert (Hfull : ∀ r c, placed row COLS r c
                           ↔ (r < row + 1)%nat ∧ (c < COLS)%nat).
    { intros r c. unfold placed. split.
      - intros [[? ?]|[-> ?]]; lia.
      - intros [? ?]. destruct (decide (r = row)) as [->|?];
          [by right|left; lia]. }
    assert (Hk0 : ∀ r c, placed row 0 r c → is_kind (cell (g ++ [[]]) r c)).
    { intros r c Hrc. apply Hplaced in Hrc as [? ?]. rewrite Hcell.
      by apply Hk. }
    destruct (createGrid_cols_spec COLS rnd (g ++ [[]]) row 0 seed Hp
                ltac:(lia) Hk0) as (C1 & C2 & _ & _).
    assert (Hrowfits : ∀ r c, placed row (0 + COLS) r c → P r c →
              fits (createGrid_cols COLS rnd (g ++ [[]]) row 0 seed).1 r c).
    { apply createGrid_cols_fits; [exact Hp|lia| |].
      - intros r c Hrc HP. apply Hplaced in Hrc as [Hr Hc].
        unfold fits. rewrite Hcell.
        rewrite (wouldCreateMatch_ext g);
          [by apply Hfits|intros; by rewrite !Hcell..].
      - intros j Hj HP. cbv zeta.
        specialize (Hatt 0%nat j ltac:(lia) Hj). cbv zeta in Hatt.
        cbn [createGrid_rows fst snd] in Hatt.
        rewrite Nat.add_0_r, Happ in Hatt. apply Hatt. exact HP. }
    rewrite Happ in *.
    set (g1 := (createGrid_cols COLS rnd (g ++ [[]]) row 0 seed).1) in *.
    set (seed1 := (createGrid_cols COLS rnd (g ++ [[]]) row 0 seed).2) in *.
    rewrite Nat.add_0_l in C1, C2, Hrowfits.
    destruct C1 as [Hlen1 Hrows1].
    assert (Hall1 : Forall (λ l, length l = COLS) g1).
    { apply Forall_forall. intros l Hl.
      apply list_elem_of_lookup in Hl as [r Hr].
      apply Hrows1 in Hr. by destruct (decide (r = row)). }
    intros r c Hr Hc HP.
    replace (row + S n)%nat with (row + 1 + n)%nat in Hr by lia.
    revert r c Hr Hc HP. apply IH; [lia|exact Hall1|lia| | |].
    + intros r c Hr Hc. apply C2, Hfull. done.
    + intros r c Hr Hc HP. apply Hrowfits; [by apply Hfull|exact HP].
    + intros i j Hi Hj HP. cbv zeta.
      replace (row + 1 + i)%nat with (row + S i)%nat in HP |- * by lia.
      specialize (Hatt (S i) j ltac:(lia) Hj HP). cbv zeta in Hatt.
      rewrite Hstep in Hatt. exact Hatt.
Qed.

(** Every cell takes between 1 and 100 drawings. *)
Lemma attempts_range (rnd : nat → nat) (seed : nat) (row col : nat) :
  (1 ≤ attempts rnd seed row col ≤ 100)%nat.
Proof.
  unfold attempts. cbv zeta.
  destruct (getRandomGem_loop_spec 99 rnd (createGrid_upto rnd seed row col).1
              row col (createGrid_upto rnd seed row col).2) as (_ & H & _).
  fold (getRandomGemWithoutMatch rnd (createGrid_upto rnd seed row col).1
          row col (createGrid_upto rnd seed row col).2) in H.
  lia.
Qed.

(** A cell of the finished board for which fewer than 100 drawings were
    made fits. *)
Lemma createGrid_cell_fits (rnd : nat → nat) (seed : nat) (row col : nat) :
  (row < ROWS)%nat → (col < COLS)%nat →
  (attempts rnd seed row col < 100)%nat →
  fits (createGrid rnd seed).1 row col.
Proof.
  intros Hr Hc Hatt. unfold createGrid.
  apply (createGrid_rows_fits (λ r c, (r, c) = (row, col)) ROWS rnd [] 0 seed);
    [done|done|lia|intros; lia|intros; lia| |lia|exact Hc|reflexivity].
  intros i j Hi Hj [= <- <-]. cbv zeta.
  pose proof (attempts_range rnd seed i j) as Hrange.
  unfold attempts, createGrid_upto in Hatt, Hrange.
  cbv zeta in Hatt, Hrange. change (0 + i)%nat with i in *. lia.
Qed.

(** X16. [createGrid] builds a board of the right shape that holds gem
    kinds only, with at least 1 and at most 100 drawings for every cell.
    A cell for which fewer than 100 drawings were made completes no run
    of three with the two cells to its left or the two cells above it; so
    the board has no match whenever no cell used up its hundred attempts,
    which is the case in particular when fewer drawings were made in
    total than one per cell plus 99. *)
Theorem createGrid_spec (rnd : nat → nat) (seed : nat) :
  let g := (createGrid rnd seed).1 in
  let seed' := (createGrid rnd seed).2 in
  wf_grid g ∧ gems_only g ∧ no_empty g
  ∧ (seed + ROWS * COLS ≤ seed' ≤ seed + 100 * (ROWS * COLS))%nat
  ∧ (∀ row col, (1 ≤ attempts rnd seed row col ≤ 100)%nat)
  ∧ (∀ row col, (row < ROWS)%nat → (col < COLS)%nat →
       (attempts rnd seed row col < 100)%nat → fits g row col)
  ∧ ((∀ row col, (row < ROWS)%nat → (col < COLS)%nat →
        (attempts rnd seed row col < 100)%nat) →
     findAllMatches g = [])
  ∧ ((seed' < seed + ROWS * COLS + 99)%nat → findAllMatches g = []).
Proof.
  intros g seed'.
  destruct (createGrid_full_spec rnd seed) as (H1 & H2 & H3 & H4).
  split; [exact H1|]. split; [exact H2|]. split.
  { intros r c Hr Hc E. specialize (H2 r c Hr Hc).
    fold g in H2. unfold is_kind in H2. rewrite E in H2.
    unfold EMPTY in H2. lia. }
  split; [exact H3|]. split; [apply attempts_range|]. split.
  { intros row col Hr Hc Hatt. by apply createGrid_cell_fits. }
  split; [|exact H4].
  intros Hall. apply fits_no_match. intros r c Hr Hc.
  apply createGrid_cell_fits; [exact Hr|exact Hc|by apply Hall].
Qed.

(** An instance: a random source that repeats each kind fifty times;
    1202 drawings are made, far more than one per cell plus 99, no cell
    uses up its hundred attempts, and the board has no match. *)
Lemma createGrid_spec_witness :
  (createGrid (λ k, k / 50)%nat 0).2 = 1202%nat
  ∧ (∀ row col, (row < ROWS)%nat → (col < COLS)%nat →
       (attempts (λ k, k / 50)%nat 0 row col < 100)%nat)
  ∧ findAllMatches (createGrid (λ k, k / 50)%nat 0).1 = [].
Proof.
  assert (Hall : ∀ row col, (row < ROWS)%nat → (col < COLS)%nat →
            (attempts (λ k, k / 50)%nat 0 row col < 100)%nat).
  { intros row col Hr Hc.
    assert (Hb : forallb (λ r, forallb (λ c,
                   (attempts (λ k, k / 50)%nat 0 r c <? 100)%nat)
                   (seq 0 COLS)) (seq 0 ROWS) = true) by (by vm_compute).
    rewrite forallb_forall in Hb.
    specialize (Hb row). rewrite forallb_forall in Hb.
    apply Nat.ltb_lt. apply Hb; apply in_seq; lia. }
  split; [by vm_compute|]. split; [exact Hall|].
  destruct (createGrid_spec (λ k, k / 50)%nat 0)
    as (_ & _ & _ & _ & _ & _ & Hnone & _).
  exact (Hnone Hall).
Defined.

(** ** Loading a level *)

(** The level table holds the levels 1 to 20, each under its own
    number. *)
Lemma find_level_LEVELS (levelId : Z) :
  (1 ≤ levelId ≤ 20 →
   ∃ level, find_level LEVELS levelId = Some level
     ∧ Level.id level = levelId ∧ 0 < Level.moves level)
  ∧ (¬ 1 ≤ levelId ≤ 20 → find_level LEVELS levelId = None).
Proof.
  unfold find_level, LEVELS. cbn [List.find Level.id].
  repeat match goal with
         | |- context [?a =? levelId] =>
             destruct (Z.eqb_spec a levelId) as [<-|?];
               [split; [intros _; eexists; split; [reflexivity|];
                        split; [reflexivity|cbn; lia]
                       |intros H; exfalso; apply H; lia]|]
         end.
  split; [intros H; exfalso; lia|reflexivity].
Qed.

Lemma collected_no_gems (k : Z) : collected no_gems k = 0.
Proof.
  unfold collected, no_gems.
  repeat match goal with
         | |- context [<[?i := _]> _ !! k] =>
             destruct (decide (k = i)) as [->|?]; [by vm_compute|];
             rewrite (lookup_insert_ne _ i k) by done
         end.
  by rewrite lookup_empty.
Qed.

Lemma loadLevel_known (fuel : nat) (rnd : nat → nat) (level : Level.t)
    (st st' : State) :
  find_level LEVELS (Level.id level) = Some level →
  loadLevel fuel rnd (Level.id level) st = Some st' →
  currentLevel st' = Level.id level
  ∧ score st' = 0
  ∧ movesLeft st' = Level.moves level ∧ totalMoves st' = Level.moves level
  ∧ gemsCollected st' = no_gems ∧ totalGemsCollected st' = 0
  ∧ selectedGem st' = None
  ∧ levelProgress st' = levelProgress st ∧ timers st' = timers st
  ∧ status st' = MsgDescription (Level.id level)
  ∧ ready st'.
Proof.
  intros Hfind. unfold loadLevel. rewrite Hfind.
  destruct (createGrid_full_spec rnd (seed st)) as (Hwf & Hg & _).
  destruct (createGrid rnd (seed st)) as [g seed1].
  cbn [fst] in Hwf, Hg. cbv zeta. state_simpl.
  rewrite (hasValidMoves_spec g Hwf).
  destruct (existsb (gives_match g) candidates) eqn:Evalid.
  - intros [= <-]. state_simpl.
    split_and!; try reflexivity. unfold ready. state_simpl.
    split_and!; [exact Hwf|exact Hg| |reflexivity|discriminate].
    rewrite (hasValidMoves_spec g Hwf). exact Evalid.
  - destruct (shuffleBoard fuel rnd g seed1) as [[g2 seed2]|] eqn:Eshuffle;
      rewrite ?bind_Some, ?bind_None; [|discriminate].
    intros [= <-]. state_simpl.
    split_and!; try reflexivity. unfold ready. state_simpl.
    destruct (shuffleBoard_valid _ _ _ _ _ _ Hwf Eshuffle) as [Hwf2 Hvalid2].
    apply shuffleBoard_spec in Eshuffle as [Hperm _]; [|exact Hwf].
    split_and!; [exact Hwf2| |exact Hvalid2|reflexivity|discriminate].
    apply gems_only_cells. rewrite Hperm. by apply gems_only_cells.
Qed.

(** X17. [loadLevel] with a number outside 1 to 20 changes nothing.
    With a level number of the table, whenever it returns, the level is
    the current one, the score and every counter are 0, the moves left
    and the total moves are the (positive) budget of the level, nothing
    is selected, the stored progress is untouched, and the engine waits
    for a click on a fresh board of gem kinds that has a valid move; and
    it does return when the board [createGrid] makes has a valid move. *)
Theorem loadLevel_spec (fuel : nat) (rnd : nat → nat) (levelId : Z)
    (st : State) :
  (¬ 1 ≤ levelId ≤ 20 → loadLevel fuel rnd levelId st = Some st)
  ∧ (1 ≤ levelId ≤ 20 →
     ∃ level, find_level LEVELS levelId = Some level
       ∧ Level.id level = levelId
       ∧ ((hasValidMoves (createGrid rnd (seed st)).1).1 = true →
          ∃ st', loadLevel fuel rnd levelId st = Some st'
            ∧ grid st' = (createGrid rnd (seed st)).1)
       ∧ ∀ st', loadLevel fuel rnd levelId st = Some st' →
           currentLevel st' = levelId
           ∧ score st' = 0
           ∧ movesLeft st' = Level.moves level
           ∧ totalMoves st' = Level.moves level
           ∧ 0 < movesLeft st'
           ∧ totalGemsCollected st' = 0
           ∧ (∀ k, collected (gemsCollected st') k = 0)
           ∧ selectedGem st' = None
           ∧ levelProgress st' = levelProgress st
           ∧ ready st').
Proof.
  destruct (find_level_LEVELS levelId) as [Hin Hout]. split.
  - intros Hno. unfold loadLevel. by rewrite (Hout Hno).
  - intros Hyes. destruct (Hin Hyes) as (level & Hfind & Hid & Hmoves).
    exists level. split; [exact Hfind|]. split; [exact Hid|]. split.
    + intros Hvalid. unfold loadLevel. rewrite Hfind.
      destruct (createGrid_full_spec rnd (seed st)) as (Hwf & _).
      destruct (createGrid rnd (seed st)) as [g seed1].
      cbn [fst] in Hwf, Hvalid. cbv zeta. state_simpl.
      rewrite (hasValidMoves_spec g Hwf) in Hvalid |- *.
      cbn [fst] in Hvalid. rewrite Hvalid.
      eexists. split; reflexivity.
    + intros st' Hload. rewrite <- Hid in Hload.
      rewrite <- Hid in Hfind.
      destruct (loadLevel_known _ _ _ _ _ Hfind Hload)
        as (L1 & L2 & L3 & L4 & L5 & L6 & L7 & L8 & _ & _ & L11).
      rewrite L5. subst levelId.
      split_and!; try assumption; [lia|].
      apply collected_no_gems.
Qed.

Lemma loadLevel_in_table (fuel : nat) (rnd : nat → nat) (levelId : Z)
    (st st' : State) :
  1 ≤ levelId ≤ 20 → loadLevel fuel rnd levelId st = Some st' →
  currentLevel st' = levelId ∧ score st' = 0
  ∧ movesLeft st' = totalMoves st' ∧ 0 < movesLeft st'
  ∧ totalGemsCollected st' = 0
  ∧ levelProgress st' = levelProgress st ∧ ready st'.
Proof.
  intros Hin Hload.
  destruct (find_level_LEVELS levelId) as [Hyes _].
  destruct (Hyes Hin) as (level & Hfind & <- & Hmoves).
  destruct (loadLevel_known _ _ _ _ _ Hfind Hload)
    as (L1 & L2 & L3 & L4 & L5 & L6 & L7 & L8 & _ & _ & L11).
  split_and!; try assumption; [congruence|lia].
Qed.

(** X23. The button for the next level loads the level after the current
    one while the current one is below 20 and does nothing on level 20,
    and the restart and retry buttons load the current level again: so
    the current level stays within the table, and whenever such a click
    returns after loading, the score and the total of collected gems are
    0, the moves left are the whole budget, the stored progress is
    untouched and the engine waits for a click. *)
Theorem level_buttons (fuel : nat) (rnd : nat → nat) (st : State) :
  1 ≤ currentLevel st ≤ 20 →
  (20 ≤ currentLevel st → nextLevel_click fuel rnd st = Some st)
  ∧ (∀ st', currentLevel st < 20 → nextLevel_click fuel rnd st = Some st' →
       currentLevel st' = currentLevel st + 1
       ∧ score st' = 0 ∧ movesLeft st' = totalMoves st' ∧ 0 < movesLeft st'
       ∧ totalGemsCollected st' = 0
       ∧ levelProgress st' = levelProgress st ∧ ready st')
  ∧ (∀ st', restart_click fuel rnd st = Some st' →
       currentLevel st' = currentLevel st
       ∧ score st' = 0 ∧ movesLeft st' = totalMoves st' ∧ 0 < movesLeft st'
       ∧ totalGemsCollected st' = 0
       ∧ levelProgress st' = levelProgress st ∧ ready st')
  ∧ (∀ st', nextLevel_click fuel rnd st = Some st'
            ∨ restart_click fuel rnd st = Some st' →
       1 ≤ currentLevel st' ≤ 20).
Proof.
  intros Hin.
  assert (Hlen : Z.of_nat (length LEVELS) = 20) by reflexivity.
  assert (Hnext : ∀ st', currentLevel st < 20 →
            nextLevel_click fuel rnd st = Some st' →
            loadLevel fuel rnd (currentLevel st + 1) st = Some st').
  { intros st' Hlt. unfold nextLevel_click. rewrite Hlen.
    destruct (Z.ltb_spec (currentLevel st) 20); [done|lia]. }
  split_and!.
  - intros Hlast. unfold nextLevel_click. rewrite Hlen.
    destruct (Z.ltb_spec (currentLevel st) 20); [lia|done].
  - intros st' Hlt Hclick. apply Hnext in Hclick; [|exact Hlt].
    apply loadLevel_in_table in Hclick; [exact Hclick|lia].
  - intros st' Hclick. unfold restart_click in Hclick.
    apply loadLevel_in_table in Hclick; [exact Hclick|lia].
  - intros st' [Hclick|Hclick].
    + destruct (decide (currentLevel st < 20)) as [Hlt|Hge].
      * apply Hnext in Hclick; [|exact Hlt].
        apply loadLevel_in_table in Hclick as (-> & _); lia.
      * unfold nextLevel_click in Hclick. rewrite Hlen in Hclick.
        destruct (Z.ltb_spec (currentLevel st) 20); [lia|].
        injection Hclick as <-. lia.
    + unfold restart_click in Hclick.
      apply loadLevel_in_table in Hclick as (-> & _); lia.
Qed.

(** An instance: level 20, where the button for the next level does
    nothing. *)
Lemma level_buttons_witness :
  1 ≤ currentLevel (mkState board_play 8000 None false 20 0 25 ∅ 80 ∅
                      MsgMatch3 [] 0) ≤ 20
  ∧ nextLevel_click 1 (draws []) (mkState board_play 8000 None false 20 0 25
                                    ∅ 80 ∅ MsgMatch3 [] 0)
    = Some (mkState board_play 8000 None false 20 0 25 ∅ 80 ∅ MsgMatch3 [] 0).
Proof.
  assert (Hin : 1 ≤ currentLevel (mkState board_play 8000 None false 20 0 25
                                    ∅ 80 ∅ MsgMatch3 [] 0) ≤ 20)
    by (cbn; lia).
  split; [exact Hin|].
  apply (level_buttons 1 (draws []) _ Hin). cbn. lia.
Defined.

(** ** Progress, stars and unlocking *)

(** X18. Level 1 is always unlocked, and any other level exactly when
    the level before it has a stored record marked completed. Completing
    a level marks its record completed, so it unlocks the next level; it
    never locks a level that was unlocked, and it touches neither the
    record of another level nor the rest of the state. *)
Theorem completion_unlocks_next (level : Level.t) (st : State) :
  let st' := showLevelComplete level st in
  isLevelUnlocked 1 st = true
  ∧ (∀ n, n ≠ 1 →
       (isLevelUnlocked n st = true
        ↔ ∃ p, levelProgress st !! (n - 1) = Some p ∧ completed p = true))
  ∧ isLevelUnlocked (Level.id level + 1) st' = true
  ∧ (∀ n, isLevelUnlocked n st = true → isLevelUnlocked n st' = true)
  ∧ (∀ n, n ≠ Level.id level →
       levelProgress st' !! n = levelProgress st !! n)
  ∧ grid st' = grid st ∧ score st' = score st
  ∧ movesLeft st' = movesLeft st ∧ currentLevel st' = currentLevel st.
Proof.
  intros st'. split_and!; try reflexivity.
  - intros n Hn. unfold isLevelUnlocked.
    destruct (Z.eqb_spec n 1) as [?|_]; [done|].
    destruct (levelProgress st !! (n - 1)) as [p|]; split.
    + intros Hp. by exists p.
    + by intros (p' & [= <-] & Hp).
    + discriminate.
    + by intros (p' & ? & _).
  - unfold isLevelUnlocked, st', showLevelComplete. state_simpl.
    destruct (Z.eqb_spec (Level.id level + 1) 1) as [?|_]; [done|].
    replace (Level.id level + 1 - 1) with (Level.id level) by lia.
    by rewrite lookup_insert_eq.
  - intros n. unfold isLevelUnlocked, st', showLevelComplete. state_simpl.
    destruct (Z.eqb_spec n 1) as [?|_]; [done|].
    destruct (decide (n - 1 = Level.id level)) as [->|Hne].
    + by rewrite lookup_insert_eq.
    + by rewrite lookup_insert_ne.
  - intros n Hne. unfold st', showLevelComplete. state_simpl.
    by rewrite lookup_insert_ne.
Qed.

Lemma reaches_mono (v v' : Z) (t : option Z) :
  v ≤ v' → reaches v t = true → reaches v' t = true.
Proof.
  intros Hle. destruct t as [t|]; [|done]. unfold reaches.
  rewrite !Z.leb_le. lia.
Qed.

(** X19. Whatever the thresholds of a level are, the star count is one
    of 0, 1, 2 and 3, it is at most the number of thresholds the level
    has, it is 0 below every threshold, and a higher score never gives
    fewer stars. *)
Theorem calculateStars_bounds (level : Level.t) (st st' : State) :
  0 ≤ calculateStars level st ≤ 3
  ∧ calculateStars level st ≤ Z.of_nat (length (Level.starThresholds level))
  ∧ (Forall (λ t, score st < t) (Level.starThresholds level) →
     calculateStars level st = 0)
  ∧ (score st ≤ score st' →
     calculateStars level st ≤ calculateStars level st').
Proof.
  unfold calculateStars. cbv zeta.
  set (ts := Level.starThresholds level).
  split; [|split; [|split]].
  - destruct (reaches (score st) (ts !! 2%nat)),
      (reaches (score st) (ts !! 1%nat)), (reaches (score st) (ts !! 0%nat));
      lia.
  - destruct ts as [|t1 [|t2 [|t3 l]]];
      cbn [lookup list_lookup reaches length];
      repeat match goal with |- context [?a <=? ?b] => destruct (a <=? b) end;
      lia.
  - intros Hall.
    assert (Hno : ∀ i, reaches (score st) (ts !! i) = false).
    { intros i. destruct (ts !! i) as [t|] eqn:E; [|done].
      apply list_elem_of_lookup_2 in E. rewrite Forall_forall in Hall.
      apply Hall in E. unfold reaches. apply Z.leb_gt. exact E. }
    by rewrite !Hno.
  - intros Hle.
    pose proof (reaches_mono _ _ (ts !! 0%nat) Hle) as H0.
    pose proof (reaches_mono _ _ (ts !! 1%nat) Hle) as H1.
    pose proof (reaches_mono _ _ (ts !! 2%nat) Hle) as H2.
    destruct (reaches (score st) (ts !! 2%nat));
      destruct (reaches (score st) (ts !! 1%nat));
      destruct (reaches (score st) (ts !! 0%nat));
      try rewrite (H2 eq_refl); try rewrite (H1 eq_refl);
      try rewrite (H0 eq_refl);
      repeat match goal with
             | |- context [reaches ?v ?t] => destruct (reaches v t)
             end; lia.
Qed.

(** X20. In the level table every level has a positive move budget and
    three positive thresholds in strictly ascending order, and a score
    goal, where there is one, equals the first threshold: so whenever the
    goals of a level with a score goal are met, the level earns at least
    one star. A level without a score goal can be completed with no star:
    level 8 with 20 gems of kind 4 and 600 points. *)
Theorem LEVELS_stars_on_completion :
  (∀ level, level ∈ LEVELS →
     0 < Level.moves level
     ∧ (∃ t1 t2 t3, Level.starThresholds level = [t1; t2; t3]
          ∧ 0 < t1 < t2 ∧ t2 < t3
          ∧ ∀ s, Goals.score (Level.goals level) = Some s → s = t1)
     ∧ ∀ st, checkAllGoalsComplete (Level.goals level) st = true →
         is_Some (Goals.score (Level.goals level)) →
         1 ≤ calculateStars level st)
  ∧ ∃ level st, level ∈ LEVELS ∧ Level.id level = 8
      ∧ checkAllGoalsComplete (Level.goals level) st = true
      ∧ calculateStars level st = 0.
Proof.
  split.
  - intros level Hin. unfold LEVELS in Hin.
    repeat (apply elem_of_cons in Hin as [->|Hin]);
      [..|by apply elem_of_nil in Hin];
      (split; [cbn; lia|]);
      (split;
       [do 3 eexists; split; [reflexivity|];
        split; [lia|]; split; [lia|]; cbn; intros s [= <-]; reflexivity
       |intros st Hdone [s Hs]; cbn in Hs; try discriminate Hs;
        unfold checkAllGoalsComplete in Hdone;
        cbn [Level.goals Goals.score score_goal number_goal_fails] in Hdone;
        unfold calculateStars;
        cbn [Level.starThresholds lookup list_lookup reaches];
        match type of Hdone with
        | context [score st <? ?t] =>
            destruct (Z.ltb_spec (score st) t) as [Hlt|Hge];
              [cbn in Hdone; discriminate Hdone|]
        end;
        repeat match goal with
               | |- context [?a <=? score st] =>
                   destruct (Z.leb_spec a (score st))
               end; lia]).
  - exists (Level.mk 8 20 (Goals.mk None (gem_goal 4 20) None None None)
              [1000; 2000; 3000]).
    exists (mkState board_play 600 None false 8 0 20 (<[4 := 20]> ∅) 20 ∅
              MsgMatch3 [] 0).
    split; [|by vm_compute].
    unfold LEVELS. do 7 (apply elem_of_cons; right).
    apply elem_of_cons. by left.
Qed.

(** ** Clicks and scheduled modals *)

(** X21. A click during a cycle is ignored. With no cycle in progress,
    a click with nothing selected selects the cell and changes nothing
    else, a click on the selected cell clears the selection and changes
    nothing else, and so two clicks on the same cell, with nothing
    selected before, give back the state as it was. *)
Theorem handleGemClick_selection (fuel : nat) (rnd : nat → nat)
    (row col : nat) (st : State) :
  (isProcessing st = true → handleGemClick fuel rnd row col st = Some st)
  ∧ (isProcessing st = false → selectedGem st = None →
     handleGemClick fuel rnd row col st
     = Some (set_selectedGem (Some (row, col)) st))
  ∧ (isProcessing st = false → selectedGem st = Some (row, col) →
     handleGemClick fuel rnd row col st = Some (set_selectedGem None st))
  ∧ (isProcessing st = false → selectedGem st = None →
     handleGemClick fuel rnd row col st ≫= handleGemClick fuel rnd row col
     = Some st).
Proof.
  split_and!.
  - intros Hp. unfold handleGemClick. by rewrite Hp.
  - intros Hp Hsel. unfold handleGemClick. by rewrite Hp, Hsel.
  - intros Hp Hsel. unfold handleGemClick. rewrite Hp, Hsel. cbn [fst snd].
    rewrite !Nat.eqb_refl. cbn [andb]. by rewrite deselectGem_eq.
  - intros Hp Hsel. unfold handleGemClick at 2. rewrite Hp, Hsel.
    rewrite bind_Some. unfold handleGemClick. state_simpl. rewrite Hp.
    cbn [fst snd]. rewrite !Nat.eqb_refl. cbn [andb].
    rewrite deselectGem_eq. destruct st. cbn in Hsel. subst. reflexivity.
Qed.

Lemma cascadeLoop_goals (fuel : nat) (rnd : nat → nat) (n : Z)
    (ms : list Pos) (goals : Goals.t) (st st' : State) :
  0 ≤ n → cascadeLoop fuel rnd n ms st = Some st' →
  checkAllGoalsComplete goals st = true →
  checkAllGoalsComplete goals st' = true.
Proof.
  intros Hn Hloop.
  destruct (cascadeLoop_counters _ _ _ _ _ _ Hloop) as (Hk & _).
  apply cascadeLoop_frame in Hloop as (_ & _ & _ & _ & _ & Hs & Ht); [|done].
  assert (Hscore : score st ≤ score st').
  { assert (0 ≤ Z.of_nat (length ms) * POINTS_PER_GEM * (n + 1))
      by (unfold POINTS_PER_GEM; apply Z.mul_nonneg_nonneg; lia).
    lia. }
  assert (Htotal : totalGemsCollected st ≤ totalGemsCollected st') by lia.
  unfold checkAllGoalsComplete.
  destruct (number_goal_fails (Goals.score goals) (score st)) eqn:E1;
    [discriminate|].
  destruct (gem_goal_fails (Goals.collectGem goals) (gemsCollected st)) eqn:E2;
    [discriminate|].
  destruct (gem_goal_fails (Goals.collectGem2 goals) (gemsCollected st)) eqn:E3;
    [discriminate|].
  destruct (gem_goal_fails (Goals.collectGem3 goals) (gemsCollected st)) eqn:E4;
    [discriminate|].
  destruct (number_goal_fails (Goals.collectAny goals) (totalGemsCollected st))
    eqn:E5; [discriminate|].
  intros _.
  rewrite (number_goal_fails_mono _ _ _ Hscore E1).
  rewrite (gem_goal_fails_mono _ _ _ Hk E2).
  rewrite (gem_goal_fails_mono _ _ _ Hk E3).
  rewrite (gem_goal_fails_mono _ _ _ Hk E4).
  rewrite (number_goal_fails_mono _ _ _ Htotal E5).
  reflexivity.
Qed.

Lemma checkAllGoalsComplete_same (goals : Goals.t) (a b : State) :
  score a = score b → gemsCollected a = gemsCollected b →
  totalGemsCollected a = totalGemsCollected b →
  checkAllGoalsComplete goals a = checkAllGoalsComplete goals b.
Proof. intros E1 E2 E3. unfold checkAllGoalsComplete. by rewrite E1, E2, E3. Qed.

(** X22. A swap attempt that returns has scheduled at most one modal. A
    rejected swap schedules none. An accepted swap made when the goals of
    the current level are already met schedules the completion modal
    again; and an accepted swap schedules the failure modal only if it
    leaves no move. *)
Theorem trySwap_schedules (fuel : nat) (rnd : nat → nat) (r1 c1 r2 c2 : nat)
    (level : Level.t) (st st' : State) :
  find_level LEVELS (currentLevel st) = Some level →
  trySwap fuel rnd r1 c1 r2 c2 st = Some st' →
  (timers st' = timers st
   ∨ timers st' = timers st ++ [ShowLevelComplete level]
   ∨ timers st' = timers st ++ [ShowLevelFailed level])
  ∧ (findAllMatches (swap (grid st) r1 c1 r2 c2) = [] →
     timers st' = timers st)
  ∧ (findAllMatches (swap (grid st) r1 c1 r2 c2) ≠ [] →
     checkAllGoalsComplete (Level.goals level) st = true →
     timers st' = timers st ++ [ShowLevelComplete level])
  ∧ (timers st' = timers st ++ [ShowLevelFailed level] →
     movesLeft st' ≤ 0
     ∧ checkAllGoalsComplete (Level.goals level) st' = false).
Proof.
  intros Hlevel Htry.
  destruct (findAllMatches (swap (grid st) r1 c1 r2 c2)) as [|p l] eqn:E.
  - rewrite trySwap_rejected in Htry by exact E.
    destruct (reshuffleIfStuck _ _ _) as [st6|] eqn:E6;
      rewrite ?bind_Some, ?bind_None in Htry; [|discriminate].
    injection Htry as <-. state_simpl.
    apply reshuffleIfStuck_fields in E6 as (_ & _ & _ & _ & -> & _).
    state_simpl.
    split_and!; [by left|done|done|].
    intros H. by apply app_singleton_ne in H.
  - assert (Hne : findAllMatches (swap (grid st) r1 c1 r2 c2) ≠ [])
      by (rewrite E; discriminate).
    rewrite trySwap_accepted in Htry by exact Hne. rewrite E in Htry.
    destruct (processMatches _ _ _ _) as [st4|] eqn:E4;
      rewrite ?bind_Some, ?bind_None in Htry; [|discriminate].
    destruct (checkLevelEnd st4) as [st5|] eqn:E5;
      rewrite ?bind_Some, ?bind_None in Htry; [|discriminate].
    destruct (reshuffleIfStuck fuel rnd st5) as [st6|] eqn:E6;
      rewrite ?bind_Some, ?bind_None in Htry; [|discriminate].
    injection Htry as <-. state_simpl.
    pose proof (reshuffleIfStuck_fields _ _ _ _ E6)
      as (R1 & R2 & R3 & R4 & R5 & _).
    pose proof (checkLevelEnd_fields _ _ E5) as (_ & G2 & G3 & G4 & G5 & _).
    pose proof E4 as E4'.
    apply cascadeLoop_frame in E4' as (F1 & F2 & F3 & _); [|lia].
    state_simpl in F1. state_simpl in F2. state_simpl in F3.
    assert (Hsame : ∀ goals,
              checkAllGoalsComplete goals (set_isProcessing false st6)
              = checkAllGoalsComplete goals st4).
    { intros goals. apply checkAllGoalsComplete_same; state_simpl; congruence. }
    unfold checkLevelEnd in E5. rewrite F3, Hlevel, bind_Some in E5.
    injection E5 as <-. rewrite R5, R2, Hsame.
    unfold checkLevelEnd_level.
    destruct (checkAllGoalsComplete (Level.goals level) st4) eqn:Edone.
    + state_simpl. rewrite F2.
      split_and!; [right; by left|discriminate|done|].
      intros H. apply app_inv_head in H. discriminate H.
    + destruct (Z.leb_spec (movesLeft st4) 0) as [Hle|Hgt]; state_simpl;
        rewrite F2.
      * split_and!; [right; by right|discriminate| |done].
        intros _ Hdone. exfalso.
        apply (cascadeLoop_goals _ _ _ _ (Level.goals level)) in E4;
          [congruence|lia|].
        rewrite <- Hdone. by apply checkAllGoalsComplete_same.
      * split_and!; [by left|discriminate| |].
        -- intros _ Hdone. exfalso.
           apply (cascadeLoop_goals _ _ _ _ (Level.goals level)) in E4;
             [congruence|lia|].
           rewrite <- Hdone. by apply checkAllGoalsComplete_same.
        -- intros H. by apply app_singleton_ne in H.
Qed.

(** An instance: the first valid move of [board_play] on level 1. *)
Lemma trySwap_schedules_witness :
  find_level LEVELS (currentLevel (level1_state board_play 20)) = Some level1
  ∧ ∃ st', trySwap 3 (draws [5; 0; 5]%nat) 1 0 1 1
             (level1_state board_play 20) = Some st'
      ∧ (timers st' = []
         ∨ timers st' = [] ++ [ShowLevelComplete level1]
         ∨ timers st' = [] ++ [ShowLevelFailed level1]).
Proof.
  assert (Hlevel : find_level LEVELS (currentLevel (level1_state board_play 20))
                   = Some level1) by reflexivity.
  split; [exact Hlevel|].
  destruct (trySwap 3 (draws [5; 0; 5]%nat) 1 0 1 1
              (level1_state board_play 20)) as [st'|] eqn:E;
    [|exfalso; revert E; vm_compute; discriminate].
  exists st'. split; [reflexivity|].
  exact (proj1 (trySwap_schedules _ _ _ _ _ _ _ _ _ Hlevel E)).
Defined.
